(** * The goldfish radio HAL: AT response parser, AT channel, id allocator

    A shallow embedding of
      - [hals/radio/Parser.h] and the [Parser] member functions,
      - [hals/radio/AtResponse.h], [hals/radio/AtResponse.cpp],
      - [hals/radio/AtChannel.h], [hals/radio/AtChannel.cpp],
      - [hals/radio/IdAllocator.h] and the [IdAllocator] member functions,
      - the hexbin helpers and [ratUtils],
    followed by the properties proved about them.

    Conventions.  A [std::string_view] / [std::string] is a [string]; a [char]
    is an [ascii].  Equality of [char]s is equality of bytes.  Where the
    source orders a plain [char] against a number ([ltrim],
    [Parser::skip(' ')]) the [char] is taken through [char_value], signed
    as on the x86 and x86-64 targets: the bytes from [0x80] on count as
    negative there.  The range tests of [hex2bin1] give the same on either
    signedness and go through the byte value.  An [int] is a [Z] kept
    in the 32-bit range by [wrap32] wherever the source narrows or computes;
    a [size_t] is a [nat].  A null [AtResponsePtr] is [None].  Logging
    ([RLOGE] under [FAILURE] and [FAILURE_V]) is left out of the parsers and
    kept where a property speaks of it, in [Conversation::operator()]. *)

From Stdlib Require Import ZArith List String Ascii Bool Lia Sorted.
Import ListNotations.

Local Open Scope string_scope.
Local Open Scope Z_scope.

(** ** Characters, integers and [std::string_view] *)

Definition kCR : ascii := "013"%char.
Definition kLF : ascii := "010"%char.
Definition kQuote : ascii := "034"%char.

(** One-character strings, to write protocol text. *)
Definition CR : string := String kCR "".
Definition DQ : string := String kQuote "".

Definition krOKr : string := CR ++ "OK" ++ CR.

Definition char_code (c : ascii) : Z := Z.of_nat (nat_of_ascii c).

(** A plain [char] as a comparison with a number sees it.  Plain [char] is
    signed on the x86 and x86-64 targets the emulator image is built for:
    there the bytes from [0x80] on are negative.  With [false] in place of
    [true], what follows is the program on a target where plain [char] is
    unsigned. *)
Definition plain_char_is_signed : bool := true.

Definition char_value (c : ascii) : Z :=
  let n := char_code c in
  if plain_char_is_signed && (128 <=? n) then n - 256 else n.

Arguments char_value : simpl never.

(** Conversion to [int] of a value that may not fit (two's complement). *)
Definition wrap32 (z : Z) : Z := (z + 2 ^ 31) mod 2 ^ 32 - 2 ^ 31.
Definition wrap_u8 (z : Z) : Z := z mod 2 ^ 8.
Definition wrap_u16 (z : Z) : Z := z mod 2 ^ 16.
Definition wrap_i8 (z : Z) : Z := (z + 2 ^ 7) mod 2 ^ 8 - 2 ^ 7.

Definition int_of_size (n : nat) : Z := wrap32 (Z.of_nat n).

Definition INT32_MAX : Z := 2 ^ 31 - 1.
Definition INT32_MIN : Z := - 2 ^ 31.

Module sv.

Definition size (s : string) : nat := String.length s.

Definition empty (s : string) : bool :=
  match s with EmptyString => true | _ => false end.

(** [s.front()]; the source never calls it on an empty view except where
    noted. *)
Definition front (s : string) : option ascii :=
  match s with EmptyString => None | String c _ => Some c end.

Definition starts_with (s p : string) : bool := String.prefix p s.

(** [s.substr(pos)] and [s.substr(pos, n)], for [pos <= s.size()]. *)
Definition substr_from (s : string) (pos : nat) : string :=
  String.substring pos (String.length s - pos) s.
Definition substr (s : string) (pos n : nat) : string :=
  String.substring pos n s.

(** [s.find(needle, pos)]; [None] is [npos]. *)
Definition find (s needle : string) (pos : nat) : option nat :=
  String.index pos needle s.
Definition find_char (s : string) (c : ascii) (pos : nat) : option nat :=
  String.index pos (String c "") s.

(** [std::count(s.begin(), s.end(), c)] *)
Fixpoint count (s : string) (c : ascii) : nat :=
  match s with
  | EmptyString => O
  | String b r => if Ascii.eqb b c then S (count r c) else count r c
  end.

End sv.

(** [ltrim] of AtResponse.cpp: [s.front() <= 0x20] compares a plain
    [char]. *)
Fixpoint ltrim (s : string) : string :=
  match s with
  | EmptyString => s
  | String c r => if char_value c <=? 32 then ltrim r else s
  end.

(** ** [std::from_chars] for [int] *)

Inductive errc := errc_ok | invalid_argument | result_out_of_range.

Definition digit_value (c : ascii) : option Z :=
  let n := char_code c in
  if (48 <=? n) && (n <=? 57) then Some (n - 48)
  else if (97 <=? n) && (n <=? 122) then Some (n - 97 + 10)
  else if (65 <=? n) && (n <=? 90) then Some (n - 65 + 10)
  else None.

(** The longest run of digits of [base] at the front of [s]: its value, its
    length and what follows it. *)
Fixpoint take_digits (base : Z) (s : string) (acc : Z) (cnt : nat)
  : Z * nat * string :=
  match s with
  | EmptyString => (acc, cnt, s)
  | String c r =>
      match digit_value c with
      | Some d =>
          if d <? base then take_digits base r (acc * base + d) (S cnt)
          else (acc, cnt, s)
      | None => (acc, cnt, s)
      end
  end.

Record from_chars_result := {
  fc_ec : errc;
  fc_value : Z;        (* meaningful when [fc_ec = errc_ok] *)
  fc_rest : string;    (* the text from [ptr] on *)
  fc_len : nat         (* [ptr - first] *)
}.

(** The digits of [body], which is [s] without its sign. *)
Definition from_chars_digits (s body : string) (neg : bool) (signlen : nat)
    (base : Z) : from_chars_result :=
  let '(v, cnt, rest) := take_digits base body 0 0 in
  match cnt with
  | O => {| fc_ec := invalid_argument; fc_value := 0; fc_rest := s; fc_len := 0 |}
  | _ =>
      let v' := if neg then - v else v in
      if (INT32_MIN <=? v') && (v' <=? INT32_MAX)
      then {| fc_ec := errc_ok; fc_value := v'; fc_rest := rest;
              fc_len := (signlen + cnt)%nat |}
      else {| fc_ec := result_out_of_range; fc_value := 0; fc_rest := rest;
              fc_len := (signlen + cnt)%nat |}
  end.

Definition from_chars (s : string) (base : Z) : from_chars_result :=
  match s with
  | String "-"%char r => from_chars_digits s r true 1 base
  | _ => from_chars_digits s s false 0 base
  end.

(** [std::from_chars(b, e, v, base)] with the result dropped: [v] keeps its
    old value unless the conversion succeeds. *)
Definition from_chars_into (s : string) (base : Z) (old : Z) : Z :=
  let r := from_chars s base in
  match fc_ec r with errc_ok => fc_value r | _ => old end.

(** ** hexbin *)

Definition hex2bin1 (c : ascii) : Z :=
  let n := char_code c in
  if (48 <=? n) && (n <=? 57) then n - 48
  else if (97 <=? n) && (n <=? 102) then n - 97 + 10
  else if (65 <=? n) && (n <=? 70) then n - 65 + 10
  else 0.

Fixpoint hex2binImpl (s : string) : list Z :=
  match s with
  | String a (String b r) =>
      Z.lor (Z.shiftl (hex2bin1 a) 4) (hex2bin1 b) :: hex2binImpl r
  | _ => []
  end.

(** [hex2bin(hex, &bin)]: [None] is the [false] return (odd length). *)
Definition hex2bin (hex : string) : option (list Z) :=
  if Nat.odd (String.length hex) then None else Some (hex2binImpl hex).

Definition bin2hex1 (x : Z) : ascii :=
  if x <? 10 then ascii_of_nat (Z.to_nat (x + 48))
  else ascii_of_nat (Z.to_nat (x - 10 + 65)).

(** [bin2hex(b, sz)] over the [sz] bytes at [b] *)
Fixpoint bin2hex (b : list Z) : string :=
  match b with
  | [] => EmptyString
  | bb :: r =>
      String (bin2hex1 (Z.shiftr bb 4))
             (String (bin2hex1 (Z.land bb 15)) (bin2hex r))
  end.

(** ** [struct Parser] *)

Module Parser.

(** [mBegin = None] is the null pointer a failed parser carries;
    [Some s] is the text in [mBegin, mEnd).  [mOffset] is
    [mBegin - mImmutableBegin]. *)
Record t := mk { mBegin : option string; mOffset : nat }.

Definition make (str : string) : t := mk (Some str) 0.

Definition fail (p : t) : t := mk None (mOffset p).

Definition matchSoFar (p : t) : bool :=
  match mBegin p with Some _ => true | None => false end.

Definition fullMatch (p : t) : bool :=
  match mBegin p with Some EmptyString => true | _ => false end.

Definition hasMore (p : t) : bool :=
  match mBegin p with Some (String _ _) => true | _ => false end.

(** [char(-1)] when there is nothing left *)
Definition front (p : t) : ascii :=
  match mBegin p with Some (String c _) => c | _ => "255"%char end.

(** The loop of [skip(' ')]: [*mBegin <= ' '] compares plain [char]s. *)
Fixpoint skip_blanks (s : string) (off : nat) : string * nat :=
  match s with
  | EmptyString => (s, off)
  | String c r =>
      if char_value c <=? char_value " " then skip_blanks r (S off)
      else (s, off)
  end.

(** [skip(char c)] *)
Definition skip (c : ascii) (p : t) : t :=
  match mBegin p with
  | None => p
  | Some s =>
      if Ascii.eqb c " " then
        let (s', off) := skip_blanks s (mOffset p) in mk (Some s') off
      else
        match s with
        | String b r =>
            if Ascii.eqb b c then mk (Some r) (S (mOffset p)) else fail p
        | EmptyString => fail p
        end
  end.

(** The loop of [skip(const char* s)]: [lit] is the C string. *)
Fixpoint skip_lit (lit s : string) (off : nat) : option (string * nat) :=
  match s with
  | EmptyString =>
      match lit with EmptyString => Some (s, off) | _ => None end
  | String b r =>
      match lit with
      | EmptyString => Some (s, off)
      | String c lit' =>
          if Ascii.eqb c b then skip_lit lit' r (S off) else None
      end
  end.

(** [skip(const char* s)] *)
Definition skips (lit : string) (p : t) : t :=
  match mBegin p with
  | None => p
  | Some s =>
      match skip_lit lit s (mOffset p) with
      | Some (s', off) => mk (Some s') off
      | None => fail p
      end
  end.

(** [operator()(char* result)]; [old] is what [*result] held. *)
Definition char (old : ascii) (p : t) : t * ascii :=
  match mBegin p with
  | None => (p, old)
  | Some (String c r) => (mk (Some r) (S (mOffset p)), c)
  | Some EmptyString => (fail p, old)
  end.

(** [operator()(int* result, int base)] *)
Definition int_base (base : Z) (old : Z) (p : t) : t * Z :=
  match mBegin p with
  | None => (p, old)
  | Some EmptyString => (fail p, old)
  | Some s =>
      let r := from_chars s base in
      match fc_ec r with
      | errc_ok => (mk (Some (fc_rest r)) (mOffset p + fc_len r), fc_value r)
      | _ => (fail p, old)
      end
  end.

Definition int (old : Z) (p : t) : t * Z := int_base 10 old p.

(** The text before the first [e] in [s], and what follows that [e]. *)
Fixpoint split_at (e : ascii) (s : string) : option (string * string) :=
  match s with
  | EmptyString => None
  | String c r =>
      if Ascii.eqb c e then Some (EmptyString, r)
      else match split_at e r with
           | Some (a, b) => Some (String c a, b)
           | None => None
           end
  end.

(** [operator()(std::string_view* result, char end)] *)
Definition view (e : ascii) (old : string) (p : t) : t * string :=
  match mBegin p with
  | None => (p, old)
  | Some s =>
      match split_at e s with
      | Some (a, b) => (mk (Some b) (mOffset p + String.length a + 1), a)
      | None => (fail p, old)
      end
  end.

(** [operator()(std::string* result, char end)] *)
Definition str (e : ascii) (old : string) (p : t) : t * string :=
  let (p', v) := view e EmptyString p in
  if matchSoFar p' then (p', v) else (p', old).

(** [remaining()] *)
Definition remaining (p : t) : t * string :=
  match mBegin p with
  | Some s => (mk (Some EmptyString) (mOffset p + String.length s), s)
  | None => (p, EmptyString)
  end.

Definition remainingAsString (p : t) : t * string := remaining p.

(** [consumed()] *)
Definition consumed (p : t) : Z :=
  match mBegin p with
  | Some _ => int_of_size (mOffset p)
  | None => -1
  end.

End Parser.

(** ** [namespace ratUtils] *)

Module ratUtils.

(** The enumerators of [RadioTechnology] that ratUtils names.  The
    enumeration is declared outside the sources at hand: the number behind
    each enumerator is the parameter [value] below. *)
Module RadioTechnology.
Inductive t :=
| GSM | GPRS | EDGE | HSUPA | HSDPA | HSPA | HSPAP | UMTS | IS95A | IS95B
| ONE_X_RTT | EVDO_0 | EVDO_A | EVDO_B | EHRPD | TD_SCDMA | LTE | NR.

Definition eqb (a b : t) : bool :=
  match a, b with
  | GSM, GSM | GPRS, GPRS | EDGE, EDGE | HSUPA, HSUPA | HSDPA, HSDPA
  | HSPA, HSPA | HSPAP, HSPAP | UMTS, UMTS | IS95A, IS95A | IS95B, IS95B
  | ONE_X_RTT, ONE_X_RTT | EVDO_0, EVDO_0 | EVDO_A, EVDO_A
  | EVDO_B, EVDO_B | EHRPD, EHRPD | TD_SCDMA, TD_SCDMA | LTE, LTE
  | NR, NR => true
  | _, _ => false
  end.
End RadioTechnology.

(** [enum class ModemTechnology], by the value of each enumerator: a
    [static_cast] from a parsed number can hold any [int]. *)
Module ModemTechnology.
Definition GSM : Z := 0.
Definition WCDMA : Z := 1.
Definition CDMA : Z := 2.
Definition EVDO : Z := 3.
Definition TDSCDMA : Z := 4.
Definition LTE : Z := 5.
Definition NR : Z := 6.
End ModemTechnology.

Section Masks.

Variable value : RadioTechnology.t -> Z.

Definition ratbit (r : RadioTechnology.t) : Z := Z.shiftl 1 (value r).

Definition kGSM : Z :=
  Z.lor (Z.lor (ratbit RadioTechnology.GSM) (ratbit RadioTechnology.GPRS))
        (ratbit RadioTechnology.EDGE).
Definition kWCDMA : Z :=
  Z.lor (Z.lor (Z.lor (Z.lor (ratbit RadioTechnology.HSUPA)
                             (ratbit RadioTechnology.HSDPA))
                      (ratbit RadioTechnology.HSPA))
               (ratbit RadioTechnology.HSPAP))
        (ratbit RadioTechnology.UMTS).
Definition kCDMA : Z :=
  Z.lor (Z.lor (ratbit RadioTechnology.IS95A) (ratbit RadioTechnology.IS95B))
        (ratbit RadioTechnology.ONE_X_RTT).
Definition kEVDO : Z :=
  Z.lor (Z.lor (Z.lor (ratbit RadioTechnology.EVDO_0)
                      (ratbit RadioTechnology.EVDO_A))
               (ratbit RadioTechnology.EVDO_B))
        (ratbit RadioTechnology.EHRPD).
Definition kTDSCDMA : Z := ratbit RadioTechnology.TD_SCDMA.
Definition kLTE : Z := ratbit RadioTechnology.LTE.
Definition kNR : Z := ratbit RadioTechnology.NR.

Definition kTechsBitmask : list Z :=
  [kGSM; kWCDMA; kCDMA; kEVDO; kTDSCDMA; kLTE; kNR].

Definition supportedRadioTechBitmask (mtech : Z) : Z :=
  if (0 <=? mtech) && (mtech <? Z.of_nat (List.length kTechsBitmask))
  then nth (Z.to_nat mtech) kTechsBitmask 0
  else 0.

Definition kCurrentTech : list RadioTechnology.t :=
  [RadioTechnology.EDGE; RadioTechnology.HSPA; RadioTechnology.IS95B;
   RadioTechnology.EVDO_B; RadioTechnology.TD_SCDMA; RadioTechnology.LTE;
   RadioTechnology.NR].

Definition currentRadioTechnology (mtech : Z) : RadioTechnology.t :=
  if (0 <=? mtech) && (mtech <? Z.of_nat (List.length kCurrentTech))
  then nth (Z.to_nat mtech) kCurrentTech RadioTechnology.EDGE
  else RadioTechnology.EDGE.

(** [bitmask & k] as a condition *)
Definition hits (bitmask k : Z) : bool := negb (Z.land bitmask k =? 0).

Definition modemTechnologyFromRadioTechnologyBitmask
    (radioTechnologyBitmask : Z) : Z :=
  if hits radioTechnologyBitmask kNR then ModemTechnology.NR
  else if hits radioTechnologyBitmask kLTE then ModemTechnology.LTE
  else if hits radioTechnologyBitmask kTDSCDMA then ModemTechnology.TDSCDMA
  else if hits radioTechnologyBitmask kEVDO then ModemTechnology.EVDO
  else if hits radioTechnologyBitmask kCDMA then ModemTechnology.CDMA
  else if hits radioTechnologyBitmask kWCDMA then ModemTechnology.WCDMA
  else ModemTechnology.GSM.

Definition mtechBit (mtech : Z) : Z := Z.shiftl 1 mtech.

Definition modemTechnologyBitmaskFromRadioTechnologyBitmask
    (radioTechnologyBitmask : Z) : Z :=
  let m := 0 in
  let m := if hits radioTechnologyBitmask kNR
           then Z.lor m (mtechBit ModemTechnology.NR) else m in
  let m := if hits radioTechnologyBitmask kLTE
           then Z.lor m (mtechBit ModemTechnology.LTE) else m in
  let m := if hits radioTechnologyBitmask kTDSCDMA
           then Z.lor m (mtechBit ModemTechnology.TDSCDMA) else m in
  let m := if hits radioTechnologyBitmask kEVDO
           then Z.lor m (mtechBit ModemTechnology.EVDO) else m in
  let m := if hits radioTechnologyBitmask kCDMA
           then Z.lor m (mtechBit ModemTechnology.CDMA) else m in
  let m := if hits radioTechnologyBitmask kWCDMA
           then Z.lor m (mtechBit ModemTechnology.WCDMA) else m in
  let m := if hits radioTechnologyBitmask kGSM
           then Z.lor m (mtechBit ModemTechnology.GSM) else m in
  m.

End Masks.

End ratUtils.

(** ** [struct AtResponse]: the variant and its alternatives *)

Module AtResponse.

(** [RadioError], as far as [CmeError::parse] produces it *)
Inductive RadioError :=
| OPERATION_NOT_ALLOWED | REQUEST_NOT_SUPPORTED | SIM_ABSENT | SIM_PIN2
| SIM_PUK2 | SIM_BUSY | PASSWORD_INCORRECT | SIM_FULL | INVALID_ARGUMENTS
| NO_SUCH_ELEMENT | GENERIC_FAILURE | NO_NETWORK_FOUND | NETWORK_REJECT.

Inductive CPIN_State := ABSENT | NOT_READY | READY | PIN | PUK.

(** [modem::RadioState] *)
Inductive RadioState := RadioState_OFF | RadioState_UNAVAILABLE | RadioState_ON.

(** [COPS::OperatorInfo]; [oi_state] is the [State] enumerator's value
    ([UNKNOWN] 0, [AVAILABLE] 1, [CURRENT] 2, [FORBIDDEN] 3), which a
    [static_cast] from the parsed number fills. *)
Record OperatorInfo := {
  oi_state : Z;
  oi_longName : string;
  oi_shortName : string;
  oi_numeric : string
}.
Definition OperatorInfo_State_UNKNOWN : Z := 0.
Definition OperatorInfo_State_CURRENT : Z := 2.
Definition NetworkSelectionMode_AUTOMATIC : Z := 0.

(** The fields of [voice::Call] that [CLCC::parse] sets. *)
Record Call := {
  call_state : Z;
  call_index : Z;
  call_toa : Z;
  call_isMpty : bool;
  call_isMT : bool;
  call_isVoice : bool;
  call_number : string
}.

(** The fields of [voice::CallForwardInfo] that [CCFCU::parse] sets. *)
Record CallForwardInfo := {
  cfi_status : Z;
  cfi_serviceClass : Z;
  cfi_toa : Z;
  cfi_number : string;
  cfi_timeSeconds : Z
}.

Record PdpContext := {
  pdp_type : string;
  pdp_apn : string;
  pdp_addr : string;
  pdp_index : Z;
  pdp_dComp : Z;
  pdp_hComp : Z
}.

Record Association := { assoc_from : Z; assoc_to : Z }.

Record CSQ_t := {
  gsm_signalStrength : Z; gsm_bitErrorRate : Z; gsm_timingAdvance : Z;
  cdma_dbm : Z; cdma_ecio : Z;
  evdo_dbm : Z; evdo_ecio : Z; evdo_signalNoiseRatio : Z;
  lte_signalStrength : Z; lte_rsrp : Z; lte_rsrq : Z; lte_rssnr : Z;
  lte_cqi : Z; lte_timingAdvance : Z; lte_cqiTableIndex : Z;
  tdscdma_signalStrength : Z; tdscdma_bitErrorRate : Z; tdscdma_rscp : Z;
  wcdma_signalStrength : Z; wcdma_bitErrorRate : Z; wcdma_rscp : Z;
  wcdma_ecno : Z;
  nr_ssRsrp : Z; nr_ssRsrq : Z; nr_ssSinr : Z;
  nr_csiRsrp : Z; nr_csiRsrq : Z; nr_csiSinr : Z;
  nr_csiCqiTableIndex : Z; nr_timingAdvance : Z
}.

Record CGCONTRDP_t := {
  rdp_apn : string; rdp_localAddr : string; rdp_gwAddr : string;
  rdp_dns1 : string; rdp_dns2 : string;
  rdp_cid : Z; rdp_bearer : Z; rdp_localAddrSize : Z
}.

Record MBAU_t := {
  mbau_kc : list Z; mbau_sres : list Z; mbau_ck : list Z; mbau_ik : list Z;
  mbau_resAuts : list Z; mbau_status : Z
}.

Record CTZV_t := {
  tzName : string; year : Z; month : Z; day : Z; hour : Z;
  isDaylightSaving : Z; minute : Z; second : Z; tzOffset15m : Z
}.

(** [AtResponse::Value], one constructor per alternative of the variant.
    The structs [RING], [CLIP], [CLIR], [CMUT] and [WSOS] are the ones
    AtResponse.cpp uses; their fields are those their parsers fill. *)
Inductive t :=
| OK
| ParseError (cmd : string)
| ERROR
| RING
| SmsPrompt
| CmeError (error : RadioError)
| CmsError (message : string)
| CPIN (state : CPIN_State)
| CPINR (remainingRetryTimes maxRetryTimes : Z)
| CRSM (response : string) (sw1 sw2 : Z)
| CFUN (state : RadioState)
| CREG (areaCode cellId networkType state : Z)
| CEREG (areaCode cellId networkType state : Z)
| CGREG (areaCode cellId networkType state : Z)
| CTEC (values : list string)
| COPS (operators : list OperatorInfo) (numeric : string)
       (networkSelectionMode : Z)
| WRMP (cdmaRoamingPreference : Z)
| CCSS (source : Z)
| CSQ (v : CSQ_t)
| CLCC (calls : list Call)
| CCFCU (callForwardInfos : list CallForwardInfo)
| CCWA (serviceClass : Z) (enable : bool)
| CGDCONT (contexts : list PdpContext)
| CGCONTRDP (v : CGCONTRDP_t)
| CGFPCCFG (status mtech contextId bandwidth freq : Z)
| CUSATD (a b : Z)
| CUSATP (cmd : string)
| CUSATE (response : string)
| CUSATT (value : Z)
| CUSATEND
| CLCK (locked : bool)
| CSIM (response : string)
| CGLA (response : string)
| CCHC
| CLIP (enable : bool) (status : Z)
| CLIR (n m : Z)
| CMUT (on : bool)
| WSOS (isEmergencyMode : bool)
| CSCA (sca : string) (tosca : Z)
| CSCB (serviceId codeScheme : list Association) (mode : Z)
| CMGS (messageRef : Z)
| CMGW (messageRef : Z)
| CMT (pdu : list Z) (something : Z)
| CDS (pdu : list Z) (pduSize : Z)
| MBAU (v : MBAU_t)
| CTZV (v : CTZV_t)
| Str (value : string).

(** [AtResponsePtr]: a shared pointer to an immutable response, or null. *)
Definition AtResponsePtr := option t.
Definition ParseResult := (Z * AtResponsePtr)%type.

Definition make (v : t) : AtResponsePtr := Some v.

(** The types that declare [id()]. *)
Inductive Tag :=
| T_CmeError | T_CmsError | T_CPIN | T_CPINR | T_CRSM | T_CFUN | T_CREG
| T_CGREG | T_CEREG | T_CTEC | T_COPS | T_WRMP | T_CCSS | T_CSQ | T_CLCC
| T_CCFCU | T_CCWA | T_CGDCONT | T_CGCONTRDP | T_CGFPCCFG | T_CUSATD
| T_CUSATP | T_CUSATE | T_CUSATT | T_CUSATEND | T_CLCK | T_CSIM | T_CGLA
| T_CCHC | T_CLIP | T_CLIR | T_CMUT | T_WSOS | T_CSCA | T_CSCB | T_CMGS
| T_CMGW | T_CMT | T_CDS | T_MBAU | T_CTZV.

(** [T::id()].  The header gives [CPINR] the text of [CPIN].  [CLIP],
    [CLIR], [CMUT] and [WSOS] are declared outside the sources at hand;
    their tags are the struct names, as for every other reply. *)
Definition id (T : Tag) : string :=
  match T with
  | T_CmeError => "CME ERROR" | T_CmsError => "CMS ERROR"
  | T_CPIN => "CPIN" | T_CPINR => "CPIN" | T_CRSM => "CRSM"
  | T_CFUN => "CFUN" | T_CREG => "CREG" | T_CGREG => "CGREG"
  | T_CEREG => "CEREG" | T_CTEC => "CTEC" | T_COPS => "COPS"
  | T_WRMP => "WRMP" | T_CCSS => "CCSS" | T_CSQ => "CSQ"
  | T_CLCC => "CLCC" | T_CCFCU => "CCFCU" | T_CCWA => "CCWA"
  | T_CGDCONT => "CGDCONT" | T_CGCONTRDP => "CGCONTRDP"
  | T_CGFPCCFG => "CGFPCCFG" | T_CUSATD => "CUSATD"
  | T_CUSATP => "CUSATP" | T_CUSATE => "CUSATE" | T_CUSATT => "CUSATT"
  | T_CUSATEND => "CUSATEND" | T_CLCK => "CLCK" | T_CSIM => "CSIM"
  | T_CGLA => "CGLA" | T_CCHC => "CCHC" | T_CLIP => "CLIP"
  | T_CLIR => "CLIR" | T_CMUT => "CMUT" | T_WSOS => "WSOS"
  | T_CSCA => "CSCA" | T_CSCB => "CSCB" | T_CMGS => "CMGS"
  | T_CMGW => "CMGW" | T_CMT => "CMT" | T_CDS => "CDS"
  | T_MBAU => "MBAU" | T_CTZV => "CTZV"
  end.

Definition makeParseErrorFor (T : Tag) : AtResponsePtr :=
  make (ParseError (id T)).

(** [std::holds_alternative<T>(value)] for a type with [id()] *)
Definition holds_alternative (T : Tag) (r : t) : bool :=
  match T, r with
  | T_CmeError, CmeError _ | T_CmsError, CmsError _ | T_CPIN, CPIN _
  | T_CPINR, CPINR _ _ | T_CRSM, CRSM _ _ _ | T_CFUN, CFUN _
  | T_CREG, CREG _ _ _ _ | T_CGREG, CGREG _ _ _ _
  | T_CEREG, CEREG _ _ _ _ | T_CTEC, CTEC _ | T_COPS, COPS _ _ _
  | T_WRMP, WRMP _ | T_CCSS, CCSS _ | T_CSQ, CSQ _ | T_CLCC, CLCC _
  | T_CCFCU, CCFCU _ | T_CCWA, CCWA _ _ | T_CGDCONT, CGDCONT _
  | T_CGCONTRDP, CGCONTRDP _ | T_CGFPCCFG, CGFPCCFG _ _ _ _ _
  | T_CUSATD, CUSATD _ _ | T_CUSATP, CUSATP _ | T_CUSATE, CUSATE _
  | T_CUSATT, CUSATT _ | T_CUSATEND, CUSATEND | T_CLCK, CLCK _
  | T_CSIM, CSIM _ | T_CGLA, CGLA _ | T_CCHC, CCHC | T_CLIP, CLIP _ _
  | T_CLIR, CLIR _ _ | T_CMUT, CMUT _ | T_WSOS, WSOS _
  | T_CSCA, CSCA _ _ | T_CSCB, CSCB _ _ _ | T_CMGS, CMGS _
  | T_CMGW, CMGW _ | T_CMT, CMT _ _ | T_CDS, CDS _ _ | T_MBAU, MBAU _
  | T_CTZV, CTZV _ => true
  | _, _ => false
  end.

Definition isOK (r : t) : bool := match r with OK => true | _ => false end.
Definition isERROR (r : t) : bool :=
  match r with ERROR => true | _ => false end.
Definition isParseError (r : t) : bool :=
  match r with ParseError _ => true | _ => false end.

(** [template <class T> bool holds() const] *)
Definition holds (T : Tag) (r : t) : bool :=
  if holds_alternative T r then true
  else match r with
       | ParseError cmd => String.eqb cmd (id T)
       | _ => false
       end.

(** The specialisations [holds<OK>], [holds<SmsPrompt>],
    [holds<std::string>] *)
Definition holds_OK (r : t) : bool :=
  match r with OK => true | _ => false end.
Definition holds_SmsPrompt (r : t) : bool :=
  match r with SmsPrompt => true | _ => false end.
Definition holds_string (r : t) : bool :=
  match r with Str _ => true | _ => false end.

(** *** The payload parsers

    A chained call [parser(&x).skip(',')(&y)] is written as successive
    [let]s over the parser state; a variable the source leaves
    uninitialised is given the value [0], which no path reads. *)

Definition CmeError_parse (str : string) : AtResponsePtr :=
  let err :=
    if String.eqb str "3" then OPERATION_NOT_ALLOWED
    else if String.eqb str "4" then REQUEST_NOT_SUPPORTED
    else if String.eqb str "10" then SIM_ABSENT
    else if String.eqb str "11" then SIM_PIN2
    else if String.eqb str "12" then SIM_PUK2
    else if String.eqb str "14" then SIM_BUSY
    else if String.eqb str "16" then PASSWORD_INCORRECT
    else if String.eqb str "20" then SIM_FULL
    else if String.eqb str "21" then INVALID_ARGUMENTS
    else if String.eqb str "22" then NO_SUCH_ELEMENT
    else if String.eqb str "27" then GENERIC_FAILURE
    else if String.eqb str "30" then NO_NETWORK_FOUND
    else if String.eqb str "32" then NETWORK_REJECT
    else if String.eqb str "50" then INVALID_ARGUMENTS
    else if String.eqb str "53" then NETWORK_REJECT
    else if String.eqb str "56" then GENERIC_FAILURE
    else GENERIC_FAILURE in
  make (CmeError err).

Definition CmsError_parse (str : string) : AtResponsePtr :=
  make (CmsError str).

Definition CPIN_parse (str : string) : AtResponsePtr :=
  if String.eqb str "READY" then make (CPIN READY)
  else if String.eqb str "SIM PIN" then make (CPIN PIN)
  else if String.eqb str "SIM PUK" then make (CPIN PUK)
  else makeParseErrorFor T_CPIN.

Definition CPINR_parse (str : string) : AtResponsePtr :=
  let p := Parser.make str in
  let '(p, unused) := Parser.view "," "" p in
  let '(p, remainingRetryTimes) := Parser.int (-1) p in
  let p := Parser.skip "," p in
  let '(p, maxRetryTimes) := Parser.int (-1) p in
  let p := Parser.skip "," p in
  if negb (Parser.fullMatch p) then makeParseErrorFor T_CPINR
  else make (CPINR remainingRetryTimes maxRetryTimes).

Definition CRSM_parse (str : string) : AtResponsePtr :=
  let p := Parser.make str in
  let '(p, sw1) := Parser.int (-1) p in
  let p := Parser.skip "," p in
  let '(p, sw2) := Parser.int (-1) p in
  if Parser.hasMore p then
    let p := Parser.skip "," p in
    if Parser.matchSoFar p then
      let '(p, response) := Parser.remaining p in
      make (CRSM response sw1 sw2)
    else makeParseErrorFor T_CRSM
  else if negb (Parser.fullMatch p) then makeParseErrorFor T_CRSM
  else make (CRSM "" sw1 sw2).

Definition CFUN_parse (str : string) : AtResponsePtr :=
  let p := Parser.make str in
  let '(p, state) := Parser.int 0 p in
  if Parser.fullMatch p then
    make (CFUN (if state =? 0 then RadioState_OFF else RadioState_ON))
  else makeParseErrorFor T_CFUN.

(** [CREG::parse], [CGREG::parse] and [CEREG::parse] are the same text
    three times, up to the struct they fill; [mkreg] is that struct's
    constructor and [T] its type. *)
Definition reg_parse (T : Tag) (mkreg : Z -> Z -> Z -> Z -> t)
    (str : string) : AtResponsePtr :=
  let p := Parser.make str in
  let fail := makeParseErrorFor T in
  match sv.count str "," with
  | 0%nat =>
      let '(p, state) := Parser.int 0 p in
      if Parser.fullMatch p then make (mkreg (-1) (-1) (-1) state) else fail
  | 1%nat =>
      let '(p, unsolMode) := Parser.int 0 p in
      let p := Parser.skip "," p in
      let '(p, state) := Parser.int 0 p in
      if Parser.fullMatch p then make (mkreg (-1) (-1) (-1) state) else fail
  | 3%nat =>
      let '(p, state) := Parser.int 0 p in
      let p := Parser.skip "," p in
      let p := Parser.skip kQuote p in
      let '(p, areaCodeHex) := Parser.view kQuote "" p in
      let p := Parser.skip "," p in
      let p := Parser.skip kQuote p in
      let '(p, cellIdHex) := Parser.view kQuote "" p in
      let p := Parser.skip "," p in
      let '(p, networkType) := Parser.int (-1) p in
      if Parser.fullMatch p then
        make (mkreg (from_chars_into areaCodeHex 16 (-1))
                    (from_chars_into cellIdHex 16 (-1))
                    networkType state)
      else fail
  | 4%nat =>
      let '(p, unsolMode) := Parser.int 0 p in
      let p := Parser.skip "," p in
      let '(p, state) := Parser.int 0 p in
      let p := Parser.skip "," p in
      let p := Parser.skip kQuote p in
      let '(p, areaCodeHex) := Parser.view kQuote "" p in
      let p := Parser.skip "," p in
      let p := Parser.skip kQuote p in
      let '(p, cellIdHex) := Parser.view kQuote "" p in
      let p := Parser.skip "," p in
      let '(p, networkType) := Parser.int (-1) p in
      if Parser.fullMatch p then
        make (mkreg (from_chars_into areaCodeHex 16 (-1))
                    (from_chars_into cellIdHex 16 (-1))
                    networkType state)
      else fail
  | _ => fail
  end.

Definition CREG_parse : string -> AtResponsePtr := reg_parse T_CREG CREG.
Definition CGREG_parse : string -> AtResponsePtr := reg_parse T_CGREG CGREG.
Definition CEREG_parse : string -> AtResponsePtr := reg_parse T_CEREG CEREG.

(** The pieces of [str] between its commas, which the [find] loop of
    [CTEC::parse] pushes one by one. *)
Fixpoint CTEC_values (str : string) : list string :=
  match str with
  | EmptyString => [EmptyString]
  | String c r =>
      if Ascii.eqb c "," then EmptyString :: CTEC_values r
      else match CTEC_values r with
           | h :: tl => String c h :: tl
           | [] => [String c EmptyString]
           end
  end.

Definition CTEC_parse (str : string) : AtResponsePtr :=
  make (CTEC (CTEC_values str)).

(** The [while (parser.matchSoFar())] loop of [COPS::parse] over the
    parenthesised operators; [None] is [goto err].  Every round consumes
    text, so [fuel] above the length of the input is never used up. *)
Fixpoint COPS_operators (fuel : nat) (p : Parser.t)
    (operators : list OperatorInfo) : option (list OperatorInfo) :=
  match fuel with
  | O => None
  | S fuel' =>
      if negb (Parser.matchSoFar p) then Some operators
      else
        let p := Parser.skip "(" p in
        let '(p, state) := Parser.int 0 p in
        let p := Parser.skip "," p in
        let '(p, longName) := Parser.str "," "" p in
        let '(p, shortName) := Parser.str "," "" p in
        let '(p, numeric) := Parser.str ")" "" p in
        if Parser.matchSoFar p then
          let operatorInfo :=
            {| oi_state := state; oi_longName := longName;
               oi_shortName := shortName; oi_numeric := numeric |} in
          let operators := (operators ++ [operatorInfo])%list in
          if Ascii.eqb (Parser.front p) "," then
            COPS_operators fuel' (Parser.skip "," p) operators
          else Some operators
        else None
  end.

Definition COPS_parse (str : string) : AtResponsePtr :=
  let err := makeParseErrorFor T_COPS in
  let p := Parser.make str in
  let p := Parser.skips "+COPS:" p in
  let p := Parser.skip " " p in
  if negb (Parser.hasMore p) then err
  else if Ascii.eqb (Parser.front p) "(" then
    match COPS_operators (S (String.length str)) p [] with
    | Some operators =>
        make (COPS operators "" NetworkSelectionMode_AUTOMATIC)
    | None => err
    end
  else
    let '(p, networkSelectionMode) := Parser.int 0 p in
    let p := Parser.skip "," p in
    let '(p, n) := Parser.int 0 p in
    let p := Parser.skip "," p in
    let '(p, s) := Parser.str kCR "" p in
    if negb (Parser.matchSoFar p) then err
    else if (n =? 2) && Parser.fullMatch p then
      make (COPS [] s networkSelectionMode)
    else if negb (n =? 0) then err
    else if String.eqb s "0" && Parser.fullMatch p then
      make (COPS [] "" networkSelectionMode)
    else
      let p := Parser.skips "+COPS:" p in
      let p := Parser.skip " " p in
      let p := Parser.skips "0,1," p in
      let '(p, shortName) := Parser.str kCR "" p in
      let p := Parser.skips "+COPS:" p in
      let p := Parser.skip " " p in
      let p := Parser.skips "0,2," p in
      let '(p, numeric) := Parser.str kCR "" p in
      if negb (Parser.fullMatch p) then err
      else
        make (COPS [ {| oi_state := OperatorInfo_State_CURRENT;
                        oi_longName := s; oi_shortName := shortName;
                        oi_numeric := numeric |} ]
                   "" NetworkSelectionMode_AUTOMATIC).

Definition WRMP_parse (str : string) : AtResponsePtr :=
  let p := Parser.make str in
  let '(p, cdmaRoamingPreference) := Parser.int 0 p in
  if negb (Parser.fullMatch p) then makeParseErrorFor T_WRMP
  else make (WRMP cdmaRoamingPreference).

Definition CCSS_parse (str : string) : AtResponsePtr :=
  let p := Parser.make str in
  let '(p, source) := Parser.int 0 p in
  if Parser.fullMatch p then make (CCSS source)
  else makeParseErrorFor T_CCSS.

(** [CSQ::kUnknown] is declared outside the sources at hand; it is the
    value the fields start from. *)
Definition kUnknown : Z := INT32_MAX.
Definition kMaxSize : nat := 22.

(** The [for (n = 1; parser.hasMore() && (n < kMaxSize); ++n)] loop;
    [k] is [kMaxSize - n] and [values] holds [values[0..n)]. *)
Fixpoint CSQ_values (k : nat) (p : Parser.t) (values : list Z)
  : option (Parser.t * list Z) :=
  match k with
  | O => Some (p, values)
  | S k' =>
      if Parser.hasMore p then
        let p := Parser.skip "," p in
        let '(p, v) := Parser.int 0 p in
        if negb (Parser.matchSoFar p) then None
        else CSQ_values k' p (values ++ [v])%list
      else Some (p, values)
  end.

(** The [switch (n)] with its fall-through cases: case 22 falls into
    case 14, that into case 13, that into case 12. *)
Definition CSQ_fill (values : list Z) : option CSQ_t :=
  let v i := nth i values 0 in
  let u := INT32_MAX in
  let n := List.length values in
  let in22 := Nat.eqb n 22 in
  let in14 := in22 || Nat.eqb n 14 in
  let in13 := in14 || Nat.eqb n 13 in
  let in12 := in13 || Nat.eqb n 12 in
  let known := negb (v 14%nat =? kUnknown) in
  if in12 then
    Some
      {| gsm_signalStrength := v 0%nat; gsm_bitErrorRate := v 1%nat;
         gsm_timingAdvance := u;
         cdma_dbm := v 2%nat; cdma_ecio := v 3%nat;
         evdo_dbm := v 4%nat; evdo_ecio := v 5%nat;
         evdo_signalNoiseRatio := v 6%nat;
         lte_signalStrength := v 7%nat; lte_rsrp := v 8%nat;
         lte_rsrq := v 9%nat; lte_rssnr := v 10%nat; lte_cqi := v 11%nat;
         lte_timingAdvance := if in13 then v 12%nat else u;
         lte_cqiTableIndex := u;
         tdscdma_signalStrength := u; tdscdma_bitErrorRate := u;
         tdscdma_rscp := if in14 then v 13%nat else u;
         wcdma_signalStrength := if in22 then v 14%nat else u;
         wcdma_bitErrorRate := if in22 then v 15%nat else u;
         wcdma_rscp := if in22 && known then 42 else u;
         wcdma_ecno := if in22 && known then 19 else u;
         nr_ssRsrp := if in22 then v 16%nat else u;
         nr_ssRsrq := if in22 then v 17%nat else u;
         nr_ssSinr := if in22 then v 18%nat else u;
         nr_csiRsrp := if in22 then v 19%nat else u;
         nr_csiRsrq := if in22 then v 20%nat else u;
         nr_csiSinr := if in22 then v 21%nat else u;
         nr_csiCqiTableIndex := u; nr_timingAdvance := u |}
  else None.

Definition CSQ_parse (str : string) : AtResponsePtr :=
  let err := makeParseErrorFor T_CSQ in
  let p := Parser.make str in
  let '(p, v0) := Parser.int 0 p in
  if negb (Parser.matchSoFar p) then err
  else
    match CSQ_values (kMaxSize - 1) p [v0] with
    | None => err
    | Some (p, values) =>
        if negb (Parser.fullMatch p) then err
        else match CSQ_fill values with
             | Some csq => make (CSQ csq)
             | None => err
             end
    end.

(** The [while (parser.hasMore())] loop of [CLCC::parse]; [None] is the
    failure return. *)
Fixpoint CLCC_calls (fuel : nat) (p : Parser.t) (calls : list Call)
  : option (list Call) :=
  match fuel with
  | O => None
  | S fuel' =>
      if Parser.hasMore p then
        let p := Parser.skips "+CLCC:" p in
        let p := Parser.skip " " p in
        let '(p, index) := Parser.int 0 p in
        let p := Parser.skip "," p in
        let '(p, dir) := Parser.int 0 p in
        let p := Parser.skip "," p in
        let '(p, state) := Parser.int 0 p in
        let p := Parser.skip "," p in
        let '(p, mode) := Parser.int 0 p in
        let p := Parser.skip "," p in
        let '(p, mpty) := Parser.int 0 p in
        let p := Parser.skip "," p in
        let '(p, number) := Parser.str "," "" p in
        let '(p, type) := Parser.int 0 p in
        let p := Parser.skip kCR p in
        if Parser.matchSoFar p then
          let call :=
            {| call_state := state; call_index := index; call_toa := type;
               call_isMpty := negb (mpty =? 0);
               call_isMT := negb (dir =? 0);
               call_isVoice := (mode =? 0);
               call_number := number |} in
          CLCC_calls fuel' p (calls ++ [call])%list
        else None
      else Some calls
  end.

Definition CLCC_parse (str : string) : AtResponsePtr :=
  match CLCC_calls (S (String.length str)) (Parser.make str) [] with
  | Some calls => make (CLCC calls)
  | None => makeParseErrorFor T_CLCC
  end.

Fixpoint CCFCU_infos (fuel : nat) (p : Parser.t)
    (infos : list CallForwardInfo) : option (list CallForwardInfo) :=
  match fuel with
  | O => None
  | S fuel' =>
      if Parser.hasMore p then
        let p := Parser.skips "+CCFCU:" p in
        let p := Parser.skip " " p in
        let '(p, status) := Parser.int 0 p in
        let p := Parser.skip "," p in
        let '(p, serviceClass) := Parser.int 0 p in
        let p := Parser.skip "," p in
        let '(p, numberType) := Parser.int 0 p in
        let p := Parser.skip "," p in
        let '(p, toa) := Parser.int 0 p in
        let p := Parser.skip "," p in
        let p := Parser.skip kQuote p in
        let '(p, number) := Parser.str kQuote "" p in
        if Parser.matchSoFar p then
          let c := Parser.front p in
          if Ascii.eqb c "," then
            let p := Parser.skip "," p in
            let '(p, ignore) := Parser.view "," "" p in
            let '(p, ignore) := Parser.view "," "" p in
            let '(p, ignore) := Parser.view "," "" p in
            let '(p, timeSeconds) := Parser.int 0 p in
            let p := Parser.skip kCR p in
            if negb (Parser.matchSoFar p) then None
            else
              CCFCU_infos fuel' p
                (infos ++ [ {| cfi_status := status;
                               cfi_serviceClass := serviceClass;
                               cfi_toa := toa; cfi_number := number;
                               cfi_timeSeconds := timeSeconds |} ])%list
          else if Ascii.eqb c kCR then
            let p := Parser.skip kCR p in
            CCFCU_infos fuel' p
              (infos ++ [ {| cfi_status := status;
                             cfi_serviceClass := serviceClass;
                             cfi_toa := toa; cfi_number := number;
                             cfi_timeSeconds := 0 |} ])%list
          else None
        else None
      else Some infos
  end.

Definition CCFCU_parse (str : string) : AtResponsePtr :=
  match CCFCU_infos (S (String.length str)) (Parser.make str) [] with
  | Some infos => make (CCFCU infos)
  | None => makeParseErrorFor T_CCFCU
  end.

Definition CCWA_parse (str : string) : AtResponsePtr :=
  let p := Parser.make str in
  let '(p, mode) := Parser.int 0 p in
  let p := Parser.skip "," p in
  let '(p, serviceClass) := Parser.int (-1) p in
  if Parser.fullMatch p then make (CCWA serviceClass (mode =? 1))
  else makeParseErrorFor T_CCWA.

(** Both numbers are read into [cusatd.a]. *)
Definition CUSATD_parse (str : string) : AtResponsePtr :=
  let p := Parser.make str in
  let '(p, a) := Parser.int 0 p in
  let p := Parser.skip "," p in
  let p := Parser.skip " " p in
  let '(p, a) := Parser.int a p in
  if Parser.fullMatch p then make (CUSATD a 0)
  else makeParseErrorFor T_CUSATD.

Definition CUSATP_parse (str : string) : AtResponsePtr :=
  make (CUSATP str).

Definition CUSATE_parse (str : string) : AtResponsePtr :=
  make (CUSATE str).

Definition CUSATT_parse (str : string) : AtResponsePtr :=
  let p := Parser.make str in
  let '(p, value) := Parser.int 0 p in
  if Parser.fullMatch p then make (CUSATT value)
  else makeParseErrorFor T_CUSATT.

Definition CUSATEND_parse (_ : string) : AtResponsePtr := make CUSATEND.

(** [str.front()] of an empty payload reads the byte that follows it, the
    line terminator the caller stopped at: the [default] case. *)
Definition CLCK_parse (str : string) : AtResponsePtr :=
  match sv.front str with
  | Some "0"%char => make (CLCK false)
  | Some "1"%char => make (CLCK true)
  | _ => makeParseErrorFor T_CLCK
  end.

Definition CSIM_parse (str : string) : AtResponsePtr :=
  let p := Parser.make str in
  let '(p, len) := Parser.int 0 p in
  let p := Parser.skip "," p in
  if Parser.matchSoFar p then
    let '(p, response) := Parser.remaining p in
    if len =? Z.of_nat (sv.size response) then make (CSIM response)
    else makeParseErrorFor T_CSIM
  else makeParseErrorFor T_CSIM.

Definition CGLA_parse (str : string) : AtResponsePtr :=
  let p := Parser.make str in
  let '(p, len) := Parser.int 0 p in
  let p := Parser.skip "," p in
  if Parser.matchSoFar p then
    let '(p, response) := Parser.remaining p in
    if len =? Z.of_nat (sv.size response) then make (CGLA response)
    else makeParseErrorFor T_CGLA
  else makeParseErrorFor T_CGLA.

Definition CCHC_parse (_ : string) : AtResponsePtr := make CCHC.

Definition CLIP_parse (str : string) : AtResponsePtr :=
  let p := Parser.make str in
  let '(p, enable) := Parser.int 0 p in
  let p := Parser.skip "," p in
  let '(p, status) := Parser.int 0 p in
  if Parser.fullMatch p then make (CLIP (negb (enable =? 0)) status)
  else makeParseErrorFor T_CLIP.

Definition CLIR_parse (str : string) : AtResponsePtr :=
  let p := Parser.make str in
  let '(p, n) := Parser.int 0 p in
  let p := Parser.skip "," p in
  let '(p, m) := Parser.int 0 p in
  if Parser.fullMatch p then make (CLIR n m)
  else makeParseErrorFor T_CLIR.

Definition CMUT_parse (str : string) : AtResponsePtr :=
  let p := Parser.make str in
  let '(p, on) := Parser.int 0 p in
  if Parser.fullMatch p then make (CMUT (negb (on =? 0)))
  else makeParseErrorFor T_CMUT.

Definition WSOS_parse (str : string) : AtResponsePtr :=
  let p := Parser.make str in
  let '(p, isEmergencyMode) := Parser.int 0 p in
  if Parser.fullMatch p then make (WSOS (negb (isEmergencyMode =? 0)))
  else makeParseErrorFor T_WSOS.

Definition CSCA_parse (str : string) : AtResponsePtr :=
  let p := Parser.make str in
  let '(p, sca) := Parser.str "," "" p in
  let '(p, tosca) := Parser.int (-1) p in
  if negb (Parser.fullMatch p) then makeParseErrorFor T_CSCA
  else make (CSCA sca tosca).

(** [CSCB::parseIds]; [None] is [std::nullopt].  A lone number followed
    by a comma is skipped without being pushed, as in the source. *)
Fixpoint CSCB_parseIds_loop (fuel : nat) (p : Parser.t)
    (ids : list Association) : option (list Association) :=
  match fuel with
  | O => None
  | S fuel' =>
      if Parser.hasMore p then
        let '(p, from) := Parser.int 0 p in
        if negb (Parser.matchSoFar p) then None
        else if Parser.fullMatch p then
          Some (ids ++ [ {| assoc_from := from; assoc_to := from |} ])%list
        else
          let c := Parser.front p in
          if Ascii.eqb c "-" then
            let p := Parser.skip "-" p in
            let '(p, to) := Parser.int 0 p in
            if negb (Parser.matchSoFar p) then None
            else
              let ids :=
                (ids ++ [ {| assoc_from := from; assoc_to := to |} ])%list in
              if Parser.fullMatch p then CSCB_parseIds_loop fuel' p ids
              else if Ascii.eqb (Parser.front p) "," then
                CSCB_parseIds_loop fuel' (Parser.skip "," p) ids
              else None
          else if Ascii.eqb c "," then
            CSCB_parseIds_loop fuel' (Parser.skip "," p) ids
          else None
      else Some ids
  end.

Definition CSCB_parseIds (str : string) : option (list Association) :=
  CSCB_parseIds_loop (S (String.length str)) (Parser.make str) [].

Definition CSCB_parse (str : string) : AtResponsePtr :=
  let fail := makeParseErrorFor T_CSCB in
  let p := Parser.make str in
  let '(p, mode) := Parser.int (-1) p in
  let p := Parser.skip "," p in
  let p := Parser.skip kQuote p in
  let '(p, serviceId) := Parser.view kQuote "" p in
  let p := Parser.skip "," p in
  let p := Parser.skip kQuote p in
  let '(p, codeScheme) := Parser.view kQuote "" p in
  if negb (Parser.fullMatch p) then fail
  else
    match CSCB_parseIds serviceId with
    | None => fail
    | Some serviceIds =>
        match CSCB_parseIds codeScheme with
        | None => fail
        | Some codeSchemes => make (CSCB serviceIds codeSchemes mode)
        end
    end.

Definition CMGS_parse (str : string) : AtResponsePtr :=
  let p := Parser.make str in
  let '(p, messageRef) := Parser.int (-1) p in
  if negb (Parser.fullMatch p) then makeParseErrorFor T_CMGS
  else make (CMGS messageRef).

(** The failure of [CMGW::parse] is [makeParseErrorFor<CMGS>()]. *)
Definition CMGW_parse (str : string) : AtResponsePtr :=
  let p := Parser.make str in
  let '(p, messageRef) := Parser.int (-1) p in
  if negb (Parser.fullMatch p) then makeParseErrorFor T_CMGS
  else make (CMGW messageRef).

Definition CMT_parse (str : string) : ParseResult :=
  let err := (-1, makeParseErrorFor T_CMT) in
  let p := Parser.make str in
  let '(p, something) := Parser.int (-1) p in
  let p := Parser.skip kCR p in
  if Parser.matchSoFar p then
    let '(p, strPdu) := Parser.str kCR "" p in
    if Parser.matchSoFar p then
      match hex2bin strPdu with
      | Some pdu => (Parser.consumed p, make (CMT pdu something))
      | None => err
      end
    else (0, None)
  else err.

Definition CDS_parse (str : string) : ParseResult :=
  let err := (-1, makeParseErrorFor T_CDS) in
  let p := Parser.make str in
  let '(p, pduSize) := Parser.int (-1) p in
  let p := Parser.skip kCR p in
  if Parser.matchSoFar p then
    let '(p, strPdu) := Parser.str kCR "" p in
    if Parser.matchSoFar p then
      match hex2bin strPdu with
      | Some pdu => (Parser.consumed p, make (CDS pdu pduSize))
      | None => err
      end
    else (0, None)
  else err.

Fixpoint CGDCONT_contexts (fuel : nat) (p : Parser.t)
    (contexts : list PdpContext) : option (list PdpContext) :=
  match fuel with
  | O => None
  | S fuel' =>
      if Parser.hasMore p then
        let p := Parser.skips "+CGDCONT:" p in
        let p := Parser.skip " " p in
        let '(p, index) := Parser.int (-1) p in
        let p := Parser.skip "," p in
        let p := Parser.skip kQuote p in
        let '(p, type) := Parser.str kQuote "" p in
        let p := Parser.skip "," p in
        let p := Parser.skip kQuote p in
        let '(p, apn) := Parser.str kQuote "" p in
        let p := Parser.skip "," p in
        let '(p, addr) := Parser.str "," "" p in
        let '(p, dComp) := Parser.int 0 p in
        let p := Parser.skip "," p in
        let '(p, hComp) := Parser.int 0 p in
        let p := Parser.skip " " p in
        if Parser.matchSoFar p then
          CGDCONT_contexts fuel' p
            (contexts ++ [ {| pdp_type := type; pdp_apn := apn;
                              pdp_addr := addr; pdp_index := index;
                              pdp_dComp := dComp; pdp_hComp := hComp |} ])%list
        else None
      else Some contexts
  end.

Definition CGDCONT_parse (str : string) : AtResponsePtr :=
  match CGDCONT_contexts (S (String.length str)) (Parser.make str) [] with
  | Some contexts => make (CGDCONT contexts)
  | None => makeParseErrorFor T_CGDCONT
  end.

Definition CGCONTRDP_parse (str : string) : AtResponsePtr :=
  let p := Parser.make str in
  let '(p, cid) := Parser.int (-1) p in
  let p := Parser.skip "," p in
  let '(p, bearer) := Parser.int (-1) p in
  let p := Parser.skip "," p in
  let p := Parser.skip kQuote p in
  let '(p, apn) := Parser.str kQuote "" p in
  let p := Parser.skip "," p in
  let '(p, localAddr) := Parser.view "," "" p in
  let '(p, gwAddr) := Parser.str "," "" p in
  if Parser.matchSoFar p then
    let '(p, dns1) := Parser.remainingAsString p in
    let lp := Parser.make localAddr in
    let '(lp, addr) := Parser.str "/" "" lp in
    let '(lp, addrSize) := Parser.int 0 lp in
    let '(addr, addrSize) :=
      if negb (Parser.fullMatch lp) then (localAddr, 0)
      else (addr, addrSize) in
    make (CGCONTRDP
            {| rdp_apn := apn; rdp_localAddr := addr; rdp_gwAddr := gwAddr;
               rdp_dns1 := dns1; rdp_dns2 := ""; rdp_cid := cid;
               rdp_bearer := bearer; rdp_localAddrSize := addrSize |})
  else makeParseErrorFor T_CGCONTRDP.

Definition CGFPCCFG_parse (str : string) : AtResponsePtr :=
  let p := Parser.make str in
  let '(p, status) := Parser.int 0 p in
  let p := Parser.skip "," p in
  let '(p, bandwidth) := Parser.int (-1) p in
  let p := Parser.skip "," p in
  let '(p, mtech) := Parser.int 0 p in
  let p := Parser.skip "," p in
  let '(p, freq) := Parser.int (-1) p in
  let p := Parser.skip "," p in
  let '(p, contextId) := Parser.int (-1) p in
  if negb (Parser.fullMatch p) then makeParseErrorFor T_CGFPCCFG
  else make (CGFPCCFG status mtech contextId bandwidth freq).

Definition MBAU_parse (str : string) : AtResponsePtr :=
  let failed := makeParseErrorFor T_MBAU in
  let p := Parser.make str in
  let finish (status : Z) (kc sres ck ik resAuts : string) :=
    match hex2bin kc, hex2bin sres, hex2bin ck, hex2bin ik,
          hex2bin resAuts with
    | Some kc', Some sres', Some ck', Some ik', Some resAuts' =>
        make (MBAU {| mbau_kc := kc'; mbau_sres := sres'; mbau_ck := ck';
                      mbau_ik := ik'; mbau_resAuts := resAuts';
                      mbau_status := status |})
    | _, _, _, _, _ => failed
    end in
  match sv.count str "," with
  | 0%nat =>
      let '(p, status) := Parser.int 0 p in
      if negb (Parser.fullMatch p) then failed
      else finish status "" "" "" "" ""
  | 2%nat =>
      let '(p, status) := Parser.int 0 p in
      let p := Parser.skip "," p in
      let '(p, kc) := Parser.view "," "" p in
      if Parser.matchSoFar p then
        let '(p, sres) := Parser.remaining p in
        finish status kc sres "" "" ""
      else failed
  | 5%nat =>
      let '(p, status) := Parser.int 0 p in
      let p := Parser.skip "," p in
      let '(p, kc) := Parser.view "," "" p in
      let '(p, sres) := Parser.view "," "" p in
      let '(p, ck) := Parser.view "," "" p in
      let '(p, ik) := Parser.view "," "" p in
      if Parser.matchSoFar p then
        let '(p, resAuts) := Parser.remaining p in
        finish status kc sres ck ik resAuts
      else failed
  | _ => failed
  end.

Definition CTZV_parse (str : string) : AtResponsePtr :=
  let p := Parser.make str in
  let p := Parser.skip " " p in
  let '(p, yy) := Parser.int 0 p in
  let p := Parser.skip "/" p in
  let '(p, month) := Parser.int 0 p in
  let p := Parser.skip "/" p in
  let '(p, day) := Parser.int 0 p in
  let p := Parser.skip ":" p in
  let '(p, hh) := Parser.int 0 p in
  let p := Parser.skip ":" p in
  let '(p, mm) := Parser.int 0 p in
  let p := Parser.skip ":" p in
  let '(p, ss) := Parser.int 0 p in
  let '(p, tzSign) := Parser.char "000" p in
  let '(p, tzOffset15m) := Parser.int 0 p in
  let p := Parser.skip ":" p in
  let '(p, daylight) := Parser.char "000" p in
  let p := Parser.skip ":" p in
  if negb (Parser.matchSoFar p) then makeParseErrorFor T_CTZV
  else
    let finish (tzOffset15m : Z) :=
      let '(p, name) := Parser.remaining p in
      make (CTZV {| tzName := name;
                    year := wrap_u16 (yy + 2000);
                    month := wrap_u8 month;
                    day := wrap_u8 day;
                    hour := wrap_u8 hh mod 2 ^ 7;
                    isDaylightSaving :=
                      if Ascii.eqb daylight "0" then 0 else 1;
                    minute := wrap_u8 mm;
                    second := wrap_u8 ss;
                    tzOffset15m := wrap_i8 tzOffset15m |}) in
    if Ascii.eqb tzSign "+" then finish tzOffset15m
    else if Ascii.eqb tzSign "-" then finish (wrap32 (- tzOffset15m))
    else makeParseErrorFor T_CTZV.

(** *** [parseCmds] and [AtResponse::parse] *)

Record ValueParser := {
  cmd : string;
  parse_fn : string -> AtResponsePtr;
  multiline : bool
}.

(** What [parseCmds] does once entry [vp] has matched and [skipSize] is
    known: find where the payload ends, hand it to the entry's parser. *)
Definition parseCmds_payload (str : string) (vp : ValueParser)
    (skipSize : nat) : ParseResult :=
  if multiline vp then
    match sv.find str krOKr skipSize with
    | Some payloadEnd =>
        (* keep '+CMD:' and add extra '\r' to keep lines consistent *)
        let payload := sv.substr str 0 (payloadEnd + 1) in
        let consumed := int_of_size (payloadEnd + sv.size krOKr) in
        (consumed, parse_fn vp payload)
    | None => (0, None)
    end
  else
    match sv.find_char str kCR skipSize with
    | Some payloadEnd =>
        let payload :=
          ltrim (sv.substr str skipSize (payloadEnd - skipSize)) in
        let consumed := int_of_size (payloadEnd + 1) in
        (consumed, parse_fn vp payload)
    | None => (0, None)
    end.

(** The [for (; vp != vpEnd; ++vp)] loop and what follows it. *)
Fixpoint parseCmds_from (str str1 : string) (vps : list ValueParser)
    (maybeIncomplete : bool) : ParseResult :=
  match vps with
  | [] => if maybeIncomplete then (0, None) else (-1, None)
  | vp :: vps' =>
      if sv.starts_with str1 (cmd vp) then
        if (sv.size str1 <=? sv.size (cmd vp))%nat then
          parseCmds_from str str1 vps' true
        else
          match String.get (sv.size (cmd vp)) str1 with
          | Some c =>
              if Ascii.eqb c ":" then     (* `+CMD:` *)
                parseCmds_payload str vp (1 + sv.size (cmd vp) + 1)
              else if Ascii.eqb c kCR then  (* `+CMD` *)
                parseCmds_payload str vp (1 + sv.size (cmd vp))
              else parseCmds_from str str1 vps' maybeIncomplete
          | None => parseCmds_from str str1 vps' maybeIncomplete
          end
      else parseCmds_from str str1 vps' maybeIncomplete
  end.

Definition parseCmds (str : string) (vps : list ValueParser)
  : ParseResult :=
  let str1 := sv.substr_from str 1 in  (* skip + or % *)
  parseCmds_from str str1 vps false.

Definition CMD (T : Tag) (f : string -> AtResponsePtr) (ml : bool)
  : ValueParser :=
  {| cmd := id T; parse_fn := f; multiline := ml |}.

Definition plusValueParsers : list ValueParser :=
  [ CMD T_CPIN CPIN_parse false;
    CMD T_CPINR CPINR_parse false;
    CMD T_CRSM CRSM_parse false;
    CMD T_CFUN CFUN_parse false;
    CMD T_CREG CREG_parse false;
    CMD T_CEREG CEREG_parse false;
    CMD T_CGREG CGREG_parse false;
    CMD T_CTEC CTEC_parse false;
    CMD T_COPS COPS_parse true;
    CMD T_WRMP WRMP_parse false;
    CMD T_CCSS CCSS_parse false;
    CMD T_CSQ CSQ_parse false;
    CMD T_CLCC CLCC_parse true;
    CMD T_CCFCU CCFCU_parse true;
    CMD T_CCWA CCWA_parse false;
    CMD T_CUSATD CUSATD_parse false;
    CMD T_CUSATP CUSATP_parse false;
    CMD T_CUSATE CUSATE_parse false;
    CMD T_CUSATT CUSATT_parse false;
    CMD T_CUSATEND CUSATEND_parse false;
    CMD T_CGDCONT CGDCONT_parse true;
    CMD T_CGCONTRDP CGCONTRDP_parse false;
    CMD T_CLCK CLCK_parse false;
    CMD T_CSIM CSIM_parse false;
    CMD T_CCHC CCHC_parse false;
    CMD T_CLIP CLIP_parse false;
    CMD T_CLIR CLIR_parse false;
    CMD T_CMUT CMUT_parse false;
    CMD T_WSOS WSOS_parse false;
    CMD T_CSCA CSCA_parse false;
    CMD T_CSCB CSCB_parse false;
    CMD T_CMGS CMGS_parse false;
    CMD T_CMGW CMGW_parse false;
    CMD T_CmeError CmeError_parse false;
    CMD T_CmsError CmsError_parse false ].

Definition percentValueParsers : list ValueParser :=
  [ CMD T_CTZV CTZV_parse false;
    CMD T_CGFPCCFG CGFPCCFG_parse false ].

Definition caretValueParsers : list ValueParser :=
  [ CMD T_MBAU MBAU_parse false ].

Definition kRING : string := "RING" ++ CR.
Definition kCMT : string := "+CMT:".
Definition kCDS : string := "+CDS:".
Definition kSmsPrompt : string := "> " ++ CR.
Definition kOKr : string := "OK" ++ CR.
Definition kERRORr : string := "ERROR" ++ CR.

(** The body of [AtResponse::parse] over its three tables.  [str.front()]
    of an empty [str] is outside what the callers pass; it selects no
    [case] here. *)
Definition parse_tables (plus percent caret : list ValueParser)
    (str : string) : ParseResult :=
  if sv.starts_with str kRING then
    (int_of_size (sv.size kRING), make RING)
  else if sv.starts_with str kCMT then
    let trimmed := ltrim (sv.substr_from str (sv.size kCMT)) in
    let '(consumed, response) := CMT_parse trimmed in
    if consumed >? 0 then
      (wrap32 (consumed + Z.of_nat (sv.size str)
               - Z.of_nat (sv.size trimmed)), response)
    else (consumed, None)
  else if sv.starts_with str kCDS then
    let trimmed := ltrim (sv.substr_from str (sv.size kCDS)) in
    let '(consumed, response) := CDS_parse trimmed in
    if consumed >? 0 then
      (wrap32 (consumed + Z.of_nat (sv.size str)
               - Z.of_nat (sv.size trimmed)), response)
    else (consumed, None)
  else
    match sv.front str with
    | Some "+"%char => parseCmds str plus
    | Some "%"%char => parseCmds str percent
    | Some "^"%char => parseCmds str caret
    | _ =>
        if sv.starts_with str kSmsPrompt then
          (int_of_size (sv.size kSmsPrompt), make SmsPrompt)
        else if sv.starts_with str kOKr then
          (int_of_size (sv.size kOKr), make OK)
        else if sv.starts_with str kERRORr then
          (int_of_size (sv.size kERRORr), make ERROR)
        else
          match sv.find str krOKr 0 with
          | Some pos =>
              (int_of_size (pos + sv.size krOKr),
               make (Str (sv.substr str 0 pos)))
          | None => (0, None)
          end
    end.

(** [AtResponse::parse] *)
Definition parse (str : string) : ParseResult :=
  parse_tables plusValueParsers percentValueParsers caretValueParsers str.

(** [AtResponse::what()]: the visit with [CmdIdVisitor] *)
Definition what (r : t) : string :=
  match r with
  | OK => "OK"
  | ERROR => "ERROR"
  | RING => "RING"
  | SmsPrompt => "SmsPrompt"
  | ParseError _ => "ParseError"
  | Str _ => "string"
  | CmeError _ => id T_CmeError
  | CmsError _ => id T_CmsError
  | CPIN _ => id T_CPIN
  | CPINR _ _ => id T_CPINR
  | CRSM _ _ _ => id T_CRSM
  | CFUN _ => id T_CFUN
  | CREG _ _ _ _ => id T_CREG
  | CEREG _ _ _ _ => id T_CEREG
  | CGREG _ _ _ _ => id T_CGREG
  | CTEC _ => id T_CTEC
  | COPS _ _ _ => id T_COPS
  | WRMP _ => id T_WRMP
  | CCSS _ => id T_CCSS
  | CSQ _ => id T_CSQ
  | CLCC _ => id T_CLCC
  | CCFCU _ => id T_CCFCU
  | CCWA _ _ => id T_CCWA
  | CGDCONT _ => id T_CGDCONT
  | CGCONTRDP _ => id T_CGCONTRDP
  | CGFPCCFG _ _ _ _ _ => id T_CGFPCCFG
  | CUSATD _ _ => id T_CUSATD
  | CUSATP _ => id T_CUSATP
  | CUSATE _ => id T_CUSATE
  | CUSATT _ => id T_CUSATT
  | CUSATEND => id T_CUSATEND
  | CLCK _ => id T_CLCK
  | CSIM _ => id T_CSIM
  | CGLA _ => id T_CGLA
  | CCHC => id T_CCHC
  | CLIP _ _ => id T_CLIP
  | CLIR _ _ => id T_CLIR
  | CMUT _ => id T_CMUT
  | WSOS _ => id T_WSOS
  | CSCA _ _ => id T_CSCA
  | CSCB _ _ _ => id T_CSCB
  | CMGS _ => id T_CMGS
  | CMGW _ => id T_CMGW
  | CMT _ _ => id T_CMT
  | CDS _ _ => id T_CDS
  | MBAU _ => id T_MBAU
  | CTZV _ => id T_CTZV
  end.

(** [CTEC::isDONE] *)
Definition CTEC_isDONE (values : list string) : bool :=
  match values with
  | [v] => String.eqb v "DONE"
  | _ => false
  end.

(** The [for] loop of [CTEC::getCurrentModemTechnology], from [i] on and
    for [n] more technologies: the first one whose bit is set in [mtech]. *)
Fixpoint first_set_from (mtech i : Z) (n : nat) : option Z :=
  match n with
  | O => None
  | S n' =>
      if Z.testbit mtech i then Some i else first_set_from mtech (i + 1) n'
  end.

(** [CTEC::getCurrentModemTechnology]; [None] is [std::nullopt], [Some i]
    the [ModemTechnology] of value [i]. *)
Definition CTEC_getCurrentModemTechnology (values : list string)
  : option Z :=
  match values with
  | [] => None
  | v0 :: _ =>
      if (2 <? List.length values)%nat || CTEC_isDONE values then None
      else
        let r := from_chars v0 10 in
        match fc_ec r with
        | errc_ok =>
            if sv.empty (fc_rest r) then
              first_set_from (fc_value r) ratUtils.ModemTechnology.GSM 7
            else None
        | _ => None
        end
  end.

End AtResponse.


(** ** [struct AtChannel]: the conversation and the reader's fan-out *)

Module AtChannel.

Definition FilterFunc := AtResponse.t -> bool.

(** The shared state of [std::promise<AtResponsePtr>]: no value yet, or
    the value set.  [set_value] on a satisfied promise throws
    [std::future_error]: [None]. *)
Inductive promise := Pending | Ready (v : AtResponse.AtResponsePtr).

Definition set_value (p : promise) (v : AtResponse.AtResponsePtr)
  : option promise :=
  match p with
  | Pending => Some (Ready v)
  | Ready _ => None
  end.

(** [struct Conversation]: [mFilter = None] is the null pointer, the
    disarmed slot. *)
Record Conversation := {
  mFilter : option FilterFunc;
  mSink : promise
}.

Definition Conversation_init : Conversation :=
  {| mFilter := None; mSink := Pending |}.

(** [Conversation::send], under [mMtx]: the returned flag and the new
    state, or [None] when [set_value] throws. *)
Definition send (c : Conversation) (response : AtResponse.t)
  : option (bool * Conversation) :=
  match mFilter c with
  | Some filter =>
      if filter response then
        match set_value (mSink c) (Some response) with
        | Some sink => Some (true, {| mFilter := None; mSink := sink |})
        | None => None
        end
      else Some (false, c)
  | None => Some (false, c)
  end.

(** The first critical section of [operator()]: arm the filter and start
    from a fresh promise. *)
Definition arm (filter : FilterFunc) (c : Conversation) : Conversation :=
  {| mFilter := Some filter; mSink := Pending |}.

(** [mFilter = nullptr] under the lock *)
Definition disarm (c : Conversation) : Conversation :=
  {| mFilter := None; mSink := mSink c |}.

(** The reader worker calling [send] for each of [rs] in turn: the flags
    returned and the final state. *)
Fixpoint deliver (c : Conversation) (rs : list AtResponse.t)
  : option (list bool * Conversation) :=
  match rs with
  | [] => Some ([], c)
  | r :: rs' =>
      match send c r with
      | Some (b, c') =>
          match deliver c' rs' with
          | Some (bs, c'') => Some (b :: bs, c'')
          | None => None
          end
      | None => None
      end
  end.

(** What the request worker does and sees inside [operator()]. *)
Inductive event :=
| EvTransmit (request : string) (ok : bool)   (* [requestPipe(request)] *)
| EvWait (ready : bool)                       (* [futureResponse.wait_for] *)
| EvLog (msg : string).                       (* [RLOGE] of [FAILURE_V] *)

(** The other side of one call of [operator()]: what
    [requestPipe(request)] returned, and which responses the reader worker
    delivers to this conversation while the request is written, while
    [wait_for] blocks, and between a time-out and the lock taken after it.
    A [requestPipe] that does not return has no [pipe_ok]: the call is not
    one [call] describes; [call_over_pipe] below brings the writes in. *)
Record Env := {
  pipe_ok : bool;
  before_wait : list AtResponse.t;
  during_wait : list AtResponse.t;
  after_timeout : list AtResponse.t
}.

Definition timeout_msg (request : string) : string :=
  "Timeout for '" ++ request ++ "'".

(** [Conversation::operator()(requestPipe, request, filter, timeout)]:
    the response returned, the conversation left behind and the events on
    the calling worker.  The critical sections are atomic under [mMtx],
    so the reader's deliveries fall between them. *)
Definition call (c : Conversation) (request : string) (filter : FilterFunc)
    (env : Env)
  : option (AtResponse.AtResponsePtr * Conversation * list event) :=
  let c := arm filter c in
  match deliver c (before_wait env) with
  | None => None
  | Some (_, c) =>
      if negb (pipe_ok env) then
        Some (None, disarm c, [EvTransmit request false])
      else
        match deliver c (during_wait env) with
        | None => None
        | Some (_, c) =>
            match mSink c with
            | Ready v =>
                Some (v, c, [EvTransmit request true; EvWait true])
            | Pending =>
                match deliver c (after_timeout env) with
                | None => None
                | Some (_, c) =>
                    Some (None, disarm c,
                          [EvTransmit request true; EvWait false;
                           EvLog (timeout_msg request)])
                end
            end
        end
  end.

(** A [ResponseSink]: a closure, named here by [sink_name] so that a
    delivery can be told from another; [sink_fn] is what it returns. *)
Record ResponseSink := {
  sink_name : nat;
  sink_fn : AtResponse.t -> bool
}.

Record t := {
  mConversation : Conversation;
  mResponseSinks : list ResponseSink
}.

Definition addResponseSink (sink : ResponseSink) (ch : t) : t :=
  {| mConversation := mConversation ch;
     mResponseSinks := (mResponseSinks ch ++ [sink])%list |}.

(** [AtChannel::broadcastResponse]: the channel afterwards and the calls
    made to the sinks, in order.  The flag [send] returns is dropped. *)
Definition broadcastResponse (ch : t) (response : AtResponse.t)
  : option (t * list (nat * AtResponse.t)) :=
  match send (mConversation ch) response with
  | None => None
  | Some (_, c) =>
      let calls :=
        map (fun sink => (sink_name sink, response)) (mResponseSinks ch) in
      let kept :=
        filter (fun sink => sink_fn sink response) (mResponseSinks ch) in
      Some ({| mConversation := c; mResponseSinks := kept |}, calls)
  end.

(** [AtChannel::receiveOneResponse] on the bytes [begin, end): the offset
    of [next] from [begin] ([None] is [nullptr]), the channel and the
    calls made to the sinks. *)
Definition receiveOneResponse (ch : t) (buf : string)
  : option (option nat * t * list (nat * AtResponse.t)) :=
  match buf with
  | String c _ =>
      if Ascii.eqb c kCR || Ascii.eqb c kLF then Some (Some 1%nat, ch, [])
      else
        let '(consumed, response) := AtResponse.parse buf in
        let next :=
          if consumed >=? 0 then Some (Z.to_nat consumed) else None in
        match response with
        | Some r =>
            match broadcastResponse ch r with
            | Some (ch', calls) => Some (next, ch', calls)
            | None => None
            end
        | None => Some (next, ch, [])
        end
  | EmptyString => Some (Some 0%nat, ch, [])
  end.

(** [AtChannel::receiveResponsesImpl] on the bytes of [buf]: the returned
    flag, what [unconsumed] is assigned ([None] where it is left as it
    was), the channel and the calls made to the sinks.  Each round but
    the last moves [begin] forward, so [fuel] above the length of [buf]
    is never used up. *)
Fixpoint receiveResponsesImpl_from (fuel : nat) (ch : t) (buf : string)
  : option (bool * option string * t * list (nat * AtResponse.t)) :=
  match fuel with
  | O => None
  | S fuel' =>
      match buf with
      | EmptyString => Some (true, Some EmptyString, ch, [])
      | _ =>
          match receiveOneResponse ch buf with
          | None => None
          | Some (None, ch', calls) => Some (false, None, ch', calls)
          | Some (Some O, ch', calls) => Some (true, Some buf, ch', calls)
          | Some (Some n, ch', calls) =>
              match receiveResponsesImpl_from fuel' ch'
                      (sv.substr_from buf n) with
              | Some (ok, rest, ch'', calls') =>
                  Some (ok, rest, ch'', (calls ++ calls')%list)
              | None => None
              end
          end
      end
  end.

Definition receiveResponsesImpl (ch : t) (buf : string) :=
  receiveResponsesImpl_from (S (String.length buf)) ch buf.

(** What one [::write] on the pipe does: takes up to [room] of the bytes
    offered ([Wrote], the call returning how many it took), is interrupted
    ([Eintr]) or fails with another [errno] ([Failed]). *)
Inductive write_result :=
| Wrote (room : nat)
| Eintr
| Failed (errno : positive).

(** [sendRequestImpl(fd, data, size)] against the successive results [env]
    of [::write]: the value returned, the bytes that went out and the
    results not used.  [None]: [env] ends while bytes are left, the call
    is still in its loop. *)
Fixpoint sendRequestImpl (env : list write_result) (data : string)
  : option (Z * string * list write_result) :=
  match data with
  | EmptyString => Some (0, EmptyString, env)
  | _ =>
      match env with
      | [] => None
      | Wrote room :: env' =>
          let written := Nat.min room (String.length data) in
          match sendRequestImpl env' (sv.substr_from data written) with
          | Some (err, sent, rest) =>
              Some (err, sv.substr data 0 written ++ sent, rest)
          | None => None
          end
      | Eintr :: env' => sendRequestImpl env' data
      | Failed errno :: env' => Some (Z.pos errno, EmptyString, env')
      end
  end.

(** [RequestPipe::operator()]: the flag returned, the bytes that went out
    and the results of [::write] not used. *)
Definition RequestPipe_call (env : list write_result) (request : string)
  : option (bool * string * list write_result) :=
  match sendRequestImpl env request with
  | None => None
  | Some (err, sent, env') =>
      if err =? 0 then
        match sendRequestImpl env' CR with
        | None => None
        | Some (err', sent', env'') => Some (err' =? 0, sent ++ sent', env'')
        end
      else Some (false, sent, env')
  end.

(** How a call of [Conversation::operator()] comes out when its
    [requestPipe] is a [RequestPipe]. *)
Inductive call_outcome :=
| StillWriting   (* [requestPipe(request)] has not returned *)
| Threw          (* [set_value] on a promise that has its value *)
| Returned (response : AtResponse.AtResponsePtr) (c : Conversation)
           (events : list event).

(** [Conversation::operator()] with a [RequestPipe] for [requestPipe],
    against the results [writes] of [::write] and the responses the reader
    delivers. *)
Definition call_over_pipe (c : Conversation) (request : string)
    (filter : FilterFunc) (writes : list write_result)
    (before during after : list AtResponse.t) : call_outcome :=
  match RequestPipe_call writes request with
  | None => StillWriting
  | Some (ok, _, _) =>
      match call c request filter
              {| pipe_ok := ok; before_wait := before;
                 during_wait := during; after_timeout := after |} with
      | Some (response, c', events) => Returned response c' events
      | None => Threw
      end
  end.

(** [broadcastResponse] for each of [rs] in turn. *)
Fixpoint broadcastResponses (ch : t) (rs : list AtResponse.t)
  : option (t * list (nat * AtResponse.t)) :=
  match rs with
  | [] => Some (ch, [])
  | r :: rs' =>
      match broadcastResponse ch r with
      | None => None
      | Some (ch', calls) =>
          match broadcastResponses ch' rs' with
          | Some (ch'', calls') => Some (ch'', (calls ++ calls')%list)
          | None => None
          end
      end
  end.

(** A [Requester], named by [requester_name]; what it returns may depend
    on the handle it is given. *)
Record Requester := {
  requester_name : nat;
  requester_fn : nat -> bool
}.

(** What the request worker does, in order. *)
Inductive request_event :=
| EvOpen (fd : nat)             (* [mHostChannelFactory()] gave [fd] *)
| EvInit (fd : nat)             (* [mInitSequence] ran on [fd] *)
| EvRun (name fd : nat) (ok : bool)  (* a requester ran on [fd], returned [ok] *)
| EvReset                       (* [mHostChannel.reset()] *)
| EvFatal                       (* [LOG_ALWAYS_FATAL_IF] fired *)
| EvJoin                        (* the worker is in [mReaderThread.join()] *)
| EvBlocked.                    (* [getRequester] waits on an empty queue *)

(** The request worker against what the queue holds ([None] is the empty
    [Requester] the destructor queues), the handles the factory returns in
    turn ([None]: not [ok()]) and the results of the init sequence in
    turn.  [hostChannel] is [mHostChannel]: the handle while it is [ok()];
    [reader] is [mReaderThread.joinable()].  The factory and the init
    sequence are consulted once per opening; a missing entry counts as a
    failure.

    [getHostChannelPipe] on a channel that is not [ok()] first joins the
    reader thread when there is one.  The reader runs [readingLoop], which
    ends only in [LOG_ALWAYS_FATAL]: the [join] does not return, and the
    worker does nothing after it. *)
Fixpoint requestLoop (queue : list (option Requester))
    (hostChannel : option nat) (reader : bool)
    (factory : list (option nat)) (inits : list bool)
  : list request_event :=
  match queue with
  | [] => [EvBlocked]
  | None :: _ => [EvReset]
  | Some requester :: queue' =>
      match hostChannel with
      | Some fd =>
          if requester_fn requester fd then
            EvRun (requester_name requester) fd true
              :: requestLoop queue' (Some fd) reader factory inits
          else
            EvRun (requester_name requester) fd false :: EvReset
              :: requestLoop queue' None reader factory inits
      | None =>
          if reader then [EvJoin]
          else
            match factory with
            | Some fd :: factory' =>
                match inits with
                | true :: inits' =>
                    if requester_fn requester fd then
                      EvOpen fd :: EvInit fd
                        :: EvRun (requester_name requester) fd true
                        :: requestLoop queue' (Some fd) true factory' inits'
                    else
                      EvOpen fd :: EvInit fd
                        :: EvRun (requester_name requester) fd false
                        :: EvReset
                        :: requestLoop queue' None true factory' inits'
                | _ => [EvOpen fd; EvInit fd; EvFatal]
                end
            | _ => [EvFatal]
            end
      end
  end.

(** The worker as the constructor starts it: no channel, no reader. *)
Definition requestLoop_from_start (queue : list (option Requester))
    (factory : list (option nat)) (inits : list bool)
  : list request_event :=
  requestLoop queue None false factory inits.

End AtChannel.

(** ** [struct IdAllocator] *)

Module IdAllocator.

(** [mReturnedIds] is a [std::set<int32_t, std::greater<int32_t>>]: its
    elements in iteration order, greatest first, without repetition. *)
Record t := {
  mReturnedIds : list Z;
  mIdGenerator : Z
}.

Definition init : t := {| mReturnedIds := []; mIdGenerator := 0 |}.

(** [std::set::insert] under [std::greater] *)
Fixpoint set_insert (id : Z) (ids : list Z) : list Z :=
  match ids with
  | [] => [id]
  | x :: rest =>
      if id >? x then id :: ids
      else if id =? x then ids
      else x :: set_insert id rest
  end.

(** [get()]: [rbegin()] is the last element in iteration order. *)
Definition get (a : t) : Z * t :=
  match rev (mReturnedIds a) with
  | [] =>
      let g := wrap32 (mIdGenerator a + 1) in
      (g, {| mReturnedIds := mReturnedIds a; mIdGenerator := g |})
  | id :: _ =>
      (id, {| mReturnedIds := removelast (mReturnedIds a);
              mIdGenerator := mIdGenerator a |})
  end.

(** The [while] loop of [put]: drop from the front while the front is
    the counter, counting down. *)
Fixpoint compact (ids : list Z) (gen : Z) : list Z * Z :=
  match ids with
  | i :: rest =>
      if i =? gen then compact rest (wrap32 (gen - 1)) else (ids, gen)
  | [] => ([], gen)
  end.

Definition put (id : Z) (a : t) : t :=
  if id =? mIdGenerator a then
    let '(ids, gen) :=
      compact (mReturnedIds a) (wrap32 (mIdGenerator a - 1)) in
    {| mReturnedIds := ids; mIdGenerator := gen |}
  else
    {| mReturnedIds := set_insert id (mReturnedIds a);
       mIdGenerator := mIdGenerator a |}.

(** A client of the allocator: the allocator and the ids it has handed
    out and not got back. *)
Inductive op := Get | Put (id : Z).

Definition step (o : op) (st : t * list Z) : t * list Z :=
  let '(a, out) := st in
  match o with
  | Get => let '(id, a') := get a in (a', id :: out)
  | Put id => (put id a, remove Z.eq_dec id out)
  end.

Definition run (ops : list op) : t * list Z :=
  fold_left (fun st o => step o st) ops (init, []).

(** The use the allocator is made for: [put] only gives back an id that
    is out, and the counter is not asked to go past [INT32_MAX]. *)
Definition op_ok (o : op) (st : t * list Z) : bool :=
  let '(a, out) := st in
  match o with
  | Get =>
      match mReturnedIds a with
      | [] => mIdGenerator a <? INT32_MAX
      | _ => true
      end
  | Put id => if in_dec Z.eq_dec id out then true else false
  end.

Fixpoint ops_ok_from (ops : list op) (st : t * list Z) : bool :=
  match ops with
  | [] => true
  | o :: ops' => op_ok o st && ops_ok_from ops' (step o st)
  end.

Definition ops_ok (ops : list op) : bool := ops_ok_from ops (init, []).

End IdAllocator.


(** * Notions used in the statements *)

Import AtResponse.

(** The inputs of the worked examples. *)
Definition NOTREAL_line : string := "+NOTREAL:x" ++ CR.
Definition CSQ_line : string := "+CSQ:1,2" ++ CR.
Definition CLCC_line : string :=
  "+CLCC: 1,0,0,0,0," ++ DQ ++ "12345" ++ DQ ++ ",129" ++ CR.
Definition CLCC_truncated : string := "+CLCC: 1,0,0,0,0," ++ DQ.

(** A conversation is armed when its filter slot is set.  Between the
    operations of the source an armed conversation has an unfulfilled
    promise: arming installs a fresh one, fulfilling disarms. *)
Definition armed (c : AtChannel.Conversation) : bool :=
  match AtChannel.mFilter c with Some _ => true | None => false end.

Definition conv_ok (c : AtChannel.Conversation) : Prop :=
  armed c = true -> AtChannel.mSink c = AtChannel.Pending.

(** How often [send] answered "claimed", that is how often the promise
    was fulfilled. *)
Definition claims (flags : list bool) : nat := count_occ bool_dec flags true.


(** A channel whose conversation waits for [OK] and that has one
    subscriber, and the environment of a request nobody answers. *)
Definition demo_conversation : AtChannel.Conversation :=
  AtChannel.arm isOK AtChannel.Conversation_init.
Definition demo_channel : AtChannel.t :=
  {| AtChannel.mConversation := demo_conversation;
     AtChannel.mResponseSinks :=
       [ {| AtChannel.sink_name := 0; AtChannel.sink_fn := fun _ => true |} ] |}.

(** [needle] occurs in [s] at index [i]; [i] is where it first occurs. *)
Definition occurs_at (needle s : string) (i : nat) : Prop :=
  String.substring i (String.length needle) s = needle.

Definition first_occurrence (needle s : string) (i : nat) : Prop :=
  occurs_at needle s i /\ forall j, (j < i)%nat -> ~ occurs_at needle s j.

(** The table [vps] with the parser of its entry [k] replaced by [f]: a
    result that does not depend on [f] did not come from calling that
    entry's parser. *)
Fixpoint set_parse_fn (k : nat) (f : string -> AtResponsePtr)
    (vps : list ValueParser) : list ValueParser :=
  match vps, k with
  | [], _ => []
  | vp :: vps', O =>
      {| cmd := cmd vp; parse_fn := f; multiline := multiline vp |} :: vps'
  | vp :: vps', S k' => vp :: set_parse_fn k' f vps'
  end.

Definition parse_with (k : nat) (f : string -> AtResponsePtr)
    (str : string) : ParseResult :=
  parse_tables (set_parse_fn k f plusValueParsers)
               percentValueParsers caretValueParsers str.

(** The entries of a table registered with the multi-line flag: their
    positions and tags. *)
Fixpoint multiline_from (k : nat) (vps : list ValueParser)
  : list (nat * string) :=
  match vps with
  | [] => []
  | vp :: vps' =>
      if multiline vp then (k, cmd vp) :: multiline_from (S k) vps'
      else multiline_from (S k) vps'
  end.

Definition multiline_entries : list (nat * string) :=
  (multiline_from 0 plusValueParsers
   ++ multiline_from 0 percentValueParsers
   ++ multiline_from 0 caretValueParsers)%list.

(** A line that starts with the sigil, the tag and the character [d]. *)
Definition tagged_line (tag : string) (d : ascii) (rest : string) : string :=
  "+" ++ tag ++ String d rest.

(** No line terminator in [s]. *)
Definition no_CR (s : string) : Prop := sv.find_char s kCR 0 = None.

(** The free list as the source keeps it: greatest first, no repetition. *)
Definition desc (ids : list Z) : Prop := StronglySorted Z.gt ids.

(** What holds of an allocator and the ids that are out, between the
    operations of a client: the free list is ordered, its ids lie strictly
    between 0 and the counter, the ids that are out lie between 1 and the
    counter, and no id is both free and out. *)
Definition alloc_inv (st : IdAllocator.t * list Z) : Prop :=
  let '(a, out) := st in
  desc (IdAllocator.mReturnedIds a) /\
  (forall x, In x (IdAllocator.mReturnedIds a) ->
             0 < x < IdAllocator.mIdGenerator a) /\
  0 <= IdAllocator.mIdGenerator a <= INT32_MAX /\
  (forall x, In x out -> 0 < x <= IdAllocator.mIdGenerator a) /\
  (forall x, In x (IdAllocator.mReturnedIds a) -> ~ In x out).

(** What [get] and [put id] do from allocator state [a]: with no id free,
    [get] moves the counter up by one and returns it; otherwise it returns
    the least free id and takes it off the free list.  [put] of the id the
    counter stands at lowers the counter past that id and past every free
    id directly below it, which leave the free list; [put] of any other id
    adds it to the free list and leaves the counter alone. *)
Definition allocator_contract (a : IdAllocator.t) (id : Z) : Prop :=
  let free := IdAllocator.mReturnedIds a in
  let gen := IdAllocator.mIdGenerator a in
  (free = [] -> gen < INT32_MAX ->
     IdAllocator.get a =
       (gen + 1, {| IdAllocator.mReturnedIds := [];
                    IdAllocator.mIdGenerator := gen + 1 |})) /\
  (free <> [] ->
     exists m,
       fst (IdAllocator.get a) = m /\ In m free /\
       (forall x, In x free -> m <= x) /\
       IdAllocator.mIdGenerator (snd (IdAllocator.get a)) = gen /\
       (forall x, In x (IdAllocator.mReturnedIds (snd (IdAllocator.get a)))
                  <-> In x free /\ x <> m)) /\
  (id = gen -> 0 < id ->
     let a' := IdAllocator.put id a in
     IdAllocator.mIdGenerator a' < gen /\
     (forall k, IdAllocator.mIdGenerator a' < k < gen -> In k free) /\
     ~ In (IdAllocator.mIdGenerator a') free /\
     (forall x, In x (IdAllocator.mReturnedIds a')
                <-> In x free /\ x < IdAllocator.mIdGenerator a')) /\
  (id <> gen ->
     IdAllocator.mIdGenerator (IdAllocator.put id a) = gen /\
     (forall x, In x (IdAllocator.mReturnedIds (IdAllocator.put id a))
                <-> x = id \/ In x free)).

(** The number of bytes a parser has left; none when it has failed. *)
Definition plen (p : Parser.t) : nat :=
  match Parser.mBegin p with
  | Some s => String.length s
  | None => O
  end.

(** The response, if any, is not the CPINR alternative. *)
Definition not_CPINR (r : AtResponsePtr) : Prop :=
  match r with
  | Some (CPINR _ _) => False
  | _ => True
  end.

(** The response holds a value of the type [T] stands for: one case per
    alternative of the variant that has an [id()]. *)
Inductive holds_value_of : Tag -> AtResponse.t -> Prop :=
| hv_CmeError e : holds_value_of T_CmeError (CmeError e)
| hv_CmsError m : holds_value_of T_CmsError (CmsError m)
| hv_CPIN st : holds_value_of T_CPIN (CPIN st)
| hv_CPINR a b : holds_value_of T_CPINR (CPINR a b)
| hv_CRSM r a b : holds_value_of T_CRSM (CRSM r a b)
| hv_CFUN st : holds_value_of T_CFUN (CFUN st)
| hv_CREG a b c d : holds_value_of T_CREG (CREG a b c d)
| hv_CEREG a b c d : holds_value_of T_CEREG (CEREG a b c d)
| hv_CGREG a b c d : holds_value_of T_CGREG (CGREG a b c d)
| hv_CTEC vs : holds_value_of T_CTEC (CTEC vs)
| hv_COPS os n m : holds_value_of T_COPS (COPS os n m)
| hv_WRMP a : holds_value_of T_WRMP (WRMP a)
| hv_CCSS a : holds_value_of T_CCSS (CCSS a)
| hv_CSQ v : holds_value_of T_CSQ (CSQ v)
| hv_CLCC calls : holds_value_of T_CLCC (CLCC calls)
| hv_CCFCU infos : holds_value_of T_CCFCU (CCFCU infos)
| hv_CCWA a b : holds_value_of T_CCWA (CCWA a b)
| hv_CGDCONT cs : holds_value_of T_CGDCONT (CGDCONT cs)
| hv_CGCONTRDP v : holds_value_of T_CGCONTRDP (CGCONTRDP v)
| hv_CGFPCCFG a b c d e : holds_value_of T_CGFPCCFG (CGFPCCFG a b c d e)
| hv_CUSATD a b : holds_value_of T_CUSATD (CUSATD a b)
| hv_CUSATP c : holds_value_of T_CUSATP (CUSATP c)
| hv_CUSATE r : holds_value_of T_CUSATE (CUSATE r)
| hv_CUSATT v : holds_value_of T_CUSATT (CUSATT v)
| hv_CUSATEND : holds_value_of T_CUSATEND CUSATEND
| hv_CLCK l : holds_value_of T_CLCK (CLCK l)
| hv_CSIM r : holds_value_of T_CSIM (CSIM r)
| hv_CGLA r : holds_value_of T_CGLA (CGLA r)
| hv_CCHC : holds_value_of T_CCHC CCHC
| hv_CLIP a b : holds_value_of T_CLIP (CLIP a b)
| hv_CLIR a b : holds_value_of T_CLIR (CLIR a b)
| hv_CMUT a : holds_value_of T_CMUT (CMUT a)
| hv_WSOS a : holds_value_of T_WSOS (WSOS a)
| hv_CSCA a b : holds_value_of T_CSCA (CSCA a b)
| hv_CSCB a b c : holds_value_of T_CSCB (CSCB a b c)
| hv_CMGS a : holds_value_of T_CMGS (CMGS a)
| hv_CMGW a : holds_value_of T_CMGW (CMGW a)
| hv_CMT a b : holds_value_of T_CMT (CMT a b)
| hv_CDS a b : holds_value_of T_CDS (CDS a b)
| hv_MBAU v : holds_value_of T_MBAU (MBAU v)
| hv_CTZV v : holds_value_of T_CTZV (CTZV v).

(** One call on a [Parser], whatever it stores through its pointer, and a
    chain of such calls. *)
Inductive parser_op :=
| OpSkip (c : ascii)
| OpSkips (lit : string)
| OpChar
| OpInt (base : Z)
| OpView (e : ascii)
| OpStr (e : ascii)
| OpRemaining.

Definition apply_op (o : parser_op) (p : Parser.t) : Parser.t :=
  match o with
  | OpSkip c => Parser.skip c p
  | OpSkips lit => Parser.skips lit p
  | OpChar => fst (Parser.char "000" p)
  | OpInt base => fst (Parser.int_base base 0 p)
  | OpView e => fst (Parser.view e "" p)
  | OpStr e => fst (Parser.str e "" p)
  | OpRemaining => fst (Parser.remaining p)
  end.

Definition apply_ops (ops : list parser_op) (p : Parser.t) : Parser.t :=
  fold_left (fun p o => apply_op o p) ops p.

(** The bookkeeping of a parser over an input of [total] bytes: what it
    has passed and what it has left add up to the input. *)
Definition parser_ok (total : nat) (p : Parser.t) : Prop :=
  match Parser.mBegin p with
  | Some s => (Parser.mOffset p + String.length s = total)%nat
  | None => True
  end.

(** The three shapes of a result of [parse] on [str]: incomplete,
    terminal, or some bytes of [str] consumed and a response. *)
Definition result_ok (str : string) (res : ParseResult) : Prop :=
  res = (0, None) \/ res = (-1, None) \/
  exists n r, res = (Z.of_nat n, Some r) /\
              (0 < n <= String.length str)%nat.

(** Every id the counter has passed is accounted for: the ids that are
    out are pairwise distinct, and each id from 1 to the counter is free
    or out. *)
Definition alloc_full (st : IdAllocator.t * list Z) : Prop :=
  let '(a, out) := st in
  NoDup out /\
  (forall k, 0 < k <= IdAllocator.mIdGenerator a ->
             In k (IdAllocator.mReturnedIds a) \/ In k out).

(** The digits [bin2hex] writes, and the strings made of them. *)
Definition upper_hex (c : ascii) : bool :=
  let n := char_code c in
  ((48 <=? n) && (n <=? 57)) || ((65 <=? n) && (n <=? 70)).

Fixpoint all_chars (P : ascii -> bool) (s : string) : bool :=
  match s with
  | EmptyString => true
  | String c r => P c && all_chars P r
  end.

(** The values of a [uint8_t] *)
Definition is_byte (x : Z) : Prop := 0 <= x < 256.

(** A [::write] that takes at least one byte. *)
Definition makes_progress (w : AtChannel.write_result) : bool :=
  match w with
  | AtChannel.Wrote (S _) => true
  | _ => false
  end.

(** The subscribers still registered after the responses [rs]: those that
    returned [true] for each of them. *)
Definition sinks_after (sinks : list AtChannel.ResponseSink)
    (rs : list AtResponse.t) : list AtChannel.ResponseSink :=
  filter (fun sink => forallb (AtChannel.sink_fn sink) rs) sinks.

(** The calls a sequence of broadcasts is expected to make: response
    number [i] goes to the subscribers that accepted every earlier one. *)
Definition calls_expected (sinks : list AtChannel.ResponseSink)
    (rs : list AtResponse.t) : list (nat * AtResponse.t) :=
  List.concat
    (map (fun i =>
            match nth_error rs i with
            | Some r =>
                map (fun sink => (AtChannel.sink_name sink, r))
                    (sinks_after sinks (firstn i rs))
            | None => []
            end)
         (seq 0 (List.length rs))).

(** Where the request worker stands with its host channel. *)
Inductive worker_state :=
| Closed                 (* no channel has been opened *)
| Opened (fd : nat)      (* the factory gave [fd], the init sequence is due *)
| Inited (fd : nat)      (* the init sequence ran on [fd] *)
| Ready (fd : nat)       (* a requester has run on [fd] and returned [true] *)
| Failed                 (* a requester returned [false], the reset is due *)
| Lost.                  (* the channel was reset after a failure *)

Definition is_last (evs : list AtChannel.request_event) : bool :=
  match evs with [] => true | _ => false end.

(** A trace of the request worker that respects the host channel.  A
    channel is opened only while none has been, and initialised right
    after; a requester runs only on the channel that is open and
    initialised; a requester that returns [false] is followed at once by
    the reset of the channel, and then no requester runs any more: the
    worker stands in [join], waits on the empty queue or has been told to
    stop.  Every trace ends in one of these, or in a fatal error right
    where a channel could not be opened or initialised. *)
Fixpoint conforms (st : worker_state)
    (evs : list AtChannel.request_event) : bool :=
  match evs with
  | [] => false
  | e :: evs' =>
      match st, e with
      | Closed, AtChannel.EvOpen fd => conforms (Opened fd) evs'
      | Closed, AtChannel.EvFatal => is_last evs'
      | Closed, AtChannel.EvBlocked => is_last evs'
      | Closed, AtChannel.EvReset => is_last evs'
      | Opened fd, AtChannel.EvInit fd' =>
          Nat.eqb fd fd' && conforms (Inited fd) evs'
      | Inited fd, AtChannel.EvFatal => is_last evs'
      | Inited fd, AtChannel.EvRun _ fd' ok
      | Ready fd, AtChannel.EvRun _ fd' ok =>
          Nat.eqb fd fd' && conforms (if ok then Ready fd else Failed) evs'
      | Ready fd, AtChannel.EvBlocked => is_last evs'
      | Ready fd, AtChannel.EvReset => is_last evs'
      | Failed, AtChannel.EvReset => conforms Lost evs'
      | Lost, AtChannel.EvJoin => is_last evs'
      | Lost, AtChannel.EvReset => is_last evs'
      | Lost, AtChannel.EvBlocked => is_last evs'
      | _, _ => false
      end
  end.

(** The ways a trace ends once the channel has been reset after a
    failure. *)
Definition stopped (evs : list AtChannel.request_event) : Prop :=
  evs = [AtChannel.EvJoin] \/ evs = [AtChannel.EvReset] \/
  evs = [AtChannel.EvBlocked].

(** The requesters a trace ran, in order. *)
Fixpoint runs (evs : list AtChannel.request_event) : list nat :=
  match evs with
  | [] => []
  | AtChannel.EvRun name _ _ :: evs' => name :: runs evs'
  | _ :: evs' => runs evs'
  end.

(** The requesters queued ahead of the first empty one, in order. *)
Fixpoint queued (queue : list (option AtChannel.Requester)) : list nat :=
  match queue with
  | Some requester :: queue' =>
      AtChannel.requester_name requester :: queued queue'
  | _ => []
  end.

Definition is_fatal (e : AtChannel.request_event) : bool :=
  match e with AtChannel.EvFatal => true | _ => false end.

Definition is_failed_run (e : AtChannel.request_event) : bool :=
  match e with AtChannel.EvRun _ _ false => true | _ => false end.

Definition is_open (e : AtChannel.request_event) : bool :=
  match e with AtChannel.EvOpen _ => true | _ => false end.

(** Entry [vp] of a table lets the loop of [parseCmds] go on to the next
    entry without touching [maybeIncomplete]: its tag does not start
    [str1], or the character after the tag is neither a colon nor a
    carriage return. *)
Definition declines (str1 : string) (vp : ValueParser) : bool :=
  negb (sv.starts_with str1 (cmd vp)) ||
  (negb (sv.size str1 <=? sv.size (cmd vp))%nat &&
   match String.get (sv.size (cmd vp)) str1 with
   | Some c => negb (Ascii.eqb c ":") && negb (Ascii.eqb c kCR)
   | None => true
   end).

(** The entries registered without the multi-line flag: sigil, position
    in their table and tag. *)
Fixpoint singleline_from (sigil : ascii) (k : nat) (vps : list ValueParser)
  : list (ascii * nat * string) :=
  match vps with
  | [] => []
  | vp :: vps' =>
      if multiline vp then singleline_from sigil (S k) vps'
      else (sigil, k, cmd vp) :: singleline_from sigil (S k) vps'
  end.

Definition singleline_entries : list (ascii * nat * string) :=
  (singleline_from "+" 0 plusValueParsers
   ++ singleline_from "%" 0 percentValueParsers
   ++ singleline_from "^" 0 caretValueParsers)%list.

Definition table_of (sigil : ascii) : list ValueParser :=
  if Ascii.eqb sigil "+" then plusValueParsers
  else if Ascii.eqb sigil "%" then percentValueParsers
  else if Ascii.eqb sigil "^" then caretValueParsers
  else [].

(** The three tables of [parse], one after the other. *)
Definition all_tables : list ValueParser :=
  (plusValueParsers ++ percentValueParsers ++ caretValueParsers)%list.

(** The tag a [ParseError] of entry [vp]'s parser carries. *)
Definition error_tag (vp : ValueParser) : string :=
  if String.eqb (cmd vp) "CMGW" then "CMGS" else cmd vp.

(** Each response type that has a [parse] of its own returning an
    [AtResponsePtr], with that function: what the macro [CMD(C)] pairs in
    the tables, and [CGLA]. *)
Definition typed_parsers : list (Tag * (string -> AtResponsePtr)) :=
  [ (T_CPIN, CPIN_parse); (T_CPINR, CPINR_parse); (T_CRSM, CRSM_parse);
    (T_CFUN, CFUN_parse); (T_CREG, CREG_parse); (T_CEREG, CEREG_parse);
    (T_CGREG, CGREG_parse); (T_CTEC, CTEC_parse); (T_COPS, COPS_parse);
    (T_WRMP, WRMP_parse); (T_CCSS, CCSS_parse); (T_CSQ, CSQ_parse);
    (T_CLCC, CLCC_parse); (T_CCFCU, CCFCU_parse); (T_CCWA, CCWA_parse);
    (T_CUSATD, CUSATD_parse); (T_CUSATP, CUSATP_parse);
    (T_CUSATE, CUSATE_parse); (T_CUSATT, CUSATT_parse);
    (T_CUSATEND, CUSATEND_parse); (T_CGDCONT, CGDCONT_parse);
    (T_CGCONTRDP, CGCONTRDP_parse); (T_CLCK, CLCK_parse);
    (T_CSIM, CSIM_parse); (T_CCHC, CCHC_parse); (T_CLIP, CLIP_parse);
    (T_CLIR, CLIR_parse); (T_CMUT, CMUT_parse); (T_WSOS, WSOS_parse);
    (T_CSCA, CSCA_parse); (T_CSCB, CSCB_parse); (T_CMGS, CMGS_parse);
    (T_CMGW, CMGW_parse); (T_CmeError, CmeError_parse);
    (T_CmsError, CmsError_parse); (T_CTZV, CTZV_parse);
    (T_CGFPCCFG, CGFPCCFG_parse); (T_MBAU, MBAU_parse);
    (T_CGLA, CGLA_parse) ].

(** The tag a [ParseError] of [T::parse] carries. *)
Definition error_tag_of (T : Tag) : string :=
  match T with
  | T_CMGW => id T_CMGS
  | _ => id T
  end.

(** No comma in [s]. *)
Definition no_comma (s : string) : Prop := sv.count s "," = 0%nat.

(** What is assumed of the numbers behind the enumerators of
    [RadioTechnology]: they are bit positions of a [uint32_t], and no two
    enumerators share one. *)
Definition value_ok (value : ratUtils.RadioTechnology.t -> Z) : Prop :=
  (forall r, 0 <= value r < 32) /\
  (forall a b, value a = value b -> a = b).

(** An assignment of distinct bit positions, for the examples. *)
Definition sample_value (r : ratUtils.RadioTechnology.t) : Z :=
  match r with
  | ratUtils.RadioTechnology.GPRS => 1
  | ratUtils.RadioTechnology.EDGE => 2
  | ratUtils.RadioTechnology.UMTS => 3
  | ratUtils.RadioTechnology.IS95A => 4
  | ratUtils.RadioTechnology.IS95B => 5
  | ratUtils.RadioTechnology.ONE_X_RTT => 6
  | ratUtils.RadioTechnology.EVDO_0 => 7
  | ratUtils.RadioTechnology.EVDO_A => 8
  | ratUtils.RadioTechnology.HSDPA => 9
  | ratUtils.RadioTechnology.HSUPA => 10
  | ratUtils.RadioTechnology.HSPA => 11
  | ratUtils.RadioTechnology.EVDO_B => 12
  | ratUtils.RadioTechnology.EHRPD => 13
  | ratUtils.RadioTechnology.LTE => 14
  | ratUtils.RadioTechnology.HSPAP => 15
  | ratUtils.RadioTechnology.GSM => 16
  | ratUtils.RadioTechnology.TD_SCDMA => 17
  | ratUtils.RadioTechnology.NR => 20
  end.

(** [d] is the text of a decimal [int], all of it. *)
Definition decimal_int (d : string) : Prop :=
  fc_ec (from_chars d 10) = errc_ok /\
  fc_rest (from_chars d 10) = EmptyString.

(** What [ltrim] removes: a [char] that compares as at most [0x20]. *)
Definition is_blank (c : ascii) : bool := char_value c <=? 32.



(** * Properties *)

(** ** Strings *)

Lemma substring_all (s : string) : String.substring 0 (String.length s) s = s.
Proof.
  induction s as [|c s IH]; simpl; [reflexivity | now rewrite IH].
Qed.

Lemma substr_from_1 (c : ascii) (s : string) :
  sv.substr_from (String c s) 1 = s.
Proof.
  unfold sv.substr_from. simpl. rewrite Nat.sub_0_r. apply substring_all.
Qed.

Lemma wrap32_small (z : Z) : INT32_MIN <= z <= INT32_MAX -> wrap32 z = z.
Proof.
  unfold wrap32, INT32_MIN, INT32_MAX. intros H.
  rewrite Z.mod_small; lia.
Qed.

(** ** The loops of the payload parsers never run out of fuel

    No member function of [Parser] gives bytes back, and every round of a
    loop starts by consuming some: the fuel the parsers start from, one
    more than the length of the payload, is never used up. *)

Lemma plen_skip (c : ascii) (p : Parser.t) :
  (plen (Parser.skip c p) <= plen p)%nat.
Proof.
  unfold Parser.skip.
  destruct p as [[s|] o]; cbn [Parser.mBegin Parser.mOffset]; [|lia].
  unfold plen. destruct (Ascii.eqb c " "); cbn [Parser.mBegin].
  - revert o. induction s as [|b s IH]; intros o; simpl.
    + lia.
    + destruct (char_value b <=? char_value " "); simpl; [|lia].
      specialize (IH (S o)).
      destruct (Parser.skip_blanks s (S o)) as [s' o']. simpl in *. lia.
  - destruct s as [|b s]; simpl; [lia|].
    destruct (Ascii.eqb b c); simpl; lia.
Qed.

Lemma plen_skip_lt (c : ascii) (p : Parser.t) :
  Parser.hasMore p = true -> Ascii.eqb c " " = false ->
  (plen (Parser.skip c p) < plen p)%nat.
Proof.
  intros H Hc. unfold Parser.skip. rewrite Hc.
  destruct p as [[[|b s]|] o]; try discriminate H.
  cbn [Parser.mBegin Parser.mOffset].
  destruct (Ascii.eqb b c); unfold plen; simpl; lia.
Qed.

Lemma skip_lit_length (lit s s' : string) (o o' : nat) :
  Parser.skip_lit lit s o = Some (s', o') ->
  (String.length s' <= String.length s)%nat /\
  (lit <> EmptyString -> s <> EmptyString ->
   String.length s' < String.length s)%nat.
Proof.
  revert lit o. induction s as [|b s IH]; intros [|c lit] o H; simpl in H.
  - injection H as <- _. split; [lia | intros _ N; now elim N].
  - discriminate H.
  - injection H as <- _. split; [lia | intros N; now elim N].
  - destruct (Ascii.eqb c b); [|discriminate H].
    destruct (IH _ _ H) as [Hle _]. simpl. split; intros; lia.
Qed.

Lemma plen_skips (lit : string) (p : Parser.t) :
  (plen (Parser.skips lit p) <= plen p)%nat.
Proof.
  destruct p as [[s|] o]; unfold Parser.skips, plen; simpl; [|lia].
  destruct (Parser.skip_lit lit s o) as [[s' o']|] eqn:E; simpl; [|lia].
  now destruct (skip_lit_length _ _ _ _ _ E).
Qed.

Lemma plen_skips_lt (lit : string) (p : Parser.t) :
  Parser.hasMore p = true -> lit <> EmptyString ->
  (plen (Parser.skips lit p) < plen p)%nat.
Proof.
  destruct p as [[[|b s]|] o]; unfold Parser.skips, Parser.hasMore, plen;
    simpl; intros H Hlit; try discriminate H.
  destruct (Parser.skip_lit lit (String b s) o)
    as [[s' o']|] eqn:E; simpl; [|lia].
  destruct (skip_lit_length _ _ _ _ _ E) as [_ Hlt].
  apply Hlt; [exact Hlit | discriminate].
Qed.

Lemma take_digits_length (base : Z) (s : string) :
  forall acc cnt v cnt' rest,
    take_digits base s acc cnt = (v, cnt', rest) ->
    (String.length rest + cnt' = String.length s + cnt)%nat.
Proof.
  induction s as [|c s IH]; intros acc cnt v cnt' rest H; simpl in H.
  - injection H as _ <- <-. reflexivity.
  - destruct (digit_value c) as [d|].
    + destruct (d <? base).
      * apply IH in H. simpl. lia.
      * injection H as _ <- <-. reflexivity.
    + injection H as _ <- <-. reflexivity.
Qed.

Lemma from_chars_digits_length (s body : string) (neg : bool)
    (signlen : nat) (base : Z) :
  (String.length body <= String.length s)%nat ->
  fc_ec (from_chars_digits s body neg signlen base) = errc_ok ->
  (String.length (fc_rest (from_chars_digits s body neg signlen base))
   < String.length s)%nat.
Proof.
  intros Hb. unfold from_chars_digits.
  destruct (take_digits base body 0 0) as [[v cnt] rest] eqn:E.
  apply take_digits_length in E.
  destruct cnt as [|cnt]; [intros H; discriminate H|].
  destruct ((INT32_MIN <=? (if neg then - v else v))
            && ((if neg then - v else v) <=? INT32_MAX));
    simpl; [intros _; lia | intros H; discriminate H].
Qed.

Lemma from_chars_cases (s : string) (base : Z) :
  from_chars s base = from_chars_digits s s false 0 base \/
  exists r, s = String "-" r /\
            from_chars s base = from_chars_digits s r true 1 base.
Proof.
  destruct s as [|c s]; [now left|].
  destruct (Ascii.eqb_spec c "-") as [-> | N].
  - right. now exists s.
  - left. destruct c as [[] [] [] [] [] [] [] []]; try reflexivity.
    now elim N.
Qed.

Lemma from_chars_length (s : string) (base : Z) :
  fc_ec (from_chars s base) = errc_ok ->
  (String.length (fc_rest (from_chars s base)) < String.length s)%nat.
Proof.
  destruct (from_chars_cases s base) as [-> | (r & -> & ->)].
  - now apply from_chars_digits_length.
  - apply from_chars_digits_length. simpl. lia.
Qed.

Lemma plen_int_base (base old : Z) (p : Parser.t) :
  (plen (fst (Parser.int_base base old p)) <= plen p)%nat /\
  (Parser.hasMore p = true ->
   plen (fst (Parser.int_base base old p)) < plen p)%nat.
Proof.
  unfold Parser.int_base.
  destruct p as [[[|b s]|] o]; cbn [Parser.mBegin Parser.mOffset];
    unfold Parser.hasMore, plen; cbn [Parser.mBegin Parser.fail fst];
    [split; [lia | intros H; discriminate H] | |
     split; [lia | intros H; discriminate H]].
  pose proof (from_chars_length (String b s) base) as L.
  destruct (fc_ec (from_chars (String b s) base));
    cbn [fst Parser.mBegin Parser.fail]; cbn [String.length] in *.
  - specialize (L eq_refl). split; intros; lia.
  - split; intros; lia.
  - split; intros; lia.
Qed.

Lemma plen_int (old : Z) (p : Parser.t) :
  (plen (fst (Parser.int old p)) <= plen p)%nat.
Proof. apply plen_int_base. Qed.

Lemma plen_int_lt (old : Z) (p : Parser.t) :
  Parser.hasMore p = true -> (plen (fst (Parser.int old p)) < plen p)%nat.
Proof. apply plen_int_base. Qed.

Lemma split_at_length (e : ascii) (s a b : string) :
  Parser.split_at e s = Some (a, b) ->
  (String.length b < String.length s)%nat.
Proof.
  revert a b. induction s as [|c s IH]; intros a b H; simpl in H.
  - discriminate H.
  - destruct (Ascii.eqb c e).
    + injection H as _ <-. simpl. lia.
    + destruct (Parser.split_at e s) as [[a' b']|]; [|discriminate H].
      injection H as _ <-. specialize (IH _ _ eq_refl). simpl. lia.
Qed.

Lemma plen_view (e : ascii) (old : string) (p : Parser.t) :
  (plen (fst (Parser.view e old p)) <= plen p)%nat.
Proof.
  destruct p as [[s|] o]; unfold Parser.view, plen; simpl; [|lia].
  destruct (Parser.split_at e s) as [[a b]|] eqn:E; simpl; [|lia].
  apply split_at_length in E. lia.
Qed.

Lemma plen_str (e : ascii) (old : string) (p : Parser.t) :
  (plen (fst (Parser.str e old p)) <= plen p)%nat.
Proof.
  unfold Parser.str. pose proof (plen_view e "" p) as H.
  destruct (Parser.view e "" p) as [p' v]. simpl in H.
  now destruct (Parser.matchSoFar p').
Qed.

(** Name the parser state after each step of a chain, keeping how it came
    about, and compare what is left along the chain. *)
Ltac name_steps :=
  repeat match goal with
    | |- context [match ?e with pair _ _ => _ end] =>
        let p := fresh "p" in
        let v := fresh "v" in
        let E := fresh "E" in
        destruct e as [p v] eqn:E;
        apply (f_equal fst) in E; cbn [fst] in E; subst p
    end.

Ltac plen_step :=
  first
    [ eapply Nat.le_lt_trans; [apply plen_skip|]
    | eapply Nat.le_lt_trans; [apply plen_skips|]
    | eapply Nat.le_lt_trans; [apply plen_int|]
    | eapply Nat.le_lt_trans; [apply plen_view|]
    | eapply Nat.le_lt_trans; [apply plen_str|] ].

Ltac plen_first Hm :=
  first
    [ apply plen_skips_lt; [exact Hm | discriminate]
    | apply plen_int_lt; exact Hm
    | apply plen_skip_lt; [exact Hm | reflexivity] ].

Ltac plen_chain Hm := repeat first [ solve [plen_first Hm] | plen_step ].

Lemma hasMore_plen (p : Parser.t) :
  Parser.hasMore p = true -> (0 < plen p)%nat.
Proof.
  destruct p as [[[|b s]|] o]; unfold Parser.hasMore, plen; simpl; intros H;
    try discriminate H; lia.
Qed.

Lemma CLCC_calls_fuel (fuel : nat) :
  forall fuel' p calls,
    (plen p < fuel)%nat -> (plen p < fuel')%nat ->
    CLCC_calls fuel p calls = CLCC_calls fuel' p calls.
Proof.
  induction fuel as [|f IH]; intros [|f'] p calls H1 H2; try lia.
  cbn [CLCC_calls].
  destruct (Parser.hasMore p) eqn:Hm; [|reflexivity].
  name_steps.
  match goal with
  | |- (if Parser.matchSoFar ?q then _ else _) = _ =>
      destruct (Parser.matchSoFar q); [|reflexivity];
      assert (L : (plen q < plen p)%nat)
  end.
  { plen_chain Hm. }
  apply IH; lia.
Qed.

Lemma CGDCONT_contexts_fuel (fuel : nat) :
  forall fuel' p contexts,
    (plen p < fuel)%nat -> (plen p < fuel')%nat ->
    CGDCONT_contexts fuel p contexts = CGDCONT_contexts fuel' p contexts.
Proof.
  induction fuel as [|f IH]; intros [|f'] p contexts H1 H2; try lia.
  cbn [CGDCONT_contexts].
  destruct (Parser.hasMore p) eqn:Hm; [|reflexivity].
  name_steps.
  match goal with
  | |- (if Parser.matchSoFar ?q then _ else _) = _ =>
      destruct (Parser.matchSoFar q); [|reflexivity];
      assert (L : (plen q < plen p)%nat)
  end.
  { plen_chain Hm. }
  apply IH; lia.
Qed.

Lemma CCFCU_infos_fuel (fuel : nat) :
  forall fuel' p infos,
    (plen p < fuel)%nat -> (plen p < fuel')%nat ->
    CCFCU_infos fuel p infos = CCFCU_infos fuel' p infos.
Proof.
  induction fuel as [|f IH]; intros [|f'] p infos H1 H2; try lia.
  cbn [CCFCU_infos].
  destruct (Parser.hasMore p) eqn:Hm; [|reflexivity].
  name_steps.
  match goal with
  | |- (if Parser.matchSoFar ?q then _ else _) = _ =>
      destruct (Parser.matchSoFar q); [|reflexivity];
      assert (L : (plen q < plen p)%nat) by (plen_chain Hm);
      cbv zeta; destruct (Ascii.eqb (Parser.front q) ",");
      [ name_steps | destruct (Ascii.eqb (Parser.front q) kCR);
                     [|reflexivity] ]
  end.
  - match goal with
    | |- (if negb (Parser.matchSoFar ?q) then _ else _) = _ =>
        destruct (Parser.matchSoFar q); [|reflexivity];
        assert (L' : (plen q < plen p)%nat)
    end.
    { plen_chain Hm. }
    apply IH; lia.
  - match goal with
    | |- CCFCU_infos _ ?q _ = _ => assert (L' : (plen q < plen p)%nat)
    end.
    { plen_chain Hm. }
    apply IH; lia.
Qed.

Lemma CSCB_parseIds_loop_fuel (fuel : nat) :
  forall fuel' p ids,
    (plen p < fuel)%nat -> (plen p < fuel')%nat ->
    CSCB_parseIds_loop fuel p ids = CSCB_parseIds_loop fuel' p ids.
Proof.
  induction fuel as [|f IH]; intros [|f'] p ids H1 H2; try lia.
  cbn [CSCB_parseIds_loop].
  destruct (Parser.hasMore p) eqn:Hm; [|reflexivity].
  name_steps.
  match goal with
  | |- (if negb (Parser.matchSoFar ?q) then _ else _) = _ =>
      destruct (Parser.matchSoFar q); [|reflexivity];
      assert (L : (plen q < plen p)%nat) by (plen_chain Hm);
      cbn [negb]; destruct (Parser.fullMatch q); [reflexivity|];
      cbv zeta; destruct (Ascii.eqb (Parser.front q) "-");
      [ name_steps | destruct (Ascii.eqb (Parser.front q) ",");
                     [|reflexivity] ]
  end.
  - match goal with
    | |- (if negb (Parser.matchSoFar ?q) then _ else _) = _ =>
        destruct (Parser.matchSoFar q); [|reflexivity];
        assert (L' : (plen q < plen p)%nat) by (plen_chain Hm);
        cbn [negb]; cbv zeta;
        destruct (Parser.fullMatch q);
        [ | destruct (Ascii.eqb (Parser.front q) ","); [|reflexivity] ]
    end.
    + apply IH; lia.
    + match goal with
      | |- CSCB_parseIds_loop _ ?q _ = _ =>
          assert (L'' : (plen q < plen p)%nat) by (plen_chain Hm)
      end.
      apply IH; lia.
  - match goal with
    | |- CSCB_parseIds_loop _ ?q _ = _ =>
        assert (L' : (plen q < plen p)%nat) by (plen_chain Hm)
    end.
    apply IH; lia.
Qed.

Ltac plen_chain_le :=
  repeat first
    [ apply Nat.le_refl
    | eapply Nat.le_trans; [apply plen_skip|]
    | eapply Nat.le_trans; [apply plen_skips|]
    | eapply Nat.le_trans; [apply plen_int|]
    | eapply Nat.le_trans; [apply plen_view|]
    | eapply Nat.le_trans; [apply plen_str|] ].

Lemma front_hasMore (p : Parser.t) (c : ascii) :
  Ascii.eqb (Parser.front p) c = true -> c <> "255"%char ->
  Parser.hasMore p = true.
Proof.
  unfold Parser.front, Parser.hasMore.
  destruct (Parser.mBegin p) as [[|b s]|]; intros H N; try reflexivity;
    apply Ascii.eqb_eq in H; now elim N.
Qed.

Lemma COPS_operators_fuel (fuel : nat) :
  forall fuel' p operators,
    (plen p < fuel)%nat -> (plen p < fuel')%nat ->
    COPS_operators fuel p operators = COPS_operators fuel' p operators.
Proof.
  induction fuel as [|f IH]; intros [|f'] p operators H1 H2; try lia.
  cbn [COPS_operators].
  destruct (Parser.matchSoFar p); [|reflexivity]. cbn [negb].
  name_steps.
  match goal with
  | |- (if Parser.matchSoFar ?q then _ else _) = _ =>
      destruct (Parser.matchSoFar q); [|reflexivity];
      assert (L : (plen q <= plen p)%nat) by plen_chain_le;
      cbv zeta; destruct (Ascii.eqb (Parser.front q) ",") eqn:Ef;
      [|reflexivity];
      assert (L' : (plen (Parser.skip "," q) < plen q)%nat)
  end.
  { apply plen_skip_lt; [|reflexivity].
    apply (front_hasMore _ _ Ef). discriminate. }
  apply IH; lia.
Qed.

Lemma length_substring_le (s : string) (n m : nat) :
  (String.length (String.substring n m s) <= m)%nat.
Proof.
  revert n m. induction s as [|c s IH]; intros [|n] [|m]; simpl; try lia.
  - specialize (IH 0%nat m). lia.
  - apply (IH n 0%nat).
  - apply (IH n (S m)).
Qed.

Lemma receiveResponsesImpl_from_fuel (fuel : nat) :
  forall fuel' ch buf,
    (String.length buf < fuel)%nat -> (String.length buf < fuel')%nat ->
    AtChannel.receiveResponsesImpl_from fuel ch buf
    = AtChannel.receiveResponsesImpl_from fuel' ch buf.
Proof.
  induction fuel as [|f IH]; intros [|f'] ch buf H1 H2; try lia.
  cbn [AtChannel.receiveResponsesImpl_from].
  destruct buf as [|c buf]; [reflexivity|].
  destruct (AtChannel.receiveOneResponse ch (String c buf))
    as [[[[[|n]|] ch'] calls]|]; try reflexivity.
  rewrite (IH f'); [reflexivity | |];
    unfold sv.substr_from;
    pose proof (length_substring_le (String c buf) (S n)
                  (String.length (String c buf) - S n)) as L;
    simpl in *; lia.
Qed.

(** With any fuel beyond what they start from, the loops return what they
    return as defined. *)
Lemma loops_have_enough_fuel (str : string) (ch : AtChannel.t) (n : nat) :
  CLCC_calls (S (String.length str) + n) (Parser.make str) []
    = CLCC_calls (S (String.length str)) (Parser.make str) [] /\
  CCFCU_infos (S (String.length str) + n) (Parser.make str) []
    = CCFCU_infos (S (String.length str)) (Parser.make str) [] /\
  CGDCONT_contexts (S (String.length str) + n) (Parser.make str) []
    = CGDCONT_contexts (S (String.length str)) (Parser.make str) [] /\
  CSCB_parseIds_loop (S (String.length str) + n) (Parser.make str) []
    = CSCB_parseIds_loop (S (String.length str)) (Parser.make str) [] /\
  (forall p, (plen p <= String.length str)%nat ->
     COPS_operators (S (String.length str) + n) p []
     = COPS_operators (S (String.length str)) p []) /\
  AtChannel.receiveResponsesImpl_from (S (String.length str) + n) ch str
    = AtChannel.receiveResponsesImpl ch str.
Proof.
  assert (P : (plen (Parser.make str) < S (String.length str))%nat)
    by (unfold plen; simpl; lia).
  repeat split.
  - apply CLCC_calls_fuel; lia.
  - apply CCFCU_infos_fuel; lia.
  - apply CGDCONT_contexts_fuel; lia.
  - apply CSCB_parseIds_loop_fuel; lia.
  - intros p Hp. apply COPS_operators_fuel; lia.
  - apply receiveResponsesImpl_from_fuel; lia.
Qed.

(** ** Worked examples of [AtResponse::parse] *)

(** C8.  [parse("OK\r")] consumes 3 bytes and yields the OK variant;
    [parse("+CPIN: READY\r")] consumes 13 bytes and yields the CPIN variant
    whose state is READY. *)
Theorem parse_OK_and_CPIN_READY :
  parse ("OK" ++ CR) = (3, Some OK) /\
  parse ("+CPIN: READY" ++ CR) = (13, Some (CPIN READY)).
Proof. split; vm_compute; reflexivity. Qed.

(** C1.  What the code does on the two inputs of the claim.  The
    unregistered tag is a terminal failure, as claimed.  Of the eight
    strict prefixes of ["+CSQ:1,2\r"], those of 4 to 8 bytes are
    incomplete, but those of 1, 2 and 3 bytes (["+"], ["+C"], ["+CS"]),
    shorter than the tag itself, are reported as terminal failures, and the
    reader handed such a prefix as the tail of its buffer gives up (returns
    [false]) instead of keeping the bytes. *)
Theorem parse_NOTREAL_and_truncated_CSQ :
  parse NOTREAL_line = (-1, None) /\
  map (fun n => parse (sv.substr CSQ_line 0 n)) (seq 1 8) =
    [(-1, None); (-1, None); (-1, None);
     (0, None); (0, None); (0, None); (0, None); (0, None)] /\
  forall ch : AtChannel.t,
    AtChannel.receiveResponsesImpl ch "+CS" = Some (false, None, ch, []).
Proof.
  split; [vm_compute; reflexivity|].
  split; [vm_compute; reflexivity|].
  intros ch. vm_compute. reflexivity.
Qed.

(** C3, as stated, fails: on the line alone the parser reports
    "incomplete" and no CLCC response, because CLCC is a multi-line tag and
    the terminator is not there yet. *)
Lemma CLCC_line_alone_is_incomplete :
  parse CLCC_line = (0, None) /\
  ~ (exists consumed calls, parse CLCC_line = (consumed, Some (CLCC calls))).
Proof.
  split; [vm_compute; reflexivity|].
  intros (consumed & calls & H). vm_compute in H. discriminate H.
Qed.

(** C3, amended.  Once ["OK\r"] follows the line, so that the line's own
    terminator starts the sequence ["\rOK\r"], all 32 bytes are consumed
    and the CLCC response holds exactly one call with index 1, state 0,
    isMT false, isVoice true, toa 129 and, as number, the text of the
    sixth field as received, quotation marks included.  The line alone
    and the line cut after the opening quotation mark are incomplete. *)
Theorem CLCC_line_parsed_once_terminated :
  parse (CLCC_line ++ "OK" ++ CR) =
    (32, Some (CLCC [ {| call_state := 0; call_index := 1; call_toa := 129;
                         call_isMpty := false; call_isMT := false;
                         call_isVoice := true;
                         call_number := DQ ++ "12345" ++ DQ |} ])) /\
  parse CLCC_line = (0, None) /\
  parse CLCC_truncated = (0, None).
Proof. repeat split; vm_compute; reflexivity. Qed.

(** ** [holds] *)

Lemma holds_alternative_ParseError (T : Tag) (c : string) :
  holds_alternative T (ParseError c) = false.
Proof. destruct T; reflexivity. Qed.

Lemma holds_alternative_value (T : Tag) (r : AtResponse.t) :
  holds_alternative T r = true <-> holds_value_of T r.
Proof.
  split.
  - intros H. destruct T; destruct r; try discriminate H; constructor.
  - intros H. destruct H; reflexivity.
Qed.

(** C10.  For a type [T] with an [id()], [holds<T>] is true exactly when
    the response holds a [T] or holds a [ParseError] whose [cmd] is
    [T::id()]; the specialisations for [OK], [SmsPrompt] and [std::string]
    are true exactly when that alternative is the active one, so not for a
    [ParseError].  "Holds a [T]" is meant by the alternative the response
    holds: [holds<CLCC>] is true of every [CLCC] value, [holds<CSQ>] of
    every [CSQ] value, and so on for each type, and false of a value of
    another type. *)
Theorem holds_also_accepts_ParseError :
  (forall (T : Tag) (r : AtResponse.t),
      holds T r = true <->
      holds_alternative T r = true \/ r = ParseError (id T)) /\
  (forall r, holds_OK r = true <-> r = OK) /\
  (forall r, holds_SmsPrompt r = true <-> r = SmsPrompt) /\
  (forall r, holds_string r = true <-> exists v, r = Str v) /\
  holds T_CLCC (ParseError "CLCC") = true /\
  holds T_CSQ (ParseError "CLCC") = false /\
  (forall c, holds_OK (ParseError c) = false /\
             holds_SmsPrompt (ParseError c) = false /\
             holds_string (ParseError c) = false) /\
  (forall (T : Tag) (r : AtResponse.t),
      holds T r = true <-> holds_value_of T r \/ r = ParseError (id T)) /\
  (forall calls, holds T_CLCC (CLCC calls) = true) /\
  (forall v, holds T_CSQ (CSQ v) = true) /\
  (forall state, holds T_CPIN (CPIN state) = true) /\
  (forall v, holds T_CLCC (CSQ v) = false) /\
  (forall T, holds T OK = false /\ holds T SmsPrompt = false) /\
  (forall T v, holds T (Str v) = false).
Proof.
  assert (Hgen : forall (T : Tag) (r : AtResponse.t),
             holds T r = true <->
             holds_alternative T r = true \/ r = ParseError (id T)).
  { intros T r. unfold holds.
    destruct (holds_alternative T r) eqn:E.
    - split; auto.
    - split.
      + intros H. right. destruct r; try discriminate H.
        apply String.eqb_eq in H. now subst.
      + intros [H | H]; [discriminate H|]. subst r.
        apply String.eqb_refl. }
  split; [exact Hgen|].
  split.
  { intros r; destruct r; simpl; split; intros H; try discriminate H; auto. }
  split.
  { intros r; destruct r; simpl; split; intros H; try discriminate H; auto. }
  split.
  { intros r; destruct r; simpl; split; intros H;
      solve [ discriminate H | destruct H as [? H]; discriminate H
            | eauto ]. }
  split; [reflexivity|]. split; [reflexivity|].
  split; [intros c; repeat split; reflexivity|].
  split.
  { intros T r. rewrite Hgen, holds_alternative_value. reflexivity. }
  split; [reflexivity|]. split; [reflexivity|]. split; [reflexivity|].
  split; [reflexivity|].
  split; [intros T; split; destruct T; reflexivity|].
  intros T v. destruct T; reflexivity.
Qed.

(** ** The conversation *)

Lemma deliver_disarmed (c : AtChannel.Conversation) (rs : list AtResponse.t) :
  AtChannel.mFilter c = None ->
  AtChannel.deliver c rs = Some (repeat false (List.length rs), c).
Proof.
  intros Hc. induction rs as [|r rs IH]; simpl; [reflexivity|].
  unfold AtChannel.send. rewrite Hc. rewrite IH. reflexivity.
Qed.

Lemma claims_cons (b : bool) (flags : list bool) :
  claims (b :: flags) = ((if b then 1 else 0) + claims flags)%nat.
Proof. unfold claims. simpl. destruct b; simpl; reflexivity. Qed.

Lemma claims_repeat_false (n : nat) : claims (repeat false n) = 0%nat.
Proof. induction n; [reflexivity|]. simpl repeat. now rewrite claims_cons. Qed.

Lemma deliver_armed (f : AtChannel.FilterFunc) (rs : list AtResponse.t) :
  forall c,
    AtChannel.mFilter c = Some f -> AtChannel.mSink c = AtChannel.Pending ->
    exists flags c',
      AtChannel.deliver c rs = Some (flags, c') /\
      (claims flags <= 1)%nat /\
      ((forall r, In r rs -> f r = false) ->
         c' = c /\ claims flags = 0%nat) /\
      (AtChannel.mSink c' = AtChannel.Pending -> c' = c) /\
      conv_ok c'.
Proof.
  induction rs as [|r rs IH]; intros c Hf Hs.
  - exists [], c. simpl. repeat split; auto. intros _. exact Hs.
  - simpl. unfold AtChannel.send. rewrite Hf, Hs. simpl.
    destruct (f r) eqn:Efr.
    + rewrite deliver_disarmed by reflexivity.
      eexists _, _. split; [reflexivity|].
      rewrite claims_cons, claims_repeat_false. repeat split; auto.
      * exfalso. rewrite (H r) in Efr by (now left). discriminate Efr.
      * exfalso. rewrite (H r) in Efr by (now left). discriminate Efr.
      * intros H. discriminate H.
      * intros H. discriminate H.
    + destruct (IH c Hf Hs) as (flags & c' & Hd & Hle & Hnone & Hpend & Hok).
      rewrite Hd. exists (false :: flags), c'.
      split; [reflexivity|]. rewrite claims_cons. repeat split; auto.
      * apply Hnone. intros r' Hr'. apply H. now right.
      * apply Hnone. intros r' Hr'. apply H. now right.
Qed.

(** [send] on a conversation in a state the source can be in. *)
Lemma send_spec (c : AtChannel.Conversation) (response : AtResponse.t) :
  conv_ok c ->
  exists claimed c',
    AtChannel.send c response = Some (claimed, c') /\
    (claimed = true <->
       exists f, AtChannel.mFilter c = Some f /\ f response = true) /\
    (claimed = true ->
       AtChannel.mFilter c' = None /\
       AtChannel.mSink c' = AtChannel.Ready (Some response)) /\
    (claimed = false -> c' = c) /\
    conv_ok c'.
Proof.
  intros Hok. unfold AtChannel.send.
  destruct (AtChannel.mFilter c) as [f|] eqn:Ef.
  - destruct (f response) eqn:Efr.
    + rewrite Hok by (unfold armed; now rewrite Ef). simpl.
      eexists _, _. split; [reflexivity|].
      split; [split; [intros _; now exists f | reflexivity]|].
      split; [intros _; split; reflexivity|].
      split; [intros H; discriminate H|].
      intros H; discriminate H.
    + exists false, c. split; [reflexivity|].
      split; [split; [intros H; discriminate H|]|].
      { intros (f' & Hf' & Hr). congruence. }
      split; [intros H; discriminate H|].
      split; [reflexivity | exact Hok].
  - exists false, c. split; [reflexivity|].
    split; [split; [intros H; discriminate H|]|].
    { intros (f' & Hf' & _). discriminate Hf'. }
    split; [intros H; discriminate H|].
    split; [reflexivity | exact Hok].
Qed.

(** C5.  On a conversation in a state the source can be in, [send]
    answers "claimed" exactly when a filter is armed and accepts the
    response; it then disarms the filter and fulfils the promise with the
    response; otherwise it answers "not claimed" and changes nothing.
    Hence, however many responses [rs] follow the arming of a request, the
    promise is fulfilled at most once. *)
Theorem send_claims_iff_armed_and_accepted
    (c : AtChannel.Conversation) (response : AtResponse.t)
    (filter : AtChannel.FilterFunc) (rs : list AtResponse.t) :
  conv_ok c ->
  (exists claimed c',
      AtChannel.send c response = Some (claimed, c') /\
      (claimed = true <->
         exists f, AtChannel.mFilter c = Some f /\ f response = true) /\
      (claimed = true ->
         AtChannel.mFilter c' = None /\
         AtChannel.mSink c' = AtChannel.Ready (Some response)) /\
      (claimed = false -> c' = c) /\
      conv_ok c') /\
  (exists flags c',
      AtChannel.deliver (AtChannel.arm filter c) rs = Some (flags, c') /\
      (claims flags <= 1)%nat).
Proof.
  intros Hok. split.
  - now apply send_spec.
  - destruct (deliver_armed filter rs (AtChannel.arm filter c))
      as (flags & c' & Hd & Hle & _); [reflexivity | reflexivity |].
    now exists flags, c'.
Qed.

Lemma send_claims_iff_armed_and_accepted_witness :
  conv_ok demo_conversation /\
  exists flags c',
    AtChannel.deliver (AtChannel.arm isOK demo_conversation)
                      [RING; OK; OK] = Some (flags, c') /\
    (claims flags <= 1)%nat.
Proof.
  split.
  - intros _. reflexivity.
  - apply (send_claims_iff_armed_and_accepted
             demo_conversation OK isOK [RING; OK; OK]).
    intros _. reflexivity.
Defined.



(** ** The reader's fan-out *)

(** C2, as stated, fails: the conversation of [demo_channel] is armed for
    [OK], [send] claims the [OK] response, and [broadcastResponse] still
    calls the one subscriber with it. *)
Lemma claimed_response_still_broadcast :
  option_map fst (AtChannel.send (AtChannel.mConversation demo_channel) OK)
    = Some true /\
  option_map snd (AtChannel.broadcastResponse demo_channel OK)
    = Some [(0%nat, OK)].
Proof. split; reflexivity. Qed.

Lemma count_occ_map_NoDup {A : Type} (f : A -> nat) (l : list A) (x : A) :
  NoDup (map f l) -> In x l ->
  count_occ Nat.eq_dec (map f l) (f x) = 1%nat.
Proof.
  intros Hnd Hin.
  apply (proj1 (NoDup_count_occ' Nat.eq_dec (map f l))); [exact Hnd|].
  now apply in_map.
Qed.

(** C2, amended.  Every response the reader hands to [broadcastResponse]
    is first offered to the conversation and then, claimed or not, passed
    to every registered subscriber: the calls made are one per subscriber,
    in registration order, so exactly one for each when the subscribers
    are told apart by name.  The subscribers that return [false] are
    dropped afterwards. *)
Theorem broadcast_calls_every_subscriber_once
    (ch : AtChannel.t) (response : AtResponse.t) :
  conv_ok (AtChannel.mConversation ch) ->
  exists claimed c',
    AtChannel.send (AtChannel.mConversation ch) response
      = Some (claimed, c') /\
    AtChannel.broadcastResponse ch response =
      Some ({| AtChannel.mConversation := c';
               AtChannel.mResponseSinks :=
                 filter (fun sink => AtChannel.sink_fn sink response)
                        (AtChannel.mResponseSinks ch) |},
            map (fun sink => (AtChannel.sink_name sink, response))
                (AtChannel.mResponseSinks ch)) /\
    (NoDup (map AtChannel.sink_name (AtChannel.mResponseSinks ch)) ->
     forall sink, In sink (AtChannel.mResponseSinks ch) ->
       count_occ Nat.eq_dec
         (map fst (map (fun sink => (AtChannel.sink_name sink, response))
                       (AtChannel.mResponseSinks ch)))
         (AtChannel.sink_name sink) = 1%nat).
Proof.
  intros Hok.
  destruct (send_spec (AtChannel.mConversation ch) response Hok)
    as (claimed & c' & Hsend & _).
  exists claimed, c'. split; [exact Hsend|]. split.
  - unfold AtChannel.broadcastResponse. rewrite Hsend. reflexivity.
  - intros Hnd sink Hin. rewrite map_map. simpl.
    now apply count_occ_map_NoDup.
Qed.

Lemma broadcast_calls_every_subscriber_once_witness :
  conv_ok (AtChannel.mConversation demo_channel) /\
  exists claimed c',
    AtChannel.send (AtChannel.mConversation demo_channel) RING
      = Some (claimed, c') /\
    AtChannel.broadcastResponse demo_channel RING =
      Some ({| AtChannel.mConversation := c';
               AtChannel.mResponseSinks :=
                 filter (fun sink => AtChannel.sink_fn sink RING)
                        (AtChannel.mResponseSinks demo_channel) |},
            map (fun sink => (AtChannel.sink_name sink, RING))
                (AtChannel.mResponseSinks demo_channel)) /\
    (NoDup (map AtChannel.sink_name (AtChannel.mResponseSinks demo_channel)) ->
     forall sink, In sink (AtChannel.mResponseSinks demo_channel) ->
       count_occ Nat.eq_dec
         (map fst (map (fun sink => (AtChannel.sink_name sink, RING))
                       (AtChannel.mResponseSinks demo_channel)))
         (AtChannel.sink_name sink) = 1%nat).
Proof.
  split.
  - intros _. reflexivity.
  - apply (broadcast_calls_every_subscriber_once demo_channel RING).
    intros _. reflexivity.
Defined.

(** ** The command tables *)

Example multiline_entries_are :
  multiline_entries = [(8%nat, "COPS"); (12%nat, "CLCC");
                       (13%nat, "CCFCU"); (20%nat, "CGDCONT")].
Proof. reflexivity. Qed.

Lemma parse_tables_plus (plus percent caret : list ValueParser) (s : string) :
  sv.starts_with (String "+" s) kCMT = false ->
  sv.starts_with (String "+" s) kCDS = false ->
  parse_tables plus percent caret (String "+" s)
  = parseCmds_from (String "+" s) s plus false.
Proof.
  intros H1 H2. unfold parse_tables.
  change (sv.starts_with (String "+" s) kRING) with false.
  rewrite H1, H2. cbn [sv.front]. unfold parseCmds.
  now rewrite substr_from_1.
Qed.

(** An entry whose tag is that of the entry just before it is never the
    one that returns. *)
Lemma parseCmds_from_shadowed (str str1 : string) (vp vp' : ValueParser)
    (f : string -> AtResponsePtr) (vps : list ValueParser) (mi : bool) :
  cmd vp' = cmd vp ->
  parseCmds_from str str1
    (vp :: {| cmd := cmd vp'; parse_fn := f; multiline := multiline vp' |}
        :: vps) mi
  = parseCmds_from str str1 (vp :: vp' :: vps) mi.
Proof.
  intros E. cbn [parseCmds_from cmd]. rewrite E.
  destruct (sv.starts_with str1 (cmd vp)); [|reflexivity].
  destruct (sv.size str1 <=? sv.size (cmd vp))%nat; [reflexivity|].
  destruct (String.get (sv.size (cmd vp)) str1) as [c|]; [|reflexivity].
  destruct (Ascii.eqb c ":"); [reflexivity|].
  destruct (Ascii.eqb c kCR); reflexivity.
Qed.

(** ** No parser but [CPINR::parse] makes a CPINR response *)

Ltac by_cases_of_the_parser :=
  repeat match goal with
    | |- context [match ?e with _ => _ end] => destruct e
    end;
  exact I.

Lemma plus_parsers_not_CPINR :
  Forall (fun vp => forall s, not_CPINR (parse_fn vp s))
         (set_parse_fn 1 (fun _ => None) plusValueParsers).
Proof.
  unfold plusValueParsers, set_parse_fn, CMD.
  repeat (apply Forall_cons; [cbn [parse_fn]; intros s|]);
    try apply Forall_nil.
  all: try exact I.
  all: try (unfold CPIN_parse, CRSM_parse, CFUN_parse, CREG_parse,
             CGREG_parse, CEREG_parse, reg_parse, CTEC_parse, COPS_parse,
             WRMP_parse, CCSS_parse, CSQ_parse, CLCC_parse, CCFCU_parse,
             CCWA_parse, CUSATD_parse, CUSATP_parse, CUSATE_parse,
             CUSATT_parse, CUSATEND_parse, CGDCONT_parse, CGCONTRDP_parse,
             CLCK_parse, CSIM_parse, CCHC_parse, CLIP_parse, CLIR_parse,
             CMUT_parse, WSOS_parse, CSCA_parse, CSCB_parse, CMGS_parse,
             CMGW_parse, CmeError_parse, CmsError_parse,
             makeParseErrorFor, make;
            by_cases_of_the_parser).
Qed.

Lemma other_parsers_not_CPINR :
  Forall (fun vp => forall s, not_CPINR (parse_fn vp s)) percentValueParsers /\
  Forall (fun vp => forall s, not_CPINR (parse_fn vp s)) caretValueParsers /\
  (forall s, not_CPINR (snd (CMT_parse s))) /\
  (forall s, not_CPINR (snd (CDS_parse s))).
Proof.
  unfold percentValueParsers, caretValueParsers, CMD.
  repeat split;
    repeat (apply Forall_cons; [cbn [parse_fn]; intros s|]);
    try apply Forall_nil; try intros s;
    unfold CTZV_parse, CGFPCCFG_parse, MBAU_parse, CMT_parse, CDS_parse,
      makeParseErrorFor, make;
    by_cases_of_the_parser.
Qed.

Lemma parseCmds_from_not_CPINR (str str1 : string) (vps : list ValueParser) :
  Forall (fun vp => forall s, not_CPINR (parse_fn vp s)) vps ->
  forall mi, not_CPINR (snd (parseCmds_from str str1 vps mi)).
Proof.
  induction 1 as [|vp vps Hvp _ IH]; intros mi; cbn [parseCmds_from].
  - now destruct mi.
  - assert (Hp : forall k, not_CPINR (snd (parseCmds_payload str vp k))).
    { intros k. unfold parseCmds_payload.
      destruct (multiline vp).
      - destruct (sv.find str krOKr k); [apply Hvp | exact I].
      - destruct (sv.find_char str kCR k); [apply Hvp | exact I]. }
    destruct (sv.starts_with str1 (cmd vp)); [|apply IH].
    destruct (sv.size str1 <=? sv.size (cmd vp))%nat; [apply IH|].
    destruct (String.get (sv.size (cmd vp)) str1) as [c|]; [|apply IH].
    destruct (Ascii.eqb c ":"); [apply Hp|].
    destruct (Ascii.eqb c kCR); [apply Hp | apply IH].
Qed.

Lemma parse_tables_not_CPINR (plus percent caret : list ValueParser)
    (str : string) :
  Forall (fun vp => forall s, not_CPINR (parse_fn vp s)) plus ->
  Forall (fun vp => forall s, not_CPINR (parse_fn vp s)) percent ->
  Forall (fun vp => forall s, not_CPINR (parse_fn vp s)) caret ->
  not_CPINR (snd (parse_tables plus percent caret str)).
Proof.
  intros H1 H2 H3. unfold parse_tables.
  destruct other_parsers_not_CPINR as (_ & _ & Hcmt & Hcds).
  destruct (sv.starts_with str kRING); [exact I|].
  destruct (sv.starts_with str kCMT).
  { specialize (Hcmt (ltrim (sv.substr_from str (sv.size kCMT)))).
    destruct (CMT_parse (ltrim (sv.substr_from str (sv.size kCMT))))
      as [consumed response].
    destruct (consumed >? 0); [exact Hcmt | exact I]. }
  destruct (sv.starts_with str kCDS).
  { specialize (Hcds (ltrim (sv.substr_from str (sv.size kCDS)))).
    destruct (CDS_parse (ltrim (sv.substr_from str (sv.size kCDS))))
      as [consumed response].
    destruct (consumed >? 0); [exact Hcds | exact I]. }
  assert (Hrest :
            not_CPINR
              (snd (if sv.starts_with str kSmsPrompt
                    then (int_of_size (sv.size kSmsPrompt), make SmsPrompt)
                    else if sv.starts_with str kOKr
                    then (int_of_size (sv.size kOKr), make OK)
                    else if sv.starts_with str kERRORr
                    then (int_of_size (sv.size kERRORr), make ERROR)
                    else match sv.find str krOKr 0 with
                         | Some pos =>
                             (int_of_size (pos + sv.size krOKr),
                              make (Str (sv.substr str 0 pos)))
                         | None => (0, None)
                         end))).
  { destruct (sv.starts_with str kSmsPrompt); [exact I|].
    destruct (sv.starts_with str kOKr); [exact I|].
    destruct (sv.starts_with str kERRORr); [exact I|].
    destruct (sv.find str krOKr 0); exact I. }
  destruct (sv.front str) as [c|]; [|exact Hrest].
  destruct (Ascii.eqb_spec c "+") as [-> | N1];
    [apply parseCmds_from_not_CPINR; exact H1|].
  destruct (Ascii.eqb_spec c "%") as [-> | N2];
    [apply parseCmds_from_not_CPINR; exact H2|].
  destruct (Ascii.eqb_spec c "^") as [-> | N3];
    [apply parseCmds_from_not_CPINR; exact H3|].
  destruct c as [[] [] [] [] [] [] [] []];
    first [ exact Hrest | now elim N1 | now elim N2 | now elim N3 ].
Qed.

(** Whatever parser is registered in the second entry of the table, the
    result of [parse] is the same. *)
Lemma parse_with_CPINR_entry (f : string -> AtResponsePtr) (str : string) :
  parse_with 1 f str = parse str.
Proof.
  assert (E : parseCmds str (set_parse_fn 1 f plusValueParsers)
             = parseCmds str plusValueParsers).
  { unfold parseCmds.
    apply (parseCmds_from_shadowed str (sv.substr_from str 1)
             (CMD T_CPIN CPIN_parse false) (CMD T_CPINR CPINR_parse false) f).
    reflexivity. }
  unfold parse_with, parse, parse_tables. rewrite E. reflexivity.
Qed.

Lemma parse_not_CPINR (str : string) : not_CPINR (snd (parse str)).
Proof.
  rewrite <- (parse_with_CPINR_entry (fun _ => None)).
  apply parse_tables_not_CPINR.
  - exact plus_parsers_not_CPINR.
  - apply other_parsers_not_CPINR.
  - apply other_parsers_not_CPINR.
Qed.

(** C9.  [CPINR::id()] is the text of [CPIN::id()], so the second entry of
    the table repeats the tag of the first.  A line that begins with
    ["+CPINR:"] matches the text ["CPIN"] of both, is followed there by
    ['R'], matches no other entry, and is a terminal failure with no
    response.  Whatever the input, the result of [parse] does not depend
    on the parser registered in the second entry, so [CPINR::parse] is
    never the one called, and no response of [parse] is a CPINR. *)
Theorem CPINR_line_is_terminal
    (rest str : string) (f : string -> AtResponsePtr) :
  id T_CPINR = id T_CPIN /\
  nth_error plusValueParsers 1 = Some (CMD T_CPINR CPINR_parse false) /\
  parse ("+CPINR:" ++ rest) = (-1, None) /\
  parse ("+CPINR: 1,2,3" ++ CR) = (-1, None) /\
  parse_with 1 f str = parse str /\
  not_CPINR (snd (parse str)).
Proof.
  split; [reflexivity|]. split; [reflexivity|].
  split; [vm_compute; reflexivity|]. split; [vm_compute; reflexivity|].
  split; [apply parse_with_CPINR_entry | apply parse_not_CPINR].
Qed.

(** ** Multi-line replies *)

Lemma length_append (a b : string) :
  String.length (a ++ b) = (String.length a + String.length b)%nat.
Proof. induction a as [|c a IH]; simpl; [reflexivity | now rewrite IH]. Qed.

Lemma prefix_append (a b : string) : String.prefix a (a ++ b) = true.
Proof.
  induction a as [|c a IH]; simpl; [now destruct b|].
  destruct (ascii_dec c c) as [_ | N]; [exact IH | now elim N].
Qed.

Lemma get_append_lt (a b : string) (j : nat) :
  (j < String.length a)%nat -> String.get j (a ++ b) = String.get j a.
Proof.
  revert j. induction a as [|c a IH]; simpl; intros j Hj; [lia|].
  destruct j as [|j]; [reflexivity|]. apply IH. lia.
Qed.

Lemma get_append_eq (a b : string) (d : ascii) :
  String.get (String.length a) (a ++ String d b) = Some d.
Proof. induction a as [|c a IH]; simpl; [reflexivity | exact IH]. Qed.

Lemma substring_get (s t : string) (c : ascii) (i n : nat) :
  String.substring i (S n) s = String c t -> String.get i s = Some c.
Proof.
  revert i. induction s as [|b s IH]; intros i H.
  - destruct i; simpl in H; discriminate H.
  - destruct i as [|i]; simpl in H.
    + injection H as -> _. reflexivity.
    + simpl. now apply IH.
Qed.

Lemma get_substring (s : string) (c : ascii) (i : nat) :
  String.get i s = Some c -> String.substring i 1 s = String c "".
Proof.
  revert i. induction s as [|b s IH]; intros i H.
  - destruct i; simpl in H; discriminate H.
  - destruct i as [|i]; simpl in H.
    + injection H as ->. simpl. now destruct s.
    + simpl. now apply IH.
Qed.

Lemma substring_bound (s t : string) (i n : nat) :
  String.substring i n s = t -> String.length t = n -> (0 < n)%nat ->
  (i + n <= String.length s)%nat.
Proof.
  revert i n t. induction s as [|b s IH]; intros i n t H L Hn.
  - destruct i, n; simpl in H; subst t; simpl in L; try discriminate L; lia.
  - destruct i as [|i].
    + destruct n as [|n]; simpl in *; [lia|].
      subst t. simpl in L. injection L as L.
      destruct n as [|n]; [lia|].
      specialize (IH 0%nat (S n) _ eq_refl L). lia.
    + simpl in H. specialize (IH i n t H L Hn). simpl. lia.
Qed.

Lemma occurs_at_CR (s : string) (i : nat) :
  occurs_at krOKr s i -> String.get i s = Some kCR.
Proof. unfold occurs_at. intros H. exact (substring_get _ _ _ _ _ H). Qed.

Lemma occurs_at_bound (s : string) (i : nat) :
  occurs_at krOKr s i -> (i + 4 <= String.length s)%nat.
Proof.
  intros H. apply (substring_bound _ _ _ _ H eq_refl). simpl. lia.
Qed.

Lemma find_absent (s needle : string) (pos : nat) :
  (forall j, ~ occurs_at needle s j) -> sv.find s needle pos = None.
Proof.
  intros H. unfold sv.find.
  destruct (String.index pos needle s) as [m|] eqn:E; [|reflexivity].
  apply String.index_correct1 in E. now elim (H m).
Qed.

Lemma find_first (s needle : string) (pos i : nat) :
  needle <> EmptyString -> first_occurrence needle s i -> (pos <= i)%nat ->
  sv.find s needle pos = Some i.
Proof.
  intros Hne [Hocc Hfirst] Hpos. unfold sv.find.
  destruct (String.index pos needle s) as [m|] eqn:E.
  - pose proof (String.index_correct1 _ _ _ _ E) as Hm.
    pose proof (String.index_correct2 _ _ _ _ E) as Hbefore.
    destruct (Nat.lt_trichotomy m i) as [Hlt | [-> | Hgt]].
    + now elim (Hfirst m Hlt).
    + reflexivity.
    + now elim (Hbefore i Hpos Hgt).
  - now elim (String.index_correct3 _ i _ _ E Hne Hpos).
Qed.

Lemma parseCmds_from_skip (str str1 : string) (pre vps : list ValueParser)
    (mi : bool) :
  (forall v, In v pre -> sv.starts_with str1 (cmd v) = false) ->
  parseCmds_from str str1 (pre ++ vps) mi = parseCmds_from str str1 vps mi.
Proof.
  induction pre as [|v pre IH]; intros H; [reflexivity|].
  simpl. rewrite (H v) by (now left). apply IH.
  intros v' Hv'. apply H. now right.
Qed.

Lemma parseCmds_from_hit (str tag rest : string) (d : ascii)
    (vp : ValueParser) (vps : list ValueParser) (mi : bool) :
  cmd vp = tag ->
  parseCmds_from str (tag ++ String d rest) (vp :: vps) mi =
    if Ascii.eqb d ":" then
      parseCmds_payload str vp (1 + String.length tag + 1)
    else if Ascii.eqb d kCR then
      parseCmds_payload str vp (1 + String.length tag)
    else parseCmds_from str (tag ++ String d rest) vps mi.
Proof.
  intros <-. cbn [parseCmds_from]. unfold sv.starts_with, sv.size.
  rewrite prefix_append, length_append.
  replace (String.length (cmd vp) + String.length (String d rest)
           <=? String.length (cmd vp))%nat with false.
  2:{ symmetry. apply Nat.leb_gt. simpl. lia. }
  now rewrite get_append_eq.
Qed.

Lemma no_CR_get (s : string) (j : nat) : no_CR s -> String.get j s <> Some kCR.
Proof.
  intros H G. apply get_substring in G.
  refine (String.index_correct3 0 j _ _ H _ (Nat.le_0_l j) G).
  discriminate.
Qed.

Lemma terminator_after_tag (tag rest : string) (d : ascii) (i : nat) :
  no_CR ("+" ++ tag) ->
  occurs_at krOKr (tagged_line tag d rest) i ->
  (1 + String.length tag <= i)%nat /\
  (d <> kCR -> 1 + String.length tag + 1 <= i)%nat.
Proof.
  intros Hno Hocc. apply occurs_at_CR in Hocc.
  change (tagged_line tag d rest) with (("+" ++ tag) ++ String d rest) in Hocc.
  assert (L : String.length ("+" ++ tag) = (1 + String.length tag)%nat)
    by reflexivity.
  assert (H1 : (1 + String.length tag <= i)%nat).
  { destruct (Nat.le_gt_cases (1 + String.length tag) i) as [|Hlt]; [easy|].
    rewrite get_append_lt in Hocc by lia. now elim (no_CR_get _ _ Hno Hocc). }
  split; [exact H1|]. intros Hd.
  destruct (Nat.eq_dec i (1 + String.length tag)) as [-> | Hne]; [|lia].
  rewrite <- L, get_append_eq in Hocc. injection Hocc as ->. now elim Hd.
Qed.

(** What [parse] does with a line that starts with a multi-line tag found
    in the table after entries [pre] that do not match. *)
Lemma multiline_dispatch (tag rest : string) (d : ascii)
    (pre post percent caret : list ValueParser) (vp : ValueParser) :
  cmd vp = tag -> multiline vp = true ->
  (forall v, In v pre ->
     sv.starts_with (tag ++ String d rest) (cmd v) = false) ->
  sv.starts_with (tagged_line tag d rest) kCMT = false ->
  sv.starts_with (tagged_line tag d rest) kCDS = false ->
  no_CR ("+" ++ tag) ->
  d = ":"%char \/ d = kCR ->
  Z.of_nat (String.length (tagged_line tag d rest)) <= INT32_MAX ->
  ((forall j, ~ occurs_at krOKr (tagged_line tag d rest) j) ->
   parse_tables (pre ++ vp :: post) percent caret (tagged_line tag d rest)
   = (0, None)) /\
  (forall i, first_occurrence krOKr (tagged_line tag d rest) i ->
   parse_tables (pre ++ vp :: post) percent caret (tagged_line tag d rest)
   = (Z.of_nat i + 4,
      parse_fn vp (sv.substr (tagged_line tag d rest) 0 (i + 1)))).
Proof.
  intros Hcmd Hml Hpre Hcmt Hcds Hno Hd Hlen.
  assert (E : parse_tables (pre ++ vp :: post) percent caret
                (tagged_line tag d rest)
              = parseCmds_payload (tagged_line tag d rest) vp
                  (if Ascii.eqb d ":" then 1 + String.length tag + 1
                   else 1 + String.length tag)%nat).
  { change (tagged_line tag d rest) with (String "+" (tag ++ String d rest))
      in *.
    rewrite parse_tables_plus by assumption.
    rewrite parseCmds_from_skip by assumption.
    rewrite (parseCmds_from_hit _ tag rest d vp post false Hcmd).
    destruct Hd as [-> | ->]; reflexivity. }
  rewrite E. unfold parseCmds_payload. rewrite Hml. split.
  - intros Habs. now rewrite find_absent.
  - intros i Hi.
    destruct (terminator_after_tag tag rest d i Hno (proj1 Hi)) as [H1 H2].
    rewrite (find_first _ _ _ i); [| discriminate | exact Hi |].
    + unfold int_of_size, sv.size. rewrite wrap32_small.
      * f_equal. change (String.length krOKr) with 4%nat. lia.
      * pose proof (occurs_at_bound _ _ (proj1 Hi)) as Hb.
        change (String.length krOKr) with 4%nat.
        unfold INT32_MIN, INT32_MAX in *. lia.
    + destruct Hd as [-> | ->]; simpl.
      * apply H2. discriminate.
      * exact H1.
Qed.

Ltac no_earlier_match :=
  let v := fresh "v" in
  let Hv := fresh "Hv" in
  intros v Hv; cbn [firstn In plusValueParsers] in Hv;
  repeat (destruct Hv as [<- | Hv]; [reflexivity|]);
  contradiction.

Ltac multiline_case vp k P :=
  exists vp;
  split; [reflexivity|]; split; [reflexivity|]; split; [reflexivity|];
  split; [vm_compute; reflexivity|];
  split; intros Hocc; split;
  [ refine (proj1 (multiline_dispatch _ _ _ (firstn k plusValueParsers)
                     (skipn (S k) plusValueParsers) percentValueParsers
                     caretValueParsers vp _ _ _ _ _ _ _ _) Hocc)
  | refine (proj1 (multiline_dispatch _ _ _ (firstn k plusValueParsers)
                     (skipn (S k) plusValueParsers) percentValueParsers
                     caretValueParsers
                     {| cmd := cmd vp; parse_fn := P;
                        multiline := multiline vp |}
                     _ _ _ _ _ _ _ _) Hocc)
  | refine (proj2 (multiline_dispatch _ _ _ (firstn k plusValueParsers)
                     (skipn (S k) plusValueParsers) percentValueParsers
                     caretValueParsers vp _ _ _ _ _ _ _ _) _ Hocc)
  | refine (proj2 (multiline_dispatch _ _ _ (firstn k plusValueParsers)
                     (skipn (S k) plusValueParsers) percentValueParsers
                     caretValueParsers
                     {| cmd := cmd vp; parse_fn := P;
                        multiline := multiline vp |}
                     _ _ _ _ _ _ _ _) _ Hocc) ];
  first [ reflexivity | assumption | no_earlier_match ].

(** C6.  Take any tag registered with the multi-line flag (they are COPS,
    CLCC, CCFCU and CGDCONT) and any line of at most [INT32_MAX] bytes that
    starts with the sigil and that tag followed by a colon or by a line
    terminator.  If ["\rOK\r"] occurs nowhere in the line, [parse] returns
    incomplete, and does so whatever parser [P] is put in place of the
    tag's own: the payload parser is not called.  If ["\rOK\r"] first
    occurs at index [i], [parse] consumes [i + 4] bytes and the response is
    what the tag's parser returns on the first [i + 1] bytes (likewise for
    any [P] in its place).  The sigil and tag with nothing after them are
    incomplete too. *)
Theorem multiline_reply_waits_for_terminator
    (k : nat) (tag rest : string) (d : ascii)
    (P : string -> AtResponsePtr) (i : nat) :
  In (k, tag) multiline_entries ->
  d = ":"%char \/ d = kCR ->
  Z.of_nat (String.length (tagged_line tag d rest)) <= INT32_MAX ->
  exists vp,
    nth_error plusValueParsers k = Some vp /\
    cmd vp = tag /\ multiline vp = true /\
    parse ("+" ++ tag) = (0, None) /\
    ((forall j, ~ occurs_at krOKr (tagged_line tag d rest) j) ->
       parse (tagged_line tag d rest) = (0, None) /\
       parse_with k P (tagged_line tag d rest) = (0, None)) /\
    (first_occurrence krOKr (tagged_line tag d rest) i ->
       parse (tagged_line tag d rest) =
         (Z.of_nat i + 4,
          parse_fn vp (sv.substr (tagged_line tag d rest) 0 (i + 1))) /\
       parse_with k P (tagged_line tag d rest) =
         (Z.of_nat i + 4, P (sv.substr (tagged_line tag d rest) 0 (i + 1)))).
Proof.
  intros Hin Hd Hlen.
  rewrite multiline_entries_are in Hin.
  destruct Hin as [E | [E | [E | [E | []]]]]; injection E as <- <-.
  - multiline_case (CMD T_COPS COPS_parse true) 8%nat P.
  - multiline_case (CMD T_CLCC CLCC_parse true) 12%nat P.
  - multiline_case (CMD T_CCFCU CCFCU_parse true) 13%nat P.
  - multiline_case (CMD T_CGDCONT CGDCONT_parse true) 20%nat P.
Qed.

Lemma terminated_CLCC_line_first_occurrence :
  first_occurrence krOKr (tagged_line "CLCC" ":" (" 1,0" ++ CR ++ "OK" ++ CR)) 10.
Proof.
  split; [reflexivity|].
  intros j Hj.
  do 10 (destruct j as [|j]; [intros H; vm_compute in H; discriminate H|]).
  lia.
Qed.

Lemma multiline_reply_waits_for_terminator_witness :
  exists vp,
    nth_error plusValueParsers 12 = Some vp /\
    cmd vp = "CLCC" /\ multiline vp = true /\
    parse (tagged_line "CLCC" ":" (" 1,0" ++ CR ++ "OK" ++ CR)) =
      (14, parse_fn vp ("+CLCC: 1,0" ++ CR)) /\
    parse_with 12 (fun _ => None)
      (tagged_line "CLCC" ":" (" 1,0" ++ CR ++ "OK" ++ CR)) = (14, None).
Proof.
  destruct (multiline_reply_waits_for_terminator
              12 "CLCC" (" 1,0" ++ CR ++ "OK" ++ CR) ":"
              (fun _ => None) 10)
    as (vp & Hn & Hc & Hm & _ & _ & Hfirst).
  - simpl. right. left. reflexivity.
  - left. reflexivity.
  - vm_compute. intros H. discriminate H.
  - exists vp. repeat split; try assumption;
      apply Hfirst; exact terminated_CLCC_line_first_occurrence.
Defined.

(** ** The id allocator *)

Lemma desc_app_last (l : list Z) (m : Z) :
  desc (l ++ [m]) -> desc l /\ forall x, In x l -> x > m.
Proof.
  unfold desc. induction l as [|y l IH]; simpl; intros H.
  - split; [constructor | intros x []].
  - apply StronglySorted_inv in H. destruct H as [Hs Hall].
    destruct (IH Hs) as [Hl Hgt]. split.
    + constructor; [exact Hl|].
      rewrite Forall_forall in *. intros x Hx. apply Hall.
      apply in_or_app. now left.
    + intros x [-> | Hx]; [|now apply Hgt].
      rewrite Forall_forall in Hall. apply Hall.
      apply in_or_app. right. now left.
Qed.

Lemma desc_head (x : Z) (l : list Z) :
  desc (x :: l) -> desc l /\ forall y, In y l -> y < x.
Proof.
  intros H. apply StronglySorted_inv in H. destruct H as [Hs Hall].
  split; [exact Hs|]. rewrite Forall_forall in Hall.
  intros y Hy. specialize (Hall y Hy). lia.
Qed.

Lemma set_insert_In (id : Z) (l : list Z) (x : Z) :
  In x (IdAllocator.set_insert id l) <-> x = id \/ In x l.
Proof.
  induction l as [|y l IH]; simpl.
  - split; intros [H | H]; auto.
  - destruct (id >? y) eqn:E1; [simpl; intuition|].
    destruct (id =? y) eqn:E2.
    + apply Z.eqb_eq in E2. subst y. simpl. intuition.
    + simpl. rewrite IH. intuition.
Qed.

Lemma set_insert_desc (id : Z) (l : list Z) :
  desc l -> desc (IdAllocator.set_insert id l).
Proof.
  unfold desc. induction l as [|y l IH]; simpl; intros H.
  - repeat constructor.
  - destruct (id >? y) eqn:E1.
    + apply Z.gtb_lt in E1. constructor; [exact H|].
      apply StronglySorted_inv in H. destruct H as [_ Hall].
      rewrite Forall_forall in *. intros x [-> | Hx]; [lia|].
      specialize (Hall x Hx). lia.
    + destruct (id =? y) eqn:E2; [exact H|].
      apply Z.eqb_neq in E2.
      assert (id < y) by (rewrite Z.gtb_ltb in E1; apply Z.ltb_ge in E1; lia).
      apply StronglySorted_inv in H. destruct H as [Hs Hall].
      constructor; [now apply IH|].
      rewrite Forall_forall in *. intros x Hx.
      apply set_insert_In in Hx. destruct Hx as [-> | Hx]; [lia|].
      now apply Hall.
Qed.

(** [get] when an id is free: the least free id leaves the free list. *)
Lemma get_reuses_least (a : IdAllocator.t) :
  desc (IdAllocator.mReturnedIds a) ->
  IdAllocator.mReturnedIds a <> [] ->
  exists m,
    fst (IdAllocator.get a) = m /\
    In m (IdAllocator.mReturnedIds a) /\
    (forall x, In x (IdAllocator.mReturnedIds a) -> m <= x) /\
    IdAllocator.mIdGenerator (snd (IdAllocator.get a))
      = IdAllocator.mIdGenerator a /\
    desc (IdAllocator.mReturnedIds (snd (IdAllocator.get a))) /\
    (forall x, In x (IdAllocator.mReturnedIds (snd (IdAllocator.get a))) <->
               In x (IdAllocator.mReturnedIds a) /\ x <> m).
Proof.
  intros Hd Hne.
  destruct (exists_last Hne) as (l & m & E).
  unfold IdAllocator.get. rewrite E in *.
  rewrite rev_app_distr, removelast_last. simpl.
  destruct (desc_app_last l m Hd) as [Hl Hgt].
  exists m. repeat split; auto.
  - apply in_or_app. right. now left.
  - intros x Hx. apply in_app_or in Hx. destruct Hx as [Hx | [<- | []]].
    + specialize (Hgt x Hx). lia.
    + lia.
  - apply in_or_app. now left.
  - specialize (Hgt x H). lia.
  - intros [Hx Hm]. apply in_app_or in Hx.
    destruct Hx as [Hx | [<- | []]]; [exact Hx | now elim Hm].
Qed.

(** The loop of [put], on an ordered free list that lies between 1 and
    the counter. *)
Lemma compact_spec (ids : list Z) :
  forall g,
    desc ids -> (forall x, In x ids -> 0 < x <= g) -> 0 <= g <= INT32_MAX ->
    let '(ids', g') := IdAllocator.compact ids g in
    0 <= g' <= g /\
    desc ids' /\
    (forall k, g' < k <= g -> In k ids) /\
    ~ In g' ids /\
    (forall x, In x ids' <-> In x ids /\ x < g').
Proof.
  induction ids as [|i rest IH]; intros g Hd Hr Hg; simpl.
  - split; [lia|]. split; [exact Hd|]. split; [intros k Hk; lia|].
    split; [intros []|]. intros x. split; [intros [] | intros [[] _]].
  - destruct (desc_head i rest Hd) as [Hd' Hlt].
    destruct (i =? g) eqn:E.
    + apply Z.eqb_eq in E. subst i.
      assert (Hpos : 0 < g) by (apply (Hr g); now left).
      rewrite wrap32_small by (unfold INT32_MIN, INT32_MAX in *; lia).
      specialize (IH (g - 1) Hd').
      destruct (IdAllocator.compact rest (g - 1)) as [ids' g'].
      destruct IH as (Hg' & Hd'' & Hk & Hnot & Hx).
      * intros x Hx. specialize (Hlt x Hx).
        assert (0 < x <= g) by (apply Hr; now right). lia.
      * lia.
      * split; [lia|]. split; [exact Hd''|]. split; [|split].
        -- intros k Hk'. destruct (Z.eq_dec k g) as [-> | Hne]; [now left|].
           right. apply Hk. lia.
        -- intros [E | Hin]; [lia | now apply Hnot].
        -- intros x. rewrite Hx. split.
           ++ intros [Hin Hlt']. split; [now right | exact Hlt'].
           ++ intros [[<- | Hin] Hlt']; [lia | split; assumption].
    + apply Z.eqb_neq in E.
      assert (Hig : i < g)
        by (assert (0 < i <= g) by (apply Hr; now left); lia).
      split; [lia|]. split; [exact Hd|]. split; [intros k Hk; lia|]. split.
      * intros [-> | Hin]; [lia|]. specialize (Hlt g Hin). lia.
      * intros x. split; [|intros [H _]; exact H]. intros Hin.
        split; [exact Hin|].
        destruct Hin as [<- | Hin]; [lia|]. specialize (Hlt x Hin). lia.
Qed.

(** [put] of the id the counter stands at. *)
Lemma put_counter (a : IdAllocator.t) :
  desc (IdAllocator.mReturnedIds a) ->
  (forall x, In x (IdAllocator.mReturnedIds a) ->
             0 < x < IdAllocator.mIdGenerator a) ->
  0 < IdAllocator.mIdGenerator a <= INT32_MAX ->
  let a' := IdAllocator.put (IdAllocator.mIdGenerator a) a in
  0 <= IdAllocator.mIdGenerator a' < IdAllocator.mIdGenerator a /\
  desc (IdAllocator.mReturnedIds a') /\
  (forall k, IdAllocator.mIdGenerator a' < k < IdAllocator.mIdGenerator a ->
             In k (IdAllocator.mReturnedIds a)) /\
  ~ In (IdAllocator.mIdGenerator a') (IdAllocator.mReturnedIds a) /\
  (forall x, In x (IdAllocator.mReturnedIds a') <->
             In x (IdAllocator.mReturnedIds a) /\
             x < IdAllocator.mIdGenerator a').
Proof.
  intros Hd Hr Hg. unfold IdAllocator.put. rewrite Z.eqb_refl.
  rewrite wrap32_small by (unfold INT32_MIN, INT32_MAX in *; lia).
  pose proof (compact_spec (IdAllocator.mReturnedIds a)
                (IdAllocator.mIdGenerator a - 1) Hd) as H.
  destruct (IdAllocator.compact (IdAllocator.mReturnedIds a)
              (IdAllocator.mIdGenerator a - 1)) as [ids' g'].
  destruct H as (Hg' & Hd' & Hk & Hnot & Hx).
  - intros x Hin. specialize (Hr x Hin). lia.
  - lia.
  - simpl. split; [lia|]. split; [exact Hd'|]. split; [|split].
    + intros k Hk'. apply Hk. lia.
    + exact Hnot.
    + exact Hx.
Qed.

(** [put] of any other id. *)
Lemma put_other (id : Z) (a : IdAllocator.t) :
  id <> IdAllocator.mIdGenerator a ->
  IdAllocator.mIdGenerator (IdAllocator.put id a)
    = IdAllocator.mIdGenerator a /\
  (forall x, In x (IdAllocator.mReturnedIds (IdAllocator.put id a)) <->
             x = id \/ In x (IdAllocator.mReturnedIds a)) /\
  (desc (IdAllocator.mReturnedIds a) ->
   desc (IdAllocator.mReturnedIds (IdAllocator.put id a))).
Proof.
  intros Hne. unfold IdAllocator.put.
  apply Z.eqb_neq in Hne. rewrite Hne. simpl.
  split; [reflexivity|]. split; [apply set_insert_In | apply set_insert_desc].
Qed.

(** [get] when no id is free. *)
Lemma get_fresh (a : IdAllocator.t) :
  IdAllocator.mReturnedIds a = [] ->
  0 <= IdAllocator.mIdGenerator a < INT32_MAX ->
  IdAllocator.get a =
    (IdAllocator.mIdGenerator a + 1,
     {| IdAllocator.mReturnedIds := [];
        IdAllocator.mIdGenerator := IdAllocator.mIdGenerator a + 1 |}).
Proof.
  intros E Hg. unfold IdAllocator.get. rewrite E. simpl.
  rewrite wrap32_small by (unfold INT32_MIN, INT32_MAX in *; lia).
  reflexivity.
Qed.

Lemma in_remove_iff (id x : Z) (l : list Z) :
  In x (remove Z.eq_dec id l) <-> In x l /\ x <> id.
Proof.
  split; [apply in_remove | intros [H1 H2]; now apply in_in_remove].
Qed.

(** The invariant holds at the start and is kept by every step of a
    client that uses the allocator as intended. *)
Lemma alloc_inv_step (o : IdAllocator.op) (st : IdAllocator.t * list Z) :
  alloc_inv st -> IdAllocator.op_ok o st = true ->
  alloc_inv (IdAllocator.step o st).
Proof.
  destruct st as [a out]. intros (Hd & Hfree & Hg & Hout & Hdisj) Hok.
  destruct o as [|id]; simpl in *.
  - destruct (IdAllocator.mReturnedIds a) as [|y l] eqn:E.
    + apply Z.ltb_lt in Hok.
      rewrite get_fresh by (auto; lia). simpl.
      split; [constructor|]. split; [intros x []|]. split; [lia|].
      split; [|intros x []].
      intros x [<- | Hx]; [lia|]. specialize (Hout x Hx). lia.
    + destruct (get_reuses_least a) as (m & Hm & Hin & Hmin & Hgen & Hd' & Hx);
        [now rewrite E | rewrite E; discriminate |].
      destruct (IdAllocator.get a) as [id a']. simpl in *. subst id.
      rewrite E in *.
      split; [exact Hd'|]. split.
      { intros x H. apply Hx in H. rewrite Hgen. apply Hfree. tauto. }
      split; [now rewrite Hgen|]. split.
      { intros x [<- | H]; rewrite Hgen.
        - specialize (Hfree _ Hin). lia.
        - now apply Hout. }
      intros x H [<- | H'].
      * apply Hx in H. tauto.
      * apply Hx in H. now apply (Hdisj x).
  - destruct (in_dec Z.eq_dec id out) as [Hin | ]; [|discriminate Hok].
    destruct (Z.eq_dec id (IdAllocator.mIdGenerator a)) as [-> | Hne].
    + destruct (put_counter a Hd Hfree) as (Hg' & Hd' & Hk & Hnot & Hx).
      { specialize (Hout _ Hin). lia. }
      split; [exact Hd'|]. split.
      { intros x H. apply Hx in H. destruct H as [H1 H2].
        specialize (Hfree x H1). lia. }
      split; [lia|]. split.
      { intros x H. apply in_remove_iff in H. destruct H as [H1 H2].
        specialize (Hout x H1).
        split; [lia|].
        destruct (Z_le_gt_dec x
                    (IdAllocator.mIdGenerator
                       (IdAllocator.put (IdAllocator.mIdGenerator a) a)))
          as [Hle | Hgt]; [exact Hle|].
        exfalso. apply (Hdisj x); [apply Hk; lia | exact H1]. }
      intros x H H'. apply Hx in H. apply in_remove_iff in H'.
      now apply (Hdisj x).
    + destruct (put_other id a Hne) as (Hgen & Hx & Hd').
      split; [now apply Hd'|]. rewrite Hgen. split.
      { intros x H. apply Hx in H. destruct H as [-> | H]; [|now apply Hfree].
        specialize (Hout _ Hin). lia. }
      split; [exact Hg|]. split.
      { intros x H. apply in_remove_iff in H. now apply Hout. }
      intros x H H'. apply Hx in H. apply in_remove_iff in H'.
      destruct H as [-> | H]; [tauto | now apply (Hdisj x)].
Qed.

Lemma alloc_inv_run_from (ops : list IdAllocator.op) :
  forall st,
    alloc_inv st -> IdAllocator.ops_ok_from ops st = true ->
    alloc_inv (fold_left (fun st o => IdAllocator.step o st) ops st).
Proof.
  induction ops as [|o ops IH]; intros st Hinv Hok; simpl in *; [exact Hinv|].
  apply andb_prop in Hok. destruct Hok as [H1 H2].
  apply IH; [now apply alloc_inv_step | exact H2].
Qed.

Lemma alloc_inv_run (ops : list IdAllocator.op) :
  IdAllocator.ops_ok ops = true -> alloc_inv (IdAllocator.run ops).
Proof.
  intros H. apply alloc_inv_run_from; [|exact H].
  simpl. split; [constructor|]. split; [intros x []|].
  split; [unfold INT32_MAX; lia|]. split; intros x [].
Qed.

(** C7, as stated, fails.  After [get, get, put 1] the next [get] hands
    out 1 again, which makes 1 the most recently issued id while the
    counter stands at 2.  [put 1] then leaves the counter at 2 and adds 1
    to the free list, and [put 2], of an id that is not the most recently
    issued, lowers the counter. *)
Lemma put_compares_with_the_counter :
  IdAllocator.run [IdAllocator.Get; IdAllocator.Get; IdAllocator.Put 1]
    = ({| IdAllocator.mReturnedIds := [1];
          IdAllocator.mIdGenerator := 2 |}, [2]) /\
  IdAllocator.get {| IdAllocator.mReturnedIds := [1];
                     IdAllocator.mIdGenerator := 2 |}
    = (1, {| IdAllocator.mReturnedIds := [];
             IdAllocator.mIdGenerator := 2 |}) /\
  IdAllocator.put 1 {| IdAllocator.mReturnedIds := [];
                       IdAllocator.mIdGenerator := 2 |}
    = {| IdAllocator.mReturnedIds := [1]; IdAllocator.mIdGenerator := 2 |} /\
  IdAllocator.put 2 {| IdAllocator.mReturnedIds := [];
                       IdAllocator.mIdGenerator := 2 |}
    = {| IdAllocator.mReturnedIds := []; IdAllocator.mIdGenerator := 1 |}.
Proof. repeat split; reflexivity. Qed.

(** C7, amended.  After every sequence of operations in which [put] is
    only given ids that are out, and the counter is not driven past
    [INT32_MAX]: [get] returns the least free id when there is one, and
    otherwise moves the counter up by one and returns it; [put] of the id
    equal to the counter lowers the counter below it and below every free
    id that follows consecutively, taking those off the free list; [put]
    of any other id adds that id to the free list. *)
Theorem allocator_get_and_put (ops : list IdAllocator.op) (id : Z) :
  IdAllocator.ops_ok ops = true ->
  allocator_contract (fst (IdAllocator.run ops)) id.
Proof.
  intros Hok. pose proof (alloc_inv_run ops Hok) as Hinv.
  destruct (IdAllocator.run ops) as [a out]. simpl.
  destruct Hinv as (Hd & Hfree & Hg & Hout & Hdisj).
  unfold allocator_contract. split; [|split; [|split]].
  - intros E Hlt. apply get_fresh; [exact E | lia].
  - intros Hne.
    destruct (get_reuses_least a Hd Hne)
      as (m & Hm & Hin & Hmin & Hgen & _ & Hx).
    exists m. repeat split; auto; now apply Hx.
  - intros -> Hpos.
    destruct (put_counter a Hd Hfree) as (Hg' & _ & Hk & Hnot & Hx); [lia|].
    repeat split; auto; try lia; now apply Hx.
  - intros Hne. destruct (put_other id a Hne) as (Hgen & Hx & _).
    split; [exact Hgen | exact Hx].
Qed.

Lemma allocator_get_and_put_witness :
  allocator_contract
    (fst (IdAllocator.run
            [IdAllocator.Get; IdAllocator.Get; IdAllocator.Get;
             IdAllocator.Get; IdAllocator.Put 2; IdAllocator.Put 3]))
    4.
Proof.
  apply (allocator_get_and_put
           [IdAllocator.Get; IdAllocator.Get; IdAllocator.Get;
            IdAllocator.Get; IdAllocator.Put 2; IdAllocator.Put 3] 4).
  reflexivity.
Defined.

(** * Further properties of the code *)

(** ** The bookkeeping of [Parser] *)

Lemma skip_blanks_ok (s : string) :
  forall o, (snd (Parser.skip_blanks s o)
             + String.length (fst (Parser.skip_blanks s o))
             = o + String.length s)%nat.
Proof.
  induction s as [|b s IH]; intros o; simpl; [reflexivity|].
  destruct (char_value b <=? char_value " "); simpl; [|reflexivity].
  rewrite IH. lia.
Qed.

Lemma skip_lit_ok (lit s s' : string) (o o' : nat) :
  Parser.skip_lit lit s o = Some (s', o') ->
  (o' + String.length s' = o + String.length s)%nat.
Proof.
  revert lit o. induction s as [|b s IH]; intros [|c lit] o H; simpl in H.
  - now injection H as <- <-.
  - discriminate H.
  - now injection H as <- <-.
  - destruct (Ascii.eqb c b); [|discriminate H].
    apply IH in H. simpl. lia.
Qed.

Lemma from_chars_digits_len (s body : string) (neg : bool) (signlen : nat)
    (base : Z) :
  (String.length s = signlen + String.length body)%nat ->
  fc_ec (from_chars_digits s body neg signlen base) = errc_ok ->
  (fc_len (from_chars_digits s body neg signlen base)
   + String.length (fc_rest (from_chars_digits s body neg signlen base))
   = String.length s)%nat.
Proof.
  intros Hs. unfold from_chars_digits.
  destruct (take_digits base body 0 0) as [[v cnt] rest] eqn:E.
  apply take_digits_length in E.
  destruct cnt as [|cnt]; [intros H; discriminate H|].
  destruct ((INT32_MIN <=? (if neg then - v else v))
            && ((if neg then - v else v) <=? INT32_MAX));
    simpl; [intros _; lia | intros H; discriminate H].
Qed.

Lemma from_chars_len (s : string) (base : Z) :
  fc_ec (from_chars s base) = errc_ok ->
  (fc_len (from_chars s base) + String.length (fc_rest (from_chars s base))
   = String.length s)%nat.
Proof.
  destruct (from_chars_cases s base) as [-> | (r & -> & ->)].
  - now apply from_chars_digits_len.
  - now apply from_chars_digits_len.
Qed.

Lemma split_at_ok (e : ascii) (s a b : string) :
  Parser.split_at e s = Some (a, b) ->
  (String.length a + 1 + String.length b = String.length s)%nat.
Proof.
  revert a b. induction s as [|c s IH]; intros a b H; simpl in H.
  - discriminate H.
  - destruct (Ascii.eqb c e).
    + injection H as <- <-. simpl. lia.
    + destruct (Parser.split_at e s) as [[a' b']|]; [|discriminate H].
      injection H as <- <-. specialize (IH _ _ eq_refl). simpl. lia.
Qed.

Lemma apply_op_ok (total : nat) (o : parser_op) (p : Parser.t) :
  parser_ok total p -> parser_ok total (apply_op o p).
Proof.
  destruct p as [[s|] off]; unfold parser_ok; cbn [Parser.mBegin Parser.mOffset];
    intros H.
  2:{ destruct o; exact I. }
  destruct o as [c|lit| |base|e|e|]; cbn [apply_op].
  - unfold Parser.skip. cbn [Parser.mBegin Parser.mOffset].
    destruct (Ascii.eqb c " ").
    + pose proof (skip_blanks_ok s off) as L.
      destruct (Parser.skip_blanks s off) as [s' o']. simpl in *. lia.
    + destruct s as [|b s]; [exact I|].
      destruct (Ascii.eqb b c); simpl in *; [lia | exact I].
  - unfold Parser.skips. cbn [Parser.mBegin Parser.mOffset].
    destruct (Parser.skip_lit lit s off) as [[s' o']|] eqn:E; [|exact I].
    apply skip_lit_ok in E. simpl. lia.
  - destruct s as [|b s]; simpl in *; [exact I | lia].
  - unfold Parser.int_base. cbn [Parser.mBegin Parser.mOffset].
    destruct s as [|b s]; [exact I|].
    pose proof (from_chars_len (String b s) base) as L.
    destruct (fc_ec (from_chars (String b s) base)); [|exact I|exact I].
    specialize (L eq_refl). cbn [fst Parser.mBegin Parser.mOffset]. lia.
  - unfold Parser.view. cbn [Parser.mBegin Parser.mOffset].
    destruct (Parser.split_at e s) as [[a b]|] eqn:E; [|exact I].
    apply split_at_ok in E. cbn [fst Parser.mBegin Parser.mOffset]. lia.
  - unfold Parser.str, Parser.view. cbn [Parser.mBegin Parser.mOffset].
    destruct (Parser.split_at e s) as [[a b]|] eqn:E; [|exact I].
    apply split_at_ok in E. cbn. lia.
  - cbn. lia.
Qed.

Lemma apply_op_failed (o : parser_op) (p : Parser.t) :
  Parser.matchSoFar p = false -> apply_op o p = p.
Proof.
  destruct p as [[s|] off]; intros H; [discriminate H|].
  destruct o; reflexivity.
Qed.

Lemma apply_ops_ok (total : nat) (ops : list parser_op) :
  forall p, parser_ok total p -> parser_ok total (apply_ops ops p).
Proof.
  induction ops as [|o ops IH]; intros p H; [exact H|].
  apply IH. now apply apply_op_ok.
Qed.

Lemma apply_ops_failed (ops : list parser_op) :
  forall p, Parser.matchSoFar p = false -> apply_ops ops p = p.
Proof.
  induction ops as [|o ops IH]; intros p H; [reflexivity|].
  simpl. rewrite apply_op_failed by exact H. now apply IH.
Qed.

(** X1.  Whatever calls are chained on a [Parser] over a payload of less
    than [2^31] bytes: once one of them has failed the parser stays as it
    is, failed, and [consumed()] is [-1]; as long as none has failed,
    [consumed()] is the length of the payload minus what is left of it. *)
Theorem parser_consumed_counts_bytes_taken
    (str : string) (ops1 ops2 : list parser_op) :
  Z.of_nat (String.length str) <= INT32_MAX ->
  let p := apply_ops ops1 (Parser.make str) in
  (Parser.matchSoFar p = true ->
     Parser.consumed p = Z.of_nat (String.length str) - Z.of_nat (plen p) /\
     (plen p <= String.length str)%nat) /\
  (Parser.matchSoFar p = false ->
     apply_ops ops2 p = p /\ Parser.consumed p = -1).
Proof.
  intros Hlen p.
  assert (Hok : parser_ok (String.length str) p).
  { apply apply_ops_ok. unfold parser_ok. simpl. lia. }
  split; intros Hm.
  - unfold parser_ok, Parser.matchSoFar, Parser.consumed, plen in *.
    destruct (Parser.mBegin p) as [s|]; [|discriminate Hm].
    unfold int_of_size. rewrite wrap32_small
      by (unfold INT32_MIN, INT32_MAX in *; lia).
    split; lia.
  - split; [now apply apply_ops_failed|].
    unfold Parser.matchSoFar, Parser.consumed in *.
    now destruct (Parser.mBegin p).
Qed.

Lemma parser_consumed_counts_bytes_taken_witness :
  let p := apply_ops [OpInt 10; OpSkip kCR; OpStr kCR]
                     (Parser.make ("12" ++ CR ++ "0A0b" ++ CR ++ "OK")) in
  (Parser.matchSoFar p = true ->
     Parser.consumed p = 10 - Z.of_nat (plen p) /\ (plen p <= 10)%nat) /\
  (Parser.matchSoFar p = false ->
     apply_ops [OpRemaining] p = p /\ Parser.consumed p = -1).
Proof.
  apply (parser_consumed_counts_bytes_taken
           ("12" ++ CR ++ "0A0b" ++ CR ++ "OK")
           [OpInt 10; OpSkip kCR; OpStr kCR] [OpRemaining]).
  vm_compute. intros H. discriminate H.
Defined.

(** ** What [parse] reports as consumed *)

Ltac by_cases_nonnull :=
  repeat match goal with
    | |- context [match ?e with _ => _ end] => destruct e
    end;
  discriminate.

Lemma plus_parsers_nonnull :
  Forall (fun vp => forall s, parse_fn vp s <> None) plusValueParsers.
Proof.
  unfold plusValueParsers, CMD.
  repeat (apply Forall_cons; [cbn [parse_fn]; intros s|]);
    try apply Forall_nil.
  all: unfold CPIN_parse, CPINR_parse, CRSM_parse, CFUN_parse, CREG_parse,
         CGREG_parse, CEREG_parse, reg_parse, CTEC_parse, COPS_parse,
         WRMP_parse, CCSS_parse, CSQ_parse, CLCC_parse, CCFCU_parse,
         CCWA_parse, CUSATD_parse, CUSATP_parse, CUSATE_parse,
         CUSATT_parse, CUSATEND_parse, CGDCONT_parse, CGCONTRDP_parse,
         CLCK_parse, CSIM_parse, CCHC_parse, CLIP_parse, CLIR_parse,
         CMUT_parse, WSOS_parse, CSCA_parse, CSCB_parse, CMGS_parse,
         CMGW_parse, CmeError_parse, CmsError_parse,
         makeParseErrorFor, make;
       by_cases_nonnull.
Qed.

Lemma other_parsers_nonnull :
  Forall (fun vp => forall s, parse_fn vp s <> None) percentValueParsers /\
  Forall (fun vp => forall s, parse_fn vp s <> None) caretValueParsers.
Proof.
  unfold percentValueParsers, caretValueParsers, CMD.
  split;
    repeat (apply Forall_cons; [cbn [parse_fn]; intros s|]);
    try apply Forall_nil;
    unfold CTZV_parse, CGFPCCFG_parse, MBAU_parse, makeParseErrorFor, make;
    by_cases_nonnull.
Qed.

Lemma find_bound (s needle : string) (pos m : nat) :
  sv.find s needle pos = Some m -> needle <> EmptyString ->
  (m + String.length needle <= String.length s)%nat.
Proof.
  unfold sv.find. intros H Hne. apply String.index_correct1 in H.
  apply (substring_bound _ _ _ _ H eq_refl).
  destruct needle; [now elim Hne | simpl; lia].
Qed.

Lemma length_ltrim (s : string) :
  (String.length (ltrim s) <= String.length s)%nat.
Proof.
  induction s as [|c s IH]; simpl; [lia|].
  destruct (char_value c <=? 32); simpl; lia.
Qed.

Lemma length_substr_from (s : string) (pos : nat) :
  (String.length (sv.substr_from s pos) <= String.length s - pos)%nat.
Proof. apply length_substring_le. Qed.

Lemma int_of_size_small (n : nat) :
  Z.of_nat n <= INT32_MAX -> int_of_size n = Z.of_nat n.
Proof.
  intros H. unfold int_of_size. apply wrap32_small.
  unfold INT32_MIN, INT32_MAX in *. lia.
Qed.

Lemma parseCmds_payload_ok (str : string) (vp : ValueParser) (k : nat) :
  Z.of_nat (String.length str) <= INT32_MAX ->
  (forall s, parse_fn vp s <> None) ->
  result_ok str (parseCmds_payload str vp k).
Proof.
  intros Hlen Hnn. unfold parseCmds_payload, result_ok.
  destruct (multiline vp).
  - destruct (sv.find str krOKr k) as [m|] eqn:E; [|now left].
    apply find_bound in E; [|discriminate]. right. right.
    destruct (parse_fn vp (sv.substr str 0 (m + 1))) as [r|] eqn:Er;
      [|now elim (Hnn _ Er)].
    exists (m + sv.size krOKr)%nat, r.
    change (sv.size krOKr) with 4%nat in *.
    change (String.length krOKr) with 4%nat in *.
    rewrite int_of_size_small by lia. split; [reflexivity | lia].
  - destruct (sv.find_char str kCR k) as [m|] eqn:E; [|now left].
    apply find_bound in E; [|discriminate]. right. right.
    destruct (parse_fn vp (ltrim (sv.substr str k (m - k)))) as [r|] eqn:Er;
      [|now elim (Hnn _ Er)].
    exists (m + 1)%nat, r. simpl in E.
    rewrite int_of_size_small by lia. split; [reflexivity | lia].
Qed.

Lemma parseCmds_from_ok (str str1 : string) (vps : list ValueParser) :
  Z.of_nat (String.length str) <= INT32_MAX ->
  Forall (fun vp => forall s, parse_fn vp s <> None) vps ->
  forall mi, result_ok str (parseCmds_from str str1 vps mi).
Proof.
  intros Hlen. induction 1 as [|vp vps Hvp _ IH]; intros mi;
    cbn [parseCmds_from].
  - destruct mi; [now left | right; now left].
  - destruct (sv.starts_with str1 (cmd vp)); [|apply IH].
    destruct (sv.size str1 <=? sv.size (cmd vp))%nat; [apply IH|].
    destruct (String.get (sv.size (cmd vp)) str1) as [c|]; [|apply IH].
    destruct (Ascii.eqb c ":"); [now apply parseCmds_payload_ok|].
    destruct (Ascii.eqb c kCR); [now apply parseCmds_payload_ok | apply IH].
Qed.

Lemma fst_int_base_old (base o1 o2 : Z) (p : Parser.t) :
  fst (Parser.int_base base o1 p) = fst (Parser.int_base base o2 p).
Proof.
  unfold Parser.int_base. destruct (Parser.mBegin p) as [[|b s]|];
    try reflexivity.
  now destruct (fc_ec (from_chars (String b s) base)).
Qed.

(** The header and the PDU line of an incoming SMS: [consumed()] of the
    parser that read them. *)
Lemma sms_lines_consumed (s : string) :
  Z.of_nat (String.length s) <= INT32_MAX ->
  let p := fst (Parser.str kCR ""
                  (Parser.skip kCR (fst (Parser.int (-1) (Parser.make s))))) in
  Parser.matchSoFar p = true ->
  exists n, Parser.consumed p = Z.of_nat n /\
            (0 < n <= String.length s)%nat.
Proof.
  intros Hlen p Hm.
  assert (Hok : parser_ok (String.length s) p).
  { unfold p, Parser.int. rewrite (fst_int_base_old 10 (-1) 0).
    apply (apply_op_ok _ (OpStr kCR)). apply (apply_op_ok _ (OpSkip kCR)).
    apply (apply_op_ok _ (OpInt 10)). unfold parser_ok. simpl. lia. }
  assert (Hlt : (plen p < String.length s)%nat).
  { destruct s as [|c s]; [discriminate Hm|].
    assert (Hmore : Parser.hasMore (Parser.make (String c s)) = true)
      by reflexivity.
    change (String.length (String c s))
      with (plen (Parser.make (String c s))).
    unfold p. plen_chain Hmore. }
  unfold parser_ok, Parser.matchSoFar, Parser.consumed, plen in *.
  destruct (Parser.mBegin p) as [rest|]; [|discriminate Hm].
  exists (Parser.mOffset p). rewrite int_of_size_small by lia.
  split; [reflexivity | lia].
Qed.

Lemma CMT_parse_ok (s : string) :
  Z.of_nat (String.length s) <= INT32_MAX ->
  CMT_parse s = (0, None) \/ fst (CMT_parse s) = -1 \/
  exists n r, CMT_parse s = (Z.of_nat n, Some r) /\
              (0 < n <= String.length s)%nat.
Proof.
  intros Hlen. unfold CMT_parse. name_steps.
  pose proof (sms_lines_consumed s Hlen) as H. cbv zeta in H.
  destruct (Parser.matchSoFar
              (Parser.skip kCR (fst (Parser.int (-1) (Parser.make s)))));
    [|right; now left].
  destruct (Parser.matchSoFar
              (fst (Parser.str kCR ""
                      (Parser.skip kCR
                         (fst (Parser.int (-1) (Parser.make s))))))) eqn:E2;
    [|now left].
  destruct (hex2bin _) as [pdu|]; [|right; now left].
  destruct (H eq_refl) as (n & -> & Hn).
  right. right. now exists n, (CMT pdu v).
Qed.

Lemma CDS_parse_ok (s : string) :
  Z.of_nat (String.length s) <= INT32_MAX ->
  CDS_parse s = (0, None) \/ fst (CDS_parse s) = -1 \/
  exists n r, CDS_parse s = (Z.of_nat n, Some r) /\
              (0 < n <= String.length s)%nat.
Proof.
  intros Hlen. unfold CDS_parse. name_steps.
  pose proof (sms_lines_consumed s Hlen) as H. cbv zeta in H.
  destruct (Parser.matchSoFar
              (Parser.skip kCR (fst (Parser.int (-1) (Parser.make s)))));
    [|right; now left].
  destruct (Parser.matchSoFar
              (fst (Parser.str kCR ""
                      (Parser.skip kCR
                         (fst (Parser.int (-1) (Parser.make s))))))) eqn:E2;
    [|now left].
  destruct (hex2bin _) as [pdu|]; [|right; now left].
  destruct (H eq_refl) as (n & -> & Hn).
  right. right. now exists n, (CDS pdu v).
Qed.

Lemma prefix_length (p s : string) :
  String.prefix p s = true -> (String.length p <= String.length s)%nat.
Proof.
  revert s. induction p as [|a p IH]; intros [|b s] H; simpl in *;
    try lia; try discriminate.
  destruct (ascii_dec a b); [|discriminate]. apply IH in H. lia.
Qed.

Lemma sms_branch_ok (str trimmed : string) (res : ParseResult) :
  Z.of_nat (String.length str) <= INT32_MAX ->
  (String.length trimmed <= String.length str)%nat ->
  (res = (0, None) \/ fst res = -1 \/
   exists n r, res = (Z.of_nat n, Some r) /\
               (0 < n <= String.length trimmed)%nat) ->
  result_ok str
    (let '(consumed, response) := res in
     if consumed >? 0 then
       (wrap32 (consumed + Z.of_nat (sv.size str)
                - Z.of_nat (sv.size trimmed)), response)
     else (consumed, None)).
Proof.
  intros Hlen Hle [-> | [H | (n & r & -> & Hn)]].
  - now left.
  - destruct res as [c r]. simpl in H. subst c. right. now left.
  - right. right. unfold sv.size.
    exists (n + String.length str - String.length trimmed)%nat, r.
    destruct (Z.of_nat n >? 0) eqn:E; [|lia].
    rewrite wrap32_small
      by (unfold INT32_MIN, INT32_MAX in *; lia).
    split; [f_equal; lia | lia].
Qed.

Lemma literal_ok (str lit : string) (r : AtResponsePtr) :
  Z.of_nat (String.length str) <= INT32_MAX ->
  sv.starts_with str lit = true -> lit <> EmptyString -> r <> None ->
  result_ok str (int_of_size (sv.size lit), r).
Proof.
  intros Hlen Hp Hne Hr. apply prefix_length in Hp.
  destruct r as [r|]; [|now elim Hr]. right. right.
  exists (String.length lit), r. unfold sv.size.
  rewrite int_of_size_small by lia.
  split; [reflexivity|]. destruct lit; [now elim Hne | simpl in *; lia].
Qed.

Lemma parse_result_shape (str : string) :
  Z.of_nat (String.length str) <= INT32_MAX ->
  result_ok str (parse str).
Proof.
  intros Hlen. unfold parse, parse_tables.
  destruct (sv.starts_with str kRING) eqn:E1;
    [apply literal_ok; auto; discriminate|].
  destruct (sv.starts_with str kCMT) eqn:E2.
  { apply prefix_length in E2.
    pose proof (length_ltrim (sv.substr_from str (sv.size kCMT))) as L1.
    pose proof (length_substr_from str (sv.size kCMT)) as L2.
    apply sms_branch_ok; [assumption | lia | apply CMT_parse_ok; lia]. }
  destruct (sv.starts_with str kCDS) eqn:E3.
  { apply prefix_length in E3.
    pose proof (length_ltrim (sv.substr_from str (sv.size kCDS))) as L1.
    pose proof (length_substr_from str (sv.size kCDS)) as L2.
    apply sms_branch_ok; [assumption | lia | apply CDS_parse_ok; lia]. }
  assert (Hplus := parseCmds_from_ok str (sv.substr_from str 1) _ Hlen
                     plus_parsers_nonnull false).
  assert (Hother := other_parsers_nonnull).
  assert (Hrest :
    result_ok str
      (if sv.starts_with str kSmsPrompt then
         (int_of_size (sv.size kSmsPrompt), make SmsPrompt)
       else if sv.starts_with str kOKr then
         (int_of_size (sv.size kOKr), make OK)
       else if sv.starts_with str kERRORr then
         (int_of_size (sv.size kERRORr), make ERROR)
       else
         match sv.find str krOKr 0 with
         | Some pos =>
             (int_of_size (pos + sv.size krOKr),
              make (Str (sv.substr str 0 pos)))
         | None => (0, None)
         end)).
  { destruct (sv.starts_with str kSmsPrompt) eqn:E4;
      [apply literal_ok; auto; discriminate|].
    destruct (sv.starts_with str kOKr) eqn:E5;
      [apply literal_ok; auto; discriminate|].
    destruct (sv.starts_with str kERRORr) eqn:E6;
      [apply literal_ok; auto; discriminate|].
    destruct (sv.find str krOKr 0) as [pos|] eqn:E7; [|now left].
    apply find_bound in E7; [|discriminate]. right. right.
    change (String.length krOKr) with 4%nat in E7.
    exists (pos + 4)%nat, (Str (sv.substr str 0 pos)).
    change (sv.size krOKr) with 4%nat.
    rewrite int_of_size_small by lia.
    split; [reflexivity | lia]. }
  destruct (sv.front str) as [c|]; [|exact Hrest].
  destruct (ascii_dec c "+") as [->|N1]; [exact Hplus|].
  destruct (ascii_dec c "%") as [->|N2].
  { apply parseCmds_from_ok; [assumption|]. apply Hother. }
  destruct (ascii_dec c "^") as [->|N3].
  { apply parseCmds_from_ok; [assumption|]. apply Hother. }
  destruct c as [[] [] [] [] [] [] [] []]; try exact Hrest;
    congruence.
Qed.

(** X2.  On an input whose length fits an [int], [AtResponse::parse]
    returns one of three things: [{0, nullptr}] (more bytes needed),
    [{-1, nullptr}] (nothing in the tables matches), or a response
    together with a count [n] of consumed bytes with
    [0 < n <= str.size()].  So a response is present exactly when the
    count is positive, and the count never exceeds the input. *)
Theorem parse_result_within_input (str : string) :
  Z.of_nat (String.length str) <= INT32_MAX ->
  result_ok str (parse str).
Proof. apply parse_result_shape. Qed.

Lemma parse_result_within_input_witness :
  result_ok ("+CSQ: 12,99" ++ CR) (parse ("+CSQ: 12,99" ++ CR)).
Proof.
  apply (parse_result_within_input ("+CSQ: 12,99" ++ CR)).
  vm_compute. discriminate.
Defined.

(** ** The allocator never loses or doubles an id *)

Lemma NoDup_remove_Z (id : Z) (l : list Z) :
  NoDup l -> NoDup (remove Z.eq_dec id l).
Proof.
  induction 1 as [|x l Hx Hl IH]; simpl; [constructor|].
  destruct (Z.eq_dec id x); [exact IH|].
  constructor; [|exact IH]. intros H. apply in_remove_iff in H. tauto.
Qed.

Lemma alloc_full_step (o : IdAllocator.op) (st : IdAllocator.t * list Z) :
  alloc_inv st -> alloc_full st -> IdAllocator.op_ok o st = true ->
  alloc_full (IdAllocator.step o st).
Proof.
  destruct st as [a out].
  intros (Hd & Hfree & Hg & Hout & Hdisj) (Hnd & Hall) Hok.
  destruct o as [|id];
    [simpl in * | unfold IdAllocator.step, alloc_full, IdAllocator.op_ok in *].
  - destruct (IdAllocator.mReturnedIds a) as [|y l] eqn:E.
    + apply Z.ltb_lt in Hok.
      rewrite get_fresh by (auto; lia). simpl. split.
      * constructor; [|exact Hnd]. intros H. specialize (Hout _ H). lia.
      * intros k Hk. right.
        destruct (Z.eq_dec k (IdAllocator.mIdGenerator a + 1)) as [->|N];
          [now left|].
        right. destruct (Hall k) as [[]|H]; [lia | exact H].
    + destruct (get_reuses_least a) as (m & Hm & Hin & Hmin & Hgen & Hd' & Hx);
        [now rewrite E | rewrite E; discriminate |].
      destruct (IdAllocator.get a) as [id a']. simpl in *. subst id.
      rewrite E in *. split.
      * constructor; [|exact Hnd]. now apply Hdisj.
      * intros k Hk. rewrite Hgen in Hk.
        destruct (Z.eq_dec k m) as [->|N]; [right; now left|].
        destruct (Hall k Hk) as [H|H].
        -- left. apply Hx. split; [exact H | exact N].
        -- right. now right.
  - destruct (in_dec Z.eq_dec id out) as [Hin | ]; [|discriminate Hok].
    split; [now apply NoDup_remove_Z|].
    destruct (Z.eq_dec id (IdAllocator.mIdGenerator a)) as [-> | Hne].
    + destruct (put_counter a Hd Hfree) as (Hg' & Hd' & Hk & Hnot & Hx).
      { specialize (Hout _ Hin). lia. }
      intros k Hk'. destruct (Hall k) as [H|H]; [lia | |].
      * left. apply Hx. split; [exact H|].
        destruct (Z.eq_dec k
                    (IdAllocator.mIdGenerator
                       (IdAllocator.put (IdAllocator.mIdGenerator a) a)))
          as [->|N]; [now elim Hnot | lia].
      * right. apply in_remove_iff. split; [exact H | lia].
    + destruct (put_other id a Hne) as (Hgen & Hx & Hd').
      intros k Hk. rewrite Hgen in Hk.
      destruct (Z.eq_dec k id) as [->|N]; [left; apply Hx; now left|].
      destruct (Hall k Hk) as [H|H].
      * left. apply Hx. now right.
      * right. apply in_remove_iff. tauto.
Qed.

Lemma alloc_full_run_from (ops : list IdAllocator.op) :
  forall st,
    alloc_inv st -> alloc_full st -> IdAllocator.ops_ok_from ops st = true ->
    alloc_full (fold_left (fun st o => IdAllocator.step o st) ops st).
Proof.
  induction ops as [|o ops IH]; intros st Hinv Hfull Hok; simpl in *;
    [exact Hfull|].
  apply andb_prop in Hok. destruct Hok as [H1 H2].
  apply IH; [now apply alloc_inv_step | now apply alloc_full_step | exact H2].
Qed.

Lemma alloc_inv_init : alloc_inv (IdAllocator.init, []).
Proof.
  simpl. unfold INT32_MAX.
  repeat split; try constructor; try lia; intros x [].
Qed.

Lemma alloc_full_run (ops : list IdAllocator.op) :
  IdAllocator.ops_ok ops = true -> alloc_full (IdAllocator.run ops).
Proof.
  intros H. apply alloc_full_run_from; [apply alloc_inv_init | | exact H].
  split; [constructor | simpl; intros k Hk; lia].
Qed.

(** X3.  [IdAllocator::get] never hands out an id that is in use.  After
    every sequence of [get] and [put] in which [put] is only given ids
    that are out (and the counter stays below [INT32_MAX]), the ids that
    are out are pairwise distinct, and the id the next [get] returns is
    positive and is none of them. *)
Theorem get_never_returns_an_id_in_use (ops : list IdAllocator.op) :
  IdAllocator.ops_ok (ops ++ [IdAllocator.Get]) = true ->
  let '(a, out) := IdAllocator.run ops in
  NoDup out /\
  0 < fst (IdAllocator.get a) /\
  ~ In (fst (IdAllocator.get a)) out.
Proof.
  intros Hok.
  assert (Hfull := alloc_full_run _ Hok).
  assert (Hinv := alloc_inv_run _ Hok).
  unfold IdAllocator.run in *. rewrite fold_left_app in Hfull, Hinv.
  simpl in Hfull, Hinv.
  destruct (fold_left _ ops _) as [a out].
  simpl in Hfull, Hinv.
  destruct (IdAllocator.get a) as [id a']. simpl.
  destruct Hfull as [Hnd _].
  destruct Hinv as (_ & _ & _ & Hout & _).
  inversion Hnd as [|x l Hnotin Hnd' Heq]; subst.
  split; [exact Hnd'|]. split; [|exact Hnotin].
  specialize (Hout id (or_introl eq_refl)). lia.
Qed.

Lemma get_never_returns_an_id_in_use_witness :
  let '(a, out) :=
    IdAllocator.run [IdAllocator.Get; IdAllocator.Get; IdAllocator.Get;
                     IdAllocator.Put 2] in
  NoDup out /\
  0 < fst (IdAllocator.get a) /\
  ~ In (fst (IdAllocator.get a)) out.
Proof.
  apply (get_never_returns_an_id_in_use
           [IdAllocator.Get; IdAllocator.Get; IdAllocator.Get;
            IdAllocator.Put 2]).
  reflexivity.
Defined.

(** X4.  No id is lost: after every such sequence, the ids from 1 to the
    counter are exactly the free ids together with the ids that are out,
    and no id is both. *)
Theorem allocator_accounts_for_every_id (ops : list IdAllocator.op) (k : Z) :
  IdAllocator.ops_ok ops = true ->
  let '(a, out) := IdAllocator.run ops in
  (0 < k <= IdAllocator.mIdGenerator a <->
   In k (IdAllocator.mReturnedIds a) \/ In k out) /\
  ~ (In k (IdAllocator.mReturnedIds a) /\ In k out).
Proof.
  intros Hok.
  assert (Hfull := alloc_full_run _ Hok).
  assert (Hinv := alloc_inv_run _ Hok).
  destruct (IdAllocator.run ops) as [a out].
  destruct Hfull as [_ Hall].
  destruct Hinv as (_ & Hfree & _ & Hout & Hdisj).
  split; [split|].
  - apply Hall.
  - intros [H|H]; [specialize (Hfree k H); lia | now apply Hout].
  - intros [H1 H2]. now apply (Hdisj k).
Qed.

Lemma allocator_accounts_for_every_id_witness :
  let '(a, out) :=
    IdAllocator.run [IdAllocator.Get; IdAllocator.Get; IdAllocator.Get;
                     IdAllocator.Put 2] in
  (0 < 2 <= IdAllocator.mIdGenerator a <->
   In 2 (IdAllocator.mReturnedIds a) \/ In 2 out) /\
  ~ (In 2 (IdAllocator.mReturnedIds a) /\ In 2 out).
Proof.
  apply (allocator_accounts_for_every_id
           [IdAllocator.Get; IdAllocator.Get; IdAllocator.Get;
            IdAllocator.Put 2] 2).
  reflexivity.
Defined.

(** X5.  Once every id has been given back the allocator is as new: the
    loop of [put] has taken every free id off the free list and the
    counter is back at 0, whatever the order of the [put]s. *)
Theorem allocator_drained_is_initial (ops : list IdAllocator.op) :
  IdAllocator.ops_ok ops = true ->
  snd (IdAllocator.run ops) = [] ->
  fst (IdAllocator.run ops) = IdAllocator.init.
Proof.
  intros Hok.
  assert (Hfull := alloc_full_run _ Hok).
  assert (Hinv := alloc_inv_run _ Hok).
  destruct (IdAllocator.run ops) as [[free gen] out]. simpl.
  intros ->. simpl in *.
  destruct Hfull as [_ Hall].
  destruct Hinv as (_ & Hfree & Hg & _ & _).
  assert (gen = 0) as ->.
  { destruct (Z.eq_dec gen 0) as [|N]; [assumption|].
    destruct (Hall gen) as [H|[]]; [lia|]. specialize (Hfree _ H). lia. }
  destruct free as [|x l]; [reflexivity|].
  specialize (Hfree x (or_introl eq_refl)). lia.
Qed.

Lemma allocator_drained_is_initial_witness :
  fst (IdAllocator.run
         [IdAllocator.Get; IdAllocator.Get; IdAllocator.Get;
          IdAllocator.Put 2; IdAllocator.Put 1; IdAllocator.Put 3])
  = IdAllocator.init.
Proof.
  apply (allocator_drained_is_initial
           [IdAllocator.Get; IdAllocator.Get; IdAllocator.Get;
            IdAllocator.Put 2; IdAllocator.Put 1; IdAllocator.Put 3]);
    reflexivity.
Defined.

(** ** Hexadecimal text and bytes *)

Lemma forall_below (P : Z -> bool) (n : nat) :
  forallb P (map Z.of_nat (seq 0 n)) = true ->
  forall x, 0 <= x < Z.of_nat n -> P x = true.
Proof.
  intros H x Hx. rewrite forallb_forall in H. apply H.
  apply in_map_iff. exists (Z.to_nat x). split; [lia|].
  apply in_seq. lia.
Qed.

Lemma byte_through_hex (bb : Z) :
  is_byte bb ->
  Z.lor (Z.shiftl (hex2bin1 (bin2hex1 (Z.shiftr bb 4))) 4)
        (hex2bin1 (bin2hex1 (Z.land bb 15))) = bb.
Proof.
  intros H. apply Z.eqb_eq.
  apply (forall_below
           (fun bb =>
              Z.lor (Z.shiftl (hex2bin1 (bin2hex1 (Z.shiftr bb 4))) 4)
                    (hex2bin1 (bin2hex1 (Z.land bb 15))) =? bb) 256);
    [vm_compute; reflexivity | exact H].
Qed.

Lemma hex2bin1_range (c : ascii) : 0 <= hex2bin1 c < 16.
Proof.
  unfold hex2bin1.
  destruct ((48 <=? char_code c) && (char_code c <=? 57)) eqn:E1; [lia|].
  destruct ((97 <=? char_code c) && (char_code c <=? 102)) eqn:E2; [lia|].
  destruct ((65 <=? char_code c) && (char_code c <=? 70)) eqn:E3; lia.
Qed.

Lemma nibbles_through_hex (x y : Z) :
  0 <= x < 16 -> 0 <= y < 16 ->
  Z.shiftr (Z.lor (Z.shiftl x 4) y) 4 = x /\
  Z.land (Z.lor (Z.shiftl x 4) y) 15 = y /\
  is_byte (Z.lor (Z.shiftl x 4) y).
Proof.
  intros Hx Hy.
  assert (H : ((Z.shiftr (Z.lor (Z.shiftl x 4) y) 4 =? x) &&
               (Z.land (Z.lor (Z.shiftl x 4) y) 15 =? y) &&
               (0 <=? Z.lor (Z.shiftl x 4) y) &&
               (Z.lor (Z.shiftl x 4) y <? 256)) = true).
  { revert y Hy.
    apply (forall_below
             (fun x => forallb
                (fun y =>
                   (Z.shiftr (Z.lor (Z.shiftl x 4) y) 4 =? x) &&
                   (Z.land (Z.lor (Z.shiftl x 4) y) 15 =? y) &&
                   (0 <=? Z.lor (Z.shiftl x 4) y) &&
                   (Z.lor (Z.shiftl x 4) y <? 256))
                (map Z.of_nat (seq 0 16))) 16) in Hx;
      [|vm_compute; reflexivity].
    intros y Hy. revert y Hy. apply (forall_below _ 16). exact Hx. }
  unfold is_byte. lia.
Qed.

Lemma upper_hex_through_bin (c : ascii) :
  upper_hex c = true -> bin2hex1 (hex2bin1 c) = c.
Proof.
  destruct c as [[] [] [] [] [] [] [] []]; intros H;
    solve [reflexivity | discriminate H].
Qed.

Lemma bin2hex_length (b : list Z) :
  String.length (bin2hex b) = (2 * List.length b)%nat.
Proof. induction b as [|x b IH]; simpl; [reflexivity | lia]. Qed.

Lemma hex2binImpl_bin2hex (b : list Z) :
  Forall is_byte b -> hex2binImpl (bin2hex b) = b.
Proof.
  induction 1 as [|x b Hx _ IH]; cbn [bin2hex hex2binImpl]; [reflexivity|].
  now rewrite byte_through_hex, IH.
Qed.

(** X6.  Bytes survive the trip through text: for every sequence of
    [uint8_t] values, [bin2hex] writes two characters per byte and
    [hex2bin] of that text succeeds and gives the bytes back. *)
Theorem hex2bin_inverts_bin2hex (b : list Z) :
  Forall is_byte b ->
  String.length (bin2hex b) = (2 * List.length b)%nat /\
  hex2bin (bin2hex b) = Some b.
Proof.
  intros H. split; [apply bin2hex_length|].
  unfold hex2bin. rewrite bin2hex_length.
  replace (Nat.odd (2 * List.length b)) with false.
  - now rewrite hex2binImpl_bin2hex.
  - symmetry. rewrite <- Nat.negb_even, Nat.even_mul. reflexivity.
Qed.

Lemma hex2bin_inverts_bin2hex_witness :
  String.length (bin2hex [0; 127; 255; 16]) = 8%nat /\
  hex2bin (bin2hex [0; 127; 255; 16]) = Some [0; 127; 255; 16].
Proof.
  apply (hex2bin_inverts_bin2hex [0; 127; 255; 16]).
  repeat constructor; unfold is_byte; lia.
Defined.

Lemma hex2binImpl_spec (n : nat) :
  forall hex,
    (String.length hex <= n)%nat ->
    Nat.odd (String.length hex) = false ->
    Forall is_byte (hex2binImpl hex) /\
    List.length (hex2binImpl hex) = Nat.div2 (String.length hex) /\
    (all_chars upper_hex hex = true -> bin2hex (hex2binImpl hex) = hex).
Proof.
  induction n as [|n IH]; intros [|a [|c r]] Hlen Hodd;
    try (simpl; repeat split; solve [constructor | reflexivity]);
    try (simpl in Hlen; lia); try discriminate Hodd.
  cbn [hex2binImpl].
  destruct (IH r) as (F & L & R);
    [simpl in Hlen; lia | exact Hodd |].
  destruct (nibbles_through_hex (hex2bin1 a) (hex2bin1 c)
              (hex2bin1_range a) (hex2bin1_range c)) as (N1 & N2 & N3).
  split; [now constructor|]. split; [simpl; now rewrite L|].
  intros Hall. cbn [all_chars] in Hall.
  apply andb_prop in Hall. destruct Hall as [Ha Hall].
  apply andb_prop in Hall. destruct Hall as [Hc Hall].
  cbn [bin2hex]. rewrite N1, N2, R by exact Hall.
  now rewrite !upper_hex_through_bin.
Qed.

(** X7.  On text of even length [hex2bin] succeeds whatever the
    characters are: it gives one [uint8_t] value per two characters, and
    when the text is made of the digits [0-9A-F] only, [bin2hex] of the
    bytes is the text again. *)
Theorem hex2bin_of_even_length_text (hex : string) :
  Nat.odd (String.length hex) = false ->
  exists bin,
    hex2bin hex = Some bin /\
    Forall is_byte bin /\
    List.length bin = Nat.div2 (String.length hex) /\
    (all_chars upper_hex hex = true -> bin2hex bin = hex).
Proof.
  intros Hodd. exists (hex2binImpl hex). unfold hex2bin. rewrite Hodd.
  split; [reflexivity|].
  now apply (hex2binImpl_spec (String.length hex)).
Qed.

Lemma hex2bin_of_even_length_text_witness :
  exists bin,
    hex2bin "07A1f0" = Some bin /\
    Forall is_byte bin /\
    List.length bin = Nat.div2 (String.length "07A1f0") /\
    (all_chars upper_hex "07A1f0" = true -> bin2hex bin = "07A1f0").
Proof.
  apply (hex2bin_of_even_length_text "07A1f0"). reflexivity.
Defined.

(** ** Deliveries to an armed conversation *)

Lemma find_app_Some_or {A : Type} (f : A -> bool) (l1 l2 : list A) :
  find f (l1 ++ l2) =
    match find f l1 with Some x => Some x | None => find f l2 end.
Proof.
  induction l1 as [|x l1 IH]; simpl; [reflexivity|].
  now destruct (f x).
Qed.

(** The deliveries that follow the arming of [f]: the first response [f]
    accepts fulfils the promise and disarms the filter; with none, the
    conversation stays as it was. *)
Lemma deliver_armed_find (f : AtChannel.FilterFunc) (rs : list AtResponse.t) :
  exists flags,
    AtChannel.deliver
      {| AtChannel.mFilter := Some f; AtChannel.mSink := AtChannel.Pending |}
      rs
    = Some (flags,
            match find f rs with
            | Some r => {| AtChannel.mFilter := None;
                           AtChannel.mSink := AtChannel.Ready (Some r) |}
            | None => {| AtChannel.mFilter := Some f;
                         AtChannel.mSink := AtChannel.Pending |}
            end).
Proof.
  induction rs as [|r rs [flags IH]]; [now exists []|].
  cbn [AtChannel.deliver find]. unfold AtChannel.send.
  cbn [AtChannel.mFilter AtChannel.mSink AtChannel.set_value].
  destruct (f r).
  - rewrite deliver_disarmed by reflexivity. eexists. reflexivity.
  - rewrite IH. eexists. reflexivity.
Qed.


(** ** What goes out on the pipe *)

Lemma append_nil_r (s : string) : (s ++ "")%string = s.
Proof. induction s as [|c s IH]; simpl; [reflexivity | now rewrite IH]. Qed.

Lemma append_assoc (a b c : string) :
  ((a ++ b) ++ c)%string = (a ++ (b ++ c))%string.
Proof. induction a as [|x a IH]; simpl; [reflexivity | now rewrite IH]. Qed.

(** [data.substr(0, n)] followed by [data.substr(n)] is [data]. *)
Lemma substr_split (data : string) (n : nat) :
  (n <= String.length data)%nat ->
  (sv.substr data 0 n ++ sv.substr_from data n)%string = data.
Proof.
  unfold sv.substr, sv.substr_from. revert n.
  induction data as [|c data IH]; intros [|n] H; simpl in *;
    try reflexivity; try lia.
  - now rewrite substring_all.
  - f_equal. apply IH. lia.
Qed.

Lemma length_substr_from_exact (data : string) (n : nat) :
  (n <= String.length data)%nat ->
  String.length (sv.substr_from data n) = (String.length data - n)%nat.
Proof.
  unfold sv.substr_from. revert n.
  induction data as [|c data IH]; intros [|n] H; simpl in *;
    try reflexivity; try lia.
  - f_equal. clear. induction data as [|c data IH]; simpl; congruence.
  - apply IH. lia.
Qed.

(** [sendRequestImpl]: the bytes that went out are a leading part of
    [data]; the result is 0 exactly when all of [data] went out. *)
Lemma sendRequestImpl_spec (env : list AtChannel.write_result) :
  forall data err sent env',
    AtChannel.sendRequestImpl env data = Some (err, sent, env') ->
    0 <= err /\
    exists unsent,
      data = (sent ++ unsent)%string /\
      (err = 0 <-> unsent = EmptyString).
Proof.
  induction env as [|w env IH]; intros data err sent env' H.
  - destruct data; [|discriminate H]. injection H as <- <- <-.
    split; [lia|]. exists EmptyString. now split.
  - destruct data as [|c data].
    { injection H as <- <- <-. split; [lia|]. exists EmptyString. now split. }
    cbn [AtChannel.sendRequestImpl] in H.
    destruct w as [room| |errno].
    + destruct (AtChannel.sendRequestImpl env _) as [[[e s] r]|] eqn:E;
        [|discriminate H].
      injection H as <- <- <-.
      destruct (IH _ _ _ _ E) as (He & unsent & Hd & Hiff).
      split; [exact He|]. exists unsent. split; [|exact Hiff].
      rewrite append_assoc, <- Hd. symmetry.
      exact (substr_split (String c data) _ (Nat.le_min_r _ _)).
    + apply (IH _ _ _ _ H).
    + injection H as <- <- <-. split; [lia|].
      exists (String c data). split; [reflexivity|].
      split; [lia | discriminate].
Qed.

Lemma append_inv_head (a b c : string) :
  (a ++ b)%string = (a ++ c)%string -> b = c.
Proof. induction a as [|x a IH]; simpl; [easy|]. intros H. injection H. exact IH. Qed.

(** X9.  A call of [RequestPipe::operator()] that returns has put on the
    pipe a leading part of the request followed by a carriage return,
    whatever [::write] did (partial writes, [EINTR], errors); it returns
    [true] exactly when the whole request and the carriage return went
    out, each byte once and in order. *)
Theorem RequestPipe_sends_request_and_CR
    (env env' : list AtChannel.write_result) (request sent : string)
    (ok : bool) :
  AtChannel.RequestPipe_call env request = Some (ok, sent, env') ->
  (exists unsent, (request ++ CR)%string = (sent ++ unsent)%string) /\
  (ok = true <-> sent = (request ++ CR)%string).
Proof.
  unfold AtChannel.RequestPipe_call. intros H.
  destruct (AtChannel.sendRequestImpl env request) as [[[e s] r]|] eqn:E1;
    [|discriminate H].
  destruct (sendRequestImpl_spec _ _ _ _ _ E1) as (He & u1 & Hd1 & Hiff1).
  destruct (e =? 0) eqn:Ee.
  - apply Z.eqb_eq in Ee. apply Hiff1 in Ee. subst u1.
    rewrite append_nil_r in Hd1. subst s.
    destruct (AtChannel.sendRequestImpl r CR) as [[[e2 s2] r2]|] eqn:E2;
      [|discriminate H].
    injection H as <- <- <-.
    destruct (sendRequestImpl_spec _ _ _ _ _ E2) as (He2 & u2 & Hd2 & Hiff2).
    split.
    + exists u2. now rewrite append_assoc, <- Hd2.
    + rewrite Z.eqb_eq, Hiff2. split.
      * intros ->. rewrite append_nil_r in Hd2. now rewrite Hd2.
      * intros Hs. apply append_inv_head in Hs. subst s2.
        destruct u2 as [|x u2]; [reflexivity|].
        apply (f_equal String.length) in Hd2. rewrite length_append in Hd2.
        simpl in Hd2. lia.
  - injection H as <- <- <-. apply Z.eqb_neq in Ee.
    split.
    + exists (u1 ++ CR)%string. now rewrite <- append_assoc, <- Hd1.
    + split; [discriminate|]. intros Hs. exfalso.
      rewrite Hd1 in Hs. apply (f_equal String.length) in Hs.
      rewrite !length_append in Hs. simpl in Hs. lia.
Qed.

Lemma RequestPipe_sends_request_and_CR_witness :
  (exists unsent, ("AT+CSQ" ++ CR)%string = (("AT+CSQ" ++ CR) ++ unsent)%string) /\
  (true = true <-> ("AT+CSQ" ++ CR)%string = ("AT+CSQ" ++ CR)%string).
Proof.
  apply (RequestPipe_sends_request_and_CR
           [AtChannel.Wrote 2; AtChannel.Eintr; AtChannel.Wrote 0;
            AtChannel.Wrote 100; AtChannel.Wrote 1]
           [] "AT+CSQ" ("AT+CSQ" ++ CR) true).
  reflexivity.
Defined.

Lemma sendRequestImpl_progress (env : list AtChannel.write_result) :
  forall data,
    forallb makes_progress env = true ->
    (String.length data <= List.length env)%nat ->
    exists env',
      AtChannel.sendRequestImpl env data = Some (0, data, env') /\
      forallb makes_progress env' = true /\
      (List.length env - String.length data <= List.length env')%nat.
Proof.
  induction env as [|w env IH]; intros data Hp Hl.
  - destruct data; [|simpl in Hl; lia]. now exists [].
  - destruct data as [|c data]; [now exists (w :: env)|].
    cbn [forallb] in Hp. apply andb_prop in Hp. destruct Hp as [Hw Hp].
    destruct w as [[|room]| |errno]; try discriminate Hw.
    cbn [AtChannel.sendRequestImpl].
    set (written := Nat.min (S room) (String.length (String c data))).
    assert (Hw1 : (1 <= written <= String.length (String c data))%nat).
    { unfold written. simpl. lia. }
    destruct (IH (sv.substr_from (String c data) written) Hp)
      as (env' & -> & Hp' & Hl').
    { rewrite length_substr_from_exact by lia. simpl in *. lia. }
    exists env'. rewrite substr_split by lia.
    split; [reflexivity|]. split; [exact Hp'|].
    rewrite length_substr_from_exact in Hl' by lia. simpl in *. lia.
Qed.

(** X10.  [RequestPipe::operator()] comes to an end: when every [::write]
    takes at least one byte, it returns [true] after at most as many
    writes as there are bytes in the request and the carriage return, and
    exactly the request followed by the carriage return has gone out. *)
Theorem RequestPipe_succeeds_when_writes_progress
    (env : list AtChannel.write_result) (request : string) :
  forallb makes_progress env = true ->
  (String.length request + 1 <= List.length env)%nat ->
  exists env',
    AtChannel.RequestPipe_call env request
      = Some (true, (request ++ CR)%string, env').
Proof.
  intros Hp Hl. unfold AtChannel.RequestPipe_call.
  destruct (sendRequestImpl_progress env request Hp) as (env1 & -> & Hp1 & Hl1);
    [lia|].
  cbn [Z.eqb].
  destruct (sendRequestImpl_progress env1 CR Hp1) as (env2 & -> & _ & _).
  { simpl. lia. }
  now exists env2.
Qed.

Lemma RequestPipe_succeeds_when_writes_progress_witness :
  exists env',
    AtChannel.RequestPipe_call
      [AtChannel.Wrote 1; AtChannel.Wrote 3; AtChannel.Wrote 1] "AT"
      = Some (true, ("AT" ++ CR)%string, env').
Proof.
  apply (RequestPipe_succeeds_when_writes_progress
           [AtChannel.Wrote 1; AtChannel.Wrote 3; AtChannel.Wrote 1] "AT");
    [reflexivity | simpl; lia].
Defined.

(** ** What a call of the conversation returns, over the pipe *)

Lemma call_spec (c : AtChannel.Conversation) (request : string)
    (filter : AtChannel.FilterFunc) (env : AtChannel.Env) :
  exists c' events,
    AtChannel.call c request filter env =
      Some (if AtChannel.pipe_ok env then
              find filter
                   (AtChannel.before_wait env ++ AtChannel.during_wait env)
            else None,
            c', events) /\
    AtChannel.mFilter c' = None.
Proof.
  unfold AtChannel.call, AtChannel.arm. rewrite find_app_Some_or.
  destruct (deliver_armed_find filter (AtChannel.before_wait env))
    as [flags1 ->].
  destruct (AtChannel.pipe_ok env); cbn [negb].
  2:{ eexists _, _. split; reflexivity. }
  destruct (find filter (AtChannel.before_wait env)) as [r|].
  - rewrite deliver_disarmed by reflexivity.
    cbn [AtChannel.mSink]. eexists _, _. split; reflexivity.
  - destruct (deliver_armed_find filter (AtChannel.during_wait env))
      as [flags2 ->].
    destruct (find filter (AtChannel.during_wait env)) as [r|].
    + cbn [AtChannel.mSink]. eexists _, _. split; reflexivity.
    + cbn [AtChannel.mSink].
      destruct (deliver_armed_find filter (AtChannel.after_timeout env))
        as [flags3 ->].
      eexists _, _. split; reflexivity.
Qed.

(** X8.  A call of [Conversation::operator()] returns when its write to
    the pipe returns, whatever the reader delivers and whenever: the
    promise is never fulfilled twice, so [set_value] does not throw.
    While [sendRequestImpl] is still in its loop the call has not
    returned.  When the write has failed the call returns no response.
    When the write has succeeded it returns the first response accepted
    by the filter among those delivered from the arming of the filter to
    the end of the wait, and no response if there is none; a response
    that arrives after the time-out is not returned.  Whenever the call
    returns, the filter slot is left disarmed.  The write does return, and
    the call with it, when every [::write] takes at least one byte. *)
Theorem call_returns_first_accepted_response
    (c : AtChannel.Conversation) (request : string)
    (filter : AtChannel.FilterFunc) (writes : list AtChannel.write_result)
    (before during after : list AtResponse.t) :
  let outcome :=
    AtChannel.call_over_pipe c request filter writes before during after in
  outcome <> AtChannel.Threw /\
  (AtChannel.RequestPipe_call writes request = None <->
   outcome = AtChannel.StillWriting) /\
  (forall ok sent rest,
     AtChannel.RequestPipe_call writes request = Some (ok, sent, rest) ->
     exists c' events,
       outcome =
         AtChannel.Returned
           (if ok then find filter (before ++ during) else None) c' events /\
       AtChannel.mFilter c' = None) /\
  (forallb makes_progress writes = true ->
   (String.length request + 1 <= List.length writes)%nat ->
   exists c' events,
     outcome =
       AtChannel.Returned (find filter (before ++ during)) c' events /\
     AtChannel.mFilter c' = None).
Proof.
  cbv zeta. unfold AtChannel.call_over_pipe.
  assert (Hret : forall ok,
             exists c' events,
               match AtChannel.call c request filter
                       {| AtChannel.pipe_ok := ok;
                          AtChannel.before_wait := before;
                          AtChannel.during_wait := during;
                          AtChannel.after_timeout := after |} with
               | Some (response, c', events) =>
                   AtChannel.Returned response c' events
               | None => AtChannel.Threw
               end =
               AtChannel.Returned
                 (if ok then find filter (before ++ during) else None)
                 c' events /\
               AtChannel.mFilter c' = None).
  { intros ok.
    destruct (call_spec c request filter
                {| AtChannel.pipe_ok := ok;
                   AtChannel.before_wait := before;
                   AtChannel.during_wait := during;
                   AtChannel.after_timeout := after |})
      as (c' & events & -> & Hc).
    cbn [AtChannel.pipe_ok AtChannel.before_wait AtChannel.during_wait].
    now exists c', events. }
  split; [|split; [|split]].
  - destruct (AtChannel.RequestPipe_call writes request) as [[[ok sent] rest]|];
      [|discriminate].
    destruct (Hret ok) as (c' & events & -> & _). discriminate.
  - destruct (AtChannel.RequestPipe_call writes request) as [[[ok sent] rest]|].
    + destruct (Hret ok) as (c' & events & -> & _).
      split; intros H; discriminate H.
    + split; reflexivity.
  - intros ok sent rest ->. apply Hret.
  - intros Hp Hl.
    assert (E : exists rest,
               AtChannel.RequestPipe_call writes request
               = Some (true, (request ++ CR)%string, rest)).
    { unfold AtChannel.RequestPipe_call.
      destruct (sendRequestImpl_progress writes request Hp)
        as (env1 & -> & Hp1 & Hl1); [lia|].
      cbn [Z.eqb].
      destruct (sendRequestImpl_progress env1 CR Hp1) as (env2 & -> & _ & _).
      { simpl. lia. }
      now exists env2. }
    destruct E as [rest ->]. apply (Hret true).
Qed.

Lemma call_returns_first_accepted_response_witness :
  exists c' events,
    AtChannel.call_over_pipe AtChannel.Conversation_init "AT" isOK
      [AtChannel.Wrote 1; AtChannel.Wrote 5; AtChannel.Wrote 1]
      [RING] [OK; OK] []
    = AtChannel.Returned (find isOK ([RING] ++ [OK; OK])) c' events /\
    AtChannel.mFilter c' = None.
Proof.
  apply (proj2 (proj2 (proj2
           (call_returns_first_accepted_response
              AtChannel.Conversation_init "AT" isOK
              [AtChannel.Wrote 1; AtChannel.Wrote 5; AtChannel.Wrote 1]
              [RING] [OK; OK] []))));
    [reflexivity | simpl; lia].
Defined.

(** ** Subscribers over a run of responses *)

Lemma filter_filter {A : Type} (f g : A -> bool) (l : list A) :
  filter g (filter f l) = filter (fun x => f x && g x) l.
Proof.
  induction l as [|x l IH]; simpl; [reflexivity|].
  destruct (f x); simpl; [destruct (g x)|]; now rewrite IH.
Qed.

Lemma filter_true {A : Type} (l : list A) : filter (fun _ => true) l = l.
Proof. induction l as [|x l IH]; simpl; [reflexivity | now rewrite IH]. Qed.

Lemma sinks_after_cons (sinks : list AtChannel.ResponseSink)
    (r : AtResponse.t) (rs : list AtResponse.t) :
  sinks_after sinks (r :: rs)
  = sinks_after (filter (fun sink => AtChannel.sink_fn sink r) sinks) rs.
Proof. unfold sinks_after. now rewrite filter_filter. Qed.

Lemma calls_expected_cons (sinks : list AtChannel.ResponseSink)
    (r : AtResponse.t) (rs : list AtResponse.t) :
  calls_expected sinks (r :: rs)
  = (map (fun sink => (AtChannel.sink_name sink, r)) sinks
     ++ calls_expected
          (filter (fun sink => AtChannel.sink_fn sink r) sinks) rs)%list.
Proof.
  unfold calls_expected. cbn [List.length seq map List.concat nth_error firstn].
  f_equal.
  - unfold sinks_after. cbn [forallb]. now rewrite filter_true.
  - rewrite <- seq_shift, map_map. f_equal. apply map_ext. intros i.
    cbn [nth_error firstn]. now rewrite sinks_after_cons.
Qed.

(** X11.  Over any run of responses handed to [broadcastResponse] from a
    conversation in a state the source can be in, no call fails; the
    subscribers registered at the end are those that returned [true] for
    every response, in their original order; and each response was passed
    to exactly the subscribers that had returned [true] for all the
    responses before it: a subscriber that returned [false] once is never
    called again. *)
Theorem broadcast_prunes_subscribers
    (ch : AtChannel.t) (rs : list AtResponse.t) :
  conv_ok (AtChannel.mConversation ch) ->
  exists c',
    AtChannel.broadcastResponses ch rs =
      Some ({| AtChannel.mConversation := c';
               AtChannel.mResponseSinks :=
                 sinks_after (AtChannel.mResponseSinks ch) rs |},
            calls_expected (AtChannel.mResponseSinks ch) rs) /\
    conv_ok c'.
Proof.
  revert ch. induction rs as [|r rs IH]; intros [c sinks] Hok.
  - exists c. split; [|exact Hok]. cbn.
    unfold sinks_after. cbn [forallb]. now rewrite filter_true.
  - cbn [AtChannel.mConversation AtChannel.mResponseSinks] in *.
    change (AtChannel.broadcastResponses
              {| AtChannel.mConversation := c;
                 AtChannel.mResponseSinks := sinks |} (r :: rs))
      with (match AtChannel.broadcastResponse
                    {| AtChannel.mConversation := c;
                       AtChannel.mResponseSinks := sinks |} r with
            | None => None
            | Some (ch', calls) =>
                match AtChannel.broadcastResponses ch' rs with
                | Some (ch'', calls') => Some (ch'', (calls ++ calls')%list)
                | None => None
                end
            end).
    unfold AtChannel.broadcastResponse.
    cbn [AtChannel.mConversation AtChannel.mResponseSinks].
    destruct (send_spec c r Hok) as (claimed & c1 & -> & _ & _ & _ & Hok1).
    destruct (IH {| AtChannel.mConversation := c1;
                    AtChannel.mResponseSinks :=
                      filter (fun sink => AtChannel.sink_fn sink r) sinks |}
                 Hok1) as (c' & -> & Hok').
    exists c'. split; [|exact Hok'].
    cbn [AtChannel.mResponseSinks].
    now rewrite sinks_after_cons, calls_expected_cons.
Qed.

Lemma broadcast_prunes_subscribers_witness :
  exists c',
    AtChannel.broadcastResponses demo_channel [RING; OK] =
      Some ({| AtChannel.mConversation := c';
               AtChannel.mResponseSinks :=
                 sinks_after (AtChannel.mResponseSinks demo_channel)
                             [RING; OK] |},
            calls_expected (AtChannel.mResponseSinks demo_channel)
                           [RING; OK]) /\
    conv_ok c'.
Proof.
  apply (broadcast_prunes_subscribers demo_channel [RING; OK]).
  intros _. reflexivity.
Defined.

(** ** The request worker *)

(** Once the channel has been reset after a failure, the worker runs
    nothing more. *)
Lemma requestLoop_after_reset (queue : list (option AtChannel.Requester))
    (factory : list (option nat)) (inits : list bool) :
  stopped (AtChannel.requestLoop queue None true factory inits).
Proof.
  unfold stopped. destruct queue as [|[requester|] queue]; cbn; auto.
Qed.

Ltac no_run_in_short_trace :=
  let H := fresh "H" in
  intros [|? [|? [|? [|? ?]]]] ? ? ? H; discriminate H.

Lemma stopped_spec (evs : list AtChannel.request_event) :
  stopped evs ->
  conforms Lost evs = true /\ runs evs = [] /\
  existsb is_open evs = false /\
  forall pre name fd post, evs <> (pre ++ AtChannel.EvRun name fd false :: post)%list.
Proof.
  intros [-> | [-> | ->]];
    (split; [reflexivity|]); (split; [reflexivity|]);
    (split; [reflexivity|]); no_run_in_short_trace.
Qed.

(** The worker from a state it can be in: with a channel open there is a
    reader. *)
Lemma requestLoop_spec (queue : list (option AtChannel.Requester)) :
  forall fd factory inits,
    let trace :=
      AtChannel.requestLoop queue (Some fd) true factory inits in
    conforms (Ready fd) trace = true /\
    existsb is_open trace = false /\
    (forall pre name fd' post,
       trace = (pre ++ AtChannel.EvRun name fd' false :: post)%list ->
       runs post = [] /\ exists tail, post = AtChannel.EvReset :: tail /\
                                      stopped tail) /\
    (exists rest, queued queue = (runs trace ++ rest)%list) /\
    (existsb is_failed_run trace = false -> runs trace = queued queue).
Proof.
  induction queue as [|[requester|] queue IH]; intros fd factory inits;
    cbv zeta; cbn [AtChannel.requestLoop queued].
  - split; [reflexivity|]. split; [reflexivity|].
    split; [no_run_in_short_trace|]. split; [now exists [] | reflexivity].
  - destruct (AtChannel.requester_fn requester fd).
    + destruct (IH fd factory inits) as (H1 & H3 & H4 & [rest H5] & H6).
      cbn [conforms runs existsb is_open is_failed_run orb].
      rewrite Nat.eqb_refl. cbn [andb].
      split; [exact H1|]. split; [exact H3|].
      split; [|split].
      * intros [|e pre] name fd' post H; [discriminate H|].
        cbn [app] in H. injection H as _ H. now apply (H4 pre name fd').
      * exists rest. cbn [app]. now rewrite <- H5.
      * intros H. now rewrite (H6 H).
    + pose proof (requestLoop_after_reset queue factory inits) as Hs.
      destruct (stopped_spec _ Hs) as (S1 & S2 & S3 & S4).
      cbn [conforms runs existsb is_open is_failed_run orb].
      rewrite Nat.eqb_refl. cbn [andb].
      split; [exact S1|]. split; [exact S3|].
      split; [|split].
      * intros [|e pre] name fd' post H.
        -- cbn [app] in H. injection H as _ _ <-.
           cbn [runs]. split; [exact S2|]. now eexists.
        -- cbn [app] in H. injection H as _ H.
           destruct pre as [|e' pre]; [discriminate H|].
           cbn [app] in H. injection H as _ H. now elim (S4 _ _ _ _ H).
      * rewrite S2. now eexists.
      * intros H. discriminate H.
  - split; [reflexivity|]. split; [reflexivity|].
    split; [no_run_in_short_trace|]. split; [now exists [] | reflexivity].
Qed.

(** The same from the start: no channel, no reader. *)
Lemma requestLoop_from_start_spec
    (queue : list (option AtChannel.Requester))
    (factory : list (option nat)) (inits : list bool) :
  let trace := AtChannel.requestLoop_from_start queue factory inits in
  conforms Closed trace = true /\
  (List.length (filter is_open trace) <= 1)%nat /\
  (forall pre name fd post,
     trace = (pre ++ AtChannel.EvRun name fd false :: post)%list ->
     runs post = [] /\ exists tail, post = AtChannel.EvReset :: tail /\
                                    stopped tail) /\
  (exists rest, queued queue = (runs trace ++ rest)%list) /\
  (existsb is_fatal trace = false -> existsb is_failed_run trace = false ->
   runs trace = queued queue).
Proof.
  cbv zeta. unfold AtChannel.requestLoop_from_start.
  destruct queue as [|[requester|] queue]; cbn [AtChannel.requestLoop queued].
  - split; [cbn [conforms]; rewrite ?Nat.eqb_refl; reflexivity|].
      split; [cbn; lia|].
      split; [no_run_in_short_trace|]. split; [now exists []|].
      reflexivity.
  - destruct factory as [|[fd|] factory].
    + split; [cbn [conforms]; rewrite ?Nat.eqb_refl; reflexivity|].
      split; [cbn; lia|].
        split; [no_run_in_short_trace|]. split; [now eexists|].
        intros H; discriminate H.
    + destruct inits as [|[] inits].
      * split; [cbn [conforms]; rewrite ?Nat.eqb_refl; reflexivity|].
      split; [cbn; lia|].
          split; [no_run_in_short_trace|]. split; [now eexists|].
          intros H; discriminate H.
      * assert (Hopen : forall evs,
                   existsb is_open evs = false -> filter is_open evs = []).
        { induction evs as [|e evs IHe]; [reflexivity|].
          cbn [existsb filter]. destruct (is_open e); [discriminate|].
          exact IHe. }
        destruct (AtChannel.requester_fn requester fd).
        -- destruct (requestLoop_spec queue fd factory inits)
             as (H1 & H3 & H4 & [rest H5] & H6).
           cbn [conforms runs existsb is_fatal is_failed_run is_open
                filter orb].
           rewrite !Nat.eqb_refl. cbn [andb].
           split; [exact H1|]. rewrite (Hopen _ H3).
           split; [cbn; lia|]. split; [|split].
           ++ intros [|e [|e1 [|e2 pre]]] name fd' post H;
                try discriminate H.
              cbn [app] in H. injection H as _ _ _ H.
              now apply (H4 pre name fd').
           ++ exists rest. cbn [app]. now rewrite <- H5.
           ++ intros _ H. now rewrite (H6 H).
        -- pose proof (requestLoop_after_reset queue factory inits) as Hs.
           destruct (stopped_spec _ Hs) as (S1 & S2 & S3 & S4).
           cbn [conforms runs existsb is_fatal is_failed_run is_open
                filter orb].
           rewrite !Nat.eqb_refl. cbn [andb].
           split; [exact S1|]. rewrite (Hopen _ S3).
           split; [cbn; lia|]. split; [|split].
           ++ intros [|e [|e1 [|e2 pre]]] name fd' post H;
                try discriminate H.
              ** cbn [app] in H. injection H as _ _ _ _ <-.
                 cbn [runs]. split; [exact S2|]. now eexists.
              ** cbn [app] in H. injection H as _ _ _ H.
                 destruct pre as [|e' pre]; [discriminate H|].
                 cbn [app] in H. injection H as _ H.
                 now elim (S4 _ _ _ _ H).
           ++ rewrite S2. now eexists.
           ++ intros _ H. discriminate H.
      * split; [cbn [conforms]; rewrite ?Nat.eqb_refl; reflexivity|].
      split; [cbn; lia|].
          split; [no_run_in_short_trace|]. split; [now eexists|].
          intros H; discriminate H.
    + split; [cbn [conforms]; rewrite ?Nat.eqb_refl; reflexivity|].
      split; [cbn; lia|].
        split; [no_run_in_short_trace|]. split; [now eexists|].
        intros H; discriminate H.
  - split; [cbn [conforms]; rewrite ?Nat.eqb_refl; reflexivity|].
      split; [cbn; lia|].
      split; [no_run_in_short_trace|]. split; [now exists []|].
      reflexivity.
Qed.

(** X12.  The request worker respects the host channel.  Started with no
    channel and no reader, it opens a channel at most once, runs the init
    sequence on it right away and before any requester, and runs every
    requester on that channel.  A requester that returns [false] is
    followed at once by the reset of the channel, and that requester is
    the last one run: to open a channel again the worker first joins the
    reader thread, which does not end, so what follows the reset is the
    worker standing in [join], or waiting on the empty queue, or the final
    reset when the empty requester is next. *)
Theorem requestLoop_respects_host_channel
    (queue : list (option AtChannel.Requester))
    (factory : list (option nat)) (inits : list bool) :
  let trace := AtChannel.requestLoop_from_start queue factory inits in
  conforms Closed trace = true /\
  (List.length (filter is_open trace) <= 1)%nat /\
  (forall pre name fd post,
     trace = (pre ++ AtChannel.EvRun name fd false :: post)%list ->
     post = [AtChannel.EvReset; AtChannel.EvJoin] \/
     post = [AtChannel.EvReset; AtChannel.EvReset] \/
     post = [AtChannel.EvReset; AtChannel.EvBlocked]).
Proof.
  destruct (requestLoop_from_start_spec queue factory inits)
    as (H1 & H2 & H3 & _).
  cbv zeta. split; [exact H1|]. split; [exact H2|].
  intros pre name fd post H.
  destruct (H3 pre name fd post H) as (_ & tail & -> & [-> | [-> | ->]]);
    auto.
Qed.

Lemma requestLoop_respects_host_channel_witness :
  let trace :=
    AtChannel.requestLoop_from_start
      [ Some {| AtChannel.requester_name := 1;
                AtChannel.requester_fn := fun _ => true |};
        Some {| AtChannel.requester_name := 2;
                AtChannel.requester_fn := fun _ => false |};
        Some {| AtChannel.requester_name := 3;
                AtChannel.requester_fn := fun _ => true |} ]
      [Some 7%nat; Some 8%nat] [true; true] in
  conforms Closed trace = true /\
  (List.length (filter is_open trace) <= 1)%nat /\
  (forall pre name fd post,
     trace = (pre ++ AtChannel.EvRun name fd false :: post)%list ->
     post = [AtChannel.EvReset; AtChannel.EvJoin] \/
     post = [AtChannel.EvReset; AtChannel.EvReset] \/
     post = [AtChannel.EvReset; AtChannel.EvBlocked]).
Proof.
  exact (requestLoop_respects_host_channel
           [ Some {| AtChannel.requester_name := 1;
                     AtChannel.requester_fn := fun _ => true |};
             Some {| AtChannel.requester_name := 2;
                     AtChannel.requester_fn := fun _ => false |};
             Some {| AtChannel.requester_name := 3;
                     AtChannel.requester_fn := fun _ => true |} ]
           [Some 7%nat; Some 8%nat] [true; true]).
Defined.

(** X13.  The request worker serves the queue in order and stops at the
    empty requester or at the first requester that returns [false]: the
    requesters it runs are a leading part of those queued ahead of the
    first empty one, each run once; they are all of them when no
    requester returned [false] and opening and initialising the host
    channel did not fail; and a requester that returned [false] is the
    last one run. *)
Theorem requestLoop_runs_queue_in_order
    (queue : list (option AtChannel.Requester))
    (factory : list (option nat)) (inits : list bool) :
  let trace := AtChannel.requestLoop_from_start queue factory inits in
  (exists rest, queued queue = (runs trace ++ rest)%list) /\
  (existsb is_fatal trace = false -> existsb is_failed_run trace = false ->
   runs trace = queued queue) /\
  (forall pre name fd post,
     trace = (pre ++ AtChannel.EvRun name fd false :: post)%list ->
     runs trace = (runs pre ++ [name])%list).
Proof.
  destruct (requestLoop_from_start_spec queue factory inits)
    as (_ & _ & H3 & H4 & H5).
  cbv zeta. split; [exact H4|]. split; [exact H5|].
  intros pre name fd post H.
  destruct (H3 pre name fd post H) as (Hr & _).
  rewrite H. clear H.
  induction pre as [|e pre IH]; cbn [app runs].
  - now rewrite Hr.
  - destruct e; cbn [runs]; now rewrite ?IH.
Qed.

Lemma requestLoop_runs_queue_in_order_witness :
  let queue :=
    [ Some {| AtChannel.requester_name := 1;
              AtChannel.requester_fn := fun _ => true |};
      Some {| AtChannel.requester_name := 2;
              AtChannel.requester_fn := fun _ => true |};
      None;
      Some {| AtChannel.requester_name := 3;
              AtChannel.requester_fn := fun _ => true |} ] in
  let trace :=
    AtChannel.requestLoop_from_start queue [Some 7%nat] [true] in
  existsb is_fatal trace = false /\
  existsb is_failed_run trace = false /\
  runs trace = queued queue.
Proof.
  split; [reflexivity|]. split; [reflexivity|].
  apply (proj1 (proj2 (requestLoop_runs_queue_in_order
           [ Some {| AtChannel.requester_name := 1;
                     AtChannel.requester_fn := fun _ => true |};
             Some {| AtChannel.requester_name := 2;
                     AtChannel.requester_fn := fun _ => true |};
             None;
             Some {| AtChannel.requester_name := 3;
                     AtChannel.requester_fn := fun _ => true |} ]
           [Some 7%nat] [true]))); reflexivity.
Defined.

(** ** Single-line replies *)

Lemma parseCmds_from_declined (str str1 : string) (pre vps : list ValueParser)
    (mi : bool) :
  forallb (declines str1) pre = true ->
  parseCmds_from str str1 (pre ++ vps) mi = parseCmds_from str str1 vps mi.
Proof.
  induction pre as [|v pre IH]; intros H; [reflexivity|].
  cbn [forallb] in H. apply andb_prop in H. destruct H as [Hv H].
  cbn [app parseCmds_from]. unfold declines in Hv.
  destruct (sv.starts_with str1 (cmd v)); [|now apply IH].
  cbn [negb orb] in Hv.
  destruct (sv.size str1 <=? sv.size (cmd v))%nat; [discriminate Hv|].
  cbn [negb andb] in Hv.
  destruct (String.get (sv.size (cmd v)) str1) as [c|]; [|now apply IH].
  destruct (Ascii.eqb c ":"); [discriminate Hv|].
  destruct (Ascii.eqb c kCR); [discriminate Hv|].
  now apply IH.
Qed.

Lemma index_after_prefix (a s needle : string) :
  String.index (String.length a) needle (a ++ s) =
    match String.index 0 needle s with
    | Some n => Some (String.length a + n)%nat
    | None => None
    end.
Proof.
  induction a as [|c a IH]; cbn [String.length append String.index Nat.add].
  - now destruct (String.index 0 needle s).
  - rewrite IH. now destruct (String.index 0 needle s).
Qed.

Lemma index_CR_end_of_line (payload rest : string) :
  no_CR payload ->
  String.index 0 (String kCR "") (payload ++ String kCR rest)
    = Some (String.length payload).
Proof.
  unfold no_CR, sv.find_char.
  induction payload as [|c payload IH]; intros H.
  { cbn [append String.length String.index String.prefix].
    destruct (ascii_dec kCR kCR) as [_|N]; [now destruct rest | now elim N]. }
  cbn [append String.length]. cbn [String.index] in *.
  cbn [String.prefix] in *.
  destruct (ascii_dec kCR c) as [E|N].
  - destruct payload; discriminate H.
  - destruct (String.index 0 (String kCR "") payload) eqn:E; [discriminate H|].
    now rewrite IH.
Qed.

Lemma substring_middle (a p m : string) :
  String.substring (String.length a) (String.length p) (a ++ p ++ m) = p.
Proof.
  induction a as [|c a IH]; cbn [String.length append].
  - induction p as [|d p IHp]; cbn [String.length append].
    + now destruct m.
    + cbn [String.substring]. now rewrite IHp.
  - cbn [String.substring]. exact IH.
Qed.

(** Once a single-line entry has matched a line: what is found before
    the first carriage return after the tag goes to the entry's parser. *)
Lemma singleline_payload (vp : ValueParser) (head payload rest : string) :
  multiline vp = false -> no_CR payload ->
  Z.of_nat (String.length head + String.length payload + 1) <= INT32_MAX ->
  parseCmds_payload (head ++ payload) vp (String.length head) = (0, None) /\
  parseCmds_payload (head ++ payload ++ String kCR rest) vp
                    (String.length head)
  = (Z.of_nat (String.length head + String.length payload + 1),
     parse_fn vp (ltrim payload)).
Proof.
  intros Hml Hno Hlen. unfold parseCmds_payload, sv.find_char, sv.substr.
  rewrite Hml, !index_after_prefix. split.
  - unfold no_CR, sv.find_char in Hno. now rewrite Hno.
  - rewrite index_CR_end_of_line by exact Hno.
    replace (String.length head + String.length payload - String.length head)%nat
      with (String.length payload) by lia.
    rewrite substring_middle, int_of_size_small by lia.
    reflexivity.
Qed.

(** The three forms of a line for a single-line entry found in its table
    after entries that decline. *)
Lemma singleline_dispatch (sigil : ascii) (tag payload rest : string)
    (pre post : list ValueParser) (vp : ValueParser) :
  cmd vp = tag -> multiline vp = false ->
  (forall d more, d = ":"%char \/ d = kCR ->
     forallb (declines (tag ++ String d more)) pre = true) ->
  no_CR payload ->
  Z.of_nat (String.length tag + String.length payload + 3) <= INT32_MAX ->
  let run s := parseCmds_from (String sigil s) s (pre ++ vp :: post) false in
  run (tag ++ ":" ++ payload) = (0, None) /\
  run (tag ++ ":" ++ payload ++ CR ++ rest)
    = (Z.of_nat (String.length tag + String.length payload + 3),
       parse_fn vp (ltrim payload)) /\
  run (tag ++ CR ++ rest)
    = (Z.of_nat (String.length tag + 2), parse_fn vp "").
Proof.
  intros Hcmd Hml Hpre Hno Hlen run. unfold run.
  assert (Hhead : forall d, String.length (String sigil (tag ++ String d ""))
                            = (1 + String.length tag + 1)%nat).
  { intros d. cbn [String.length]. rewrite length_append. simpl. lia. }
  assert (Hsplit : forall d s,
             String sigil (tag ++ String d s)
             = (String sigil (tag ++ String d "") ++ s)%string).
  { intros d s. cbn [append]. f_equal. rewrite append_assoc. reflexivity. }
  split; [|split].
  - change (tag ++ ":" ++ payload)%string with (tag ++ String ":" payload)%string.
    rewrite parseCmds_from_declined by (apply Hpre; now left).
    rewrite (parseCmds_from_hit _ tag payload ":" vp post false Hcmd).
    cbn [Ascii.eqb Bool.eqb].
    rewrite <- (append_nil_r payload) at 1.
    rewrite Hsplit, append_nil_r, <- (Hhead ":"%char).
    apply (singleline_payload vp _ payload ""); [assumption | assumption|].
    rewrite Hhead. lia.
  - change (tag ++ ":" ++ payload ++ CR ++ rest)%string
      with (tag ++ String ":" (payload ++ String kCR rest))%string.
    rewrite parseCmds_from_declined by (apply Hpre; now left).
    rewrite (parseCmds_from_hit _ tag _ ":" vp post false Hcmd).
    cbn [Ascii.eqb Bool.eqb]. rewrite Hsplit, <- (Hhead ":"%char).
    rewrite (proj2 (singleline_payload vp _ payload rest Hml Hno
                      ltac:(rewrite Hhead; lia))).
    rewrite Hhead. f_equal. f_equal. lia.
  - change (tag ++ CR ++ rest)%string with (tag ++ String kCR rest)%string.
    rewrite parseCmds_from_declined by (apply Hpre; now right).
    rewrite (parseCmds_from_hit _ tag _ kCR vp post false Hcmd).
    change (Ascii.eqb kCR ":") with false. rewrite Ascii.eqb_refl.
    cbn iota.
    assert (Hh : String.length (String sigil tag) = (1 + String.length tag)%nat)
      by reflexivity.
    change (String sigil (tag ++ String kCR rest))
      with (String sigil tag ++ "" ++ String kCR rest)%string.
    rewrite <- Hh.
    rewrite (proj2 (singleline_payload vp (String sigil tag) "" rest Hml
                      eq_refl ltac:(rewrite Hh; simpl; lia))).
    rewrite Hh. f_equal. f_equal. simpl. lia.
Qed.

Lemma parse_tables_percent (plus percent caret : list ValueParser)
    (s : string) :
  parse_tables plus percent caret (String "%" s)
  = parseCmds_from (String "%" s) s percent false.
Proof.
  unfold parse_tables.
  change (sv.starts_with (String "%" s) kRING) with false.
  change (sv.starts_with (String "%" s) kCMT) with false.
  change (sv.starts_with (String "%" s) kCDS) with false.
  cbn [sv.front]. unfold parseCmds. now rewrite substr_from_1.
Qed.

Lemma parse_tables_caret (plus percent caret : list ValueParser)
    (s : string) :
  parse_tables plus percent caret (String "^" s)
  = parseCmds_from (String "^" s) s caret false.
Proof.
  unfold parse_tables.
  change (sv.starts_with (String "^" s) kRING) with false.
  change (sv.starts_with (String "^" s) kCMT) with false.
  change (sv.starts_with (String "^" s) kCDS) with false.
  cbn [sv.front]. unfold parseCmds. now rewrite substr_from_1.
Qed.

Lemma singleline_entries_are :
  singleline_entries =
  [ ("+"%char, 0%nat, "CPIN"); ("+"%char, 1%nat, "CPIN");
    ("+"%char, 2%nat, "CRSM"); ("+"%char, 3%nat, "CFUN");
    ("+"%char, 4%nat, "CREG"); ("+"%char, 5%nat, "CEREG");
    ("+"%char, 6%nat, "CGREG"); ("+"%char, 7%nat, "CTEC");
    ("+"%char, 9%nat, "WRMP"); ("+"%char, 10%nat, "CCSS");
    ("+"%char, 11%nat, "CSQ"); ("+"%char, 14%nat, "CCWA");
    ("+"%char, 15%nat, "CUSATD"); ("+"%char, 16%nat, "CUSATP");
    ("+"%char, 17%nat, "CUSATE"); ("+"%char, 18%nat, "CUSATT");
    ("+"%char, 19%nat, "CUSATEND"); ("+"%char, 21%nat, "CGCONTRDP");
    ("+"%char, 22%nat, "CLCK"); ("+"%char, 23%nat, "CSIM");
    ("+"%char, 24%nat, "CCHC"); ("+"%char, 25%nat, "CLIP");
    ("+"%char, 26%nat, "CLIR"); ("+"%char, 27%nat, "CMUT");
    ("+"%char, 28%nat, "WSOS"); ("+"%char, 29%nat, "CSCA");
    ("+"%char, 30%nat, "CSCB"); ("+"%char, 31%nat, "CMGS");
    ("+"%char, 32%nat, "CMGW"); ("+"%char, 33%nat, "CME ERROR");
    ("+"%char, 34%nat, "CMS ERROR");
    ("%"%char, 0%nat, "CTZV"); ("%"%char, 1%nat, "CGFPCCFG");
    ("^"%char, 0%nat, "MBAU") ].
Proof. reflexivity. Qed.

Ltac declined_before :=
  let d := fresh "d" in
  let more := fresh "more" in
  let Hd := fresh "Hd" in
  intros d more Hd; destruct Hd as [-> | ->]; vm_compute; reflexivity.

Ltac singleline_case :=
  lazymatch goal with
  | |- exists vp, nth_error (table_of ?s) ?k = Some vp /\ _ =>
      let table :=
        eval cbv [table_of Ascii.eqb Bool.eqb andb] in (table_of s) in
      lazymatch eval cbv [nth_error plusValueParsers percentValueParsers
                          caretValueParsers] in (nth_error table k) with
      | Some ?vp =>
          exists vp;
          split; [reflexivity|]; split; [reflexivity|]; split; [reflexivity|];
          unfold parse;
          first [ rewrite !parse_tables_plus by reflexivity
                | rewrite !parse_tables_percent
                | rewrite !parse_tables_caret ];
          refine (singleline_dispatch _ _ _ _ (firstn k table)
                    (skipn (S k) table) vp eq_refl eq_refl _ _ _);
          [ declined_before | assumption | assumption ]
      end
  end.

(** X14.  Every tag registered without the multi-line flag, other than
    the second entry for [CPIN], gets its own lines.  For a payload with
    no carriage return in it: the sigil, the tag, a colon and the payload
    alone are incomplete; followed by a carriage return they are consumed
    up to and including it, whatever comes after, and the response is
    what the tag's parser returns on [ltrim] of the payload, that is on
    the payload without its leading characters that compare, as plain
    [char]s, as at most [0x20]; the sigil and the tag directly followed by
    a carriage return are consumed likewise, with the empty payload. *)
Theorem single_line_reply_goes_to_its_parser
    (sigil : ascii) (k : nat) (tag payload rest : string) :
  In (sigil, k, tag) singleline_entries ->
  (sigil, k) <> ("+"%char, 1%nat) ->
  no_CR payload ->
  Z.of_nat (String.length tag + String.length payload + 3) <= INT32_MAX ->
  exists vp,
    nth_error (table_of sigil) k = Some vp /\
    cmd vp = tag /\ multiline vp = false /\
    parse (String sigil (tag ++ ":" ++ payload)) = (0, None) /\
    parse (String sigil (tag ++ ":" ++ payload ++ CR ++ rest))
      = (Z.of_nat (String.length tag + String.length payload + 3),
         parse_fn vp (ltrim payload)) /\
    parse (String sigil (tag ++ CR ++ rest))
      = (Z.of_nat (String.length tag + 2), parse_fn vp "").
Proof.
  intros Hin Hne Hno Hlen. rewrite singleline_entries_are in Hin.
  cbn [In] in Hin.
  repeat (destruct Hin as [E | Hin];
          [injection E as <- <- <-;
           first [ now elim Hne | singleline_case ] |]).
  contradiction.
Qed.

Lemma single_line_reply_goes_to_its_parser_witness :
  exists vp,
    nth_error (table_of "+") 11 = Some vp /\
    cmd vp = "CSQ" /\ multiline vp = false /\
    parse (String "+" ("CSQ" ++ ":" ++ " 12,99")) = (0, None) /\
    parse (String "+" ("CSQ" ++ ":" ++ " 12,99" ++ CR ++ "OK"))
      = (Z.of_nat (String.length "CSQ" + String.length " 12,99" + 3),
         parse_fn vp (ltrim " 12,99")) /\
    parse (String "+" ("CSQ" ++ CR ++ "OK"))
      = (Z.of_nat (String.length "CSQ" + 2), parse_fn vp "").
Proof.
  apply (single_line_reply_goes_to_its_parser "+" 11 "CSQ" " 12,99" "OK").
  - vm_compute. tauto.
  - intros H. discriminate H.
  - reflexivity.
  - vm_compute. discriminate.
Defined.

(** ** What a payload parser can return *)

Ltac unfold_parsers :=
  unfold CPIN_parse, CPINR_parse, CRSM_parse, CFUN_parse, CREG_parse,
    CGREG_parse, CEREG_parse, reg_parse, CTEC_parse, COPS_parse,
    WRMP_parse, CCSS_parse, CSQ_parse, CLCC_parse, CCFCU_parse,
    CCWA_parse, CUSATD_parse, CUSATP_parse, CUSATE_parse,
    CUSATT_parse, CUSATEND_parse, CGDCONT_parse, CGCONTRDP_parse,
    CLCK_parse, CSIM_parse, CGLA_parse, CCHC_parse, CLIP_parse, CLIR_parse,
    CMUT_parse, WSOS_parse, CSCA_parse, CSCB_parse, CMGS_parse,
    CMGW_parse, CmeError_parse, CmsError_parse,
    CTZV_parse, CGFPCCFG_parse, MBAU_parse,
    makeParseErrorFor, make.

Ltac by_cases_of_the_result tac :=
  repeat match goal with
    | |- context [match ?e with _ => _ end] => destruct e
    end;
  eexists; (split; [reflexivity|]); tac.

Lemma table_parsers_results :
  Forall (fun vp =>
            forall s, exists r,
              parse_fn vp s = Some r /\
              (what r = cmd vp \/ r = ParseError (error_tag vp)))
         all_tables.
Proof.
  unfold all_tables, plusValueParsers, percentValueParsers,
    caretValueParsers, CMD. cbn [app].
  repeat (apply Forall_cons; [cbn [parse_fn cmd]; intros s|]);
    try apply Forall_nil.
  all: unfold_parsers;
    by_cases_of_the_result ltac:(first [left; reflexivity | right; reflexivity]).
Qed.

(** X15.  The parser of a table entry returns a response of its own
    command or a [ParseError], never a null pointer and never a response
    of another command: [what()] of the response is the entry's tag, or
    the response is a [ParseError] that carries the entry's tag.  One
    entry differs: the [ParseError] of the parser registered for [CMGW]
    carries the tag [CMGS]. *)
Theorem table_parser_returns_its_own_command
    (vp : ValueParser) (s : string) :
  In vp all_tables ->
  exists r,
    parse_fn vp s = Some r /\
    (what r = cmd vp \/ r = ParseError (error_tag vp)) /\
    (cmd vp <> "CMGW"%string -> error_tag vp = cmd vp) /\
    (cmd vp = "CMGW"%string -> error_tag vp = "CMGS"%string).
Proof.
  intros Hin.
  destruct (proj1 (Forall_forall _ _) table_parsers_results vp Hin s)
    as (r & Hr & Hw).
  exists r. split; [exact Hr|]. split; [exact Hw|].
  unfold error_tag. split.
  - intros Hne. destruct (String.eqb_spec (cmd vp) "CMGW"); [now elim Hne|].
    reflexivity.
  - intros ->. reflexivity.
Qed.

Lemma table_parser_returns_its_own_command_witness :
  exists r,
    parse_fn (CMD T_CMGW CMGW_parse false) "x" = Some r /\
    (what r = cmd (CMD T_CMGW CMGW_parse false) \/
     r = ParseError (error_tag (CMD T_CMGW CMGW_parse false))) /\
    (cmd (CMD T_CMGW CMGW_parse false) <> "CMGW"%string ->
     error_tag (CMD T_CMGW CMGW_parse false)
       = cmd (CMD T_CMGW CMGW_parse false)) /\
    (cmd (CMD T_CMGW CMGW_parse false) = "CMGW"%string ->
     error_tag (CMD T_CMGW CMGW_parse false) = "CMGS"%string).
Proof.
  apply (table_parser_returns_its_own_command
           (CMD T_CMGW CMGW_parse false) "x").
  unfold all_tables, plusValueParsers. cbn [app In]. tauto.
Defined.

Lemma typed_parsers_results :
  Forall (fun '(T, f) =>
            forall s : string, exists r,
              f s = Some r /\
              (holds_alternative T r = true \/
               r = ParseError (error_tag_of T)))
         typed_parsers.
Proof.
  unfold typed_parsers.
  repeat (apply Forall_cons; [intros s|]); try apply Forall_nil.
  all: unfold_parsers;
    by_cases_of_the_result ltac:(first [left; reflexivity | right; reflexivity]).
Qed.

(** X16.  [holds<T>()] is the filter a request for [T] waits with: it
    accepts a value of type [T] and a [ParseError] tagged with [T]'s id.
    It accepts whatever [T::parse] returns for every [T] with a parser of
    its own other than [CMGW].  [CMGW::parse] tags its failures with the
    id of [CMGS]: [holds<CMGW>()] accepts what it returns exactly when it
    is not a [ParseError], and [holds<CMGS>()] accepts its failures. *)
Theorem holds_accepts_what_the_parser_returns
    (T : Tag) (f : string -> AtResponsePtr) (s : string) :
  In (T, f) typed_parsers ->
  exists r,
    f s = Some r /\
    (T <> T_CMGW -> holds T r = true) /\
    (T = T_CMGW ->
       holds T r = negb (isParseError r) /\
       (isParseError r = true -> holds T_CMGS r = true)).
Proof.
  intros Hin.
  destruct (proj1 (Forall_forall _ _) typed_parsers_results (T, f) Hin s)
    as (r & Hr & Hw).
  exists r. split; [exact Hr|]. split.
  - intros Hne. unfold holds. destruct Hw as [-> | ->]; [reflexivity|].
    destruct T; try reflexivity. now elim Hne.
  - intros ->. destruct Hw as [Hw | ->].
    + unfold holds. rewrite Hw. destruct r; try discriminate Hw.
      split; [reflexivity | discriminate].
    + split; [reflexivity | intros _; reflexivity].
Qed.

Lemma holds_accepts_what_the_parser_returns_witness :
  exists r,
    CMGW_parse "x" = Some r /\
    (T_CMGW <> T_CMGW -> holds T_CMGW r = true) /\
    (T_CMGW = T_CMGW ->
       holds T_CMGW r = negb (isParseError r) /\
       (isParseError r = true -> holds T_CMGS r = true)).
Proof.
  apply (holds_accepts_what_the_parser_returns T_CMGW CMGW_parse "x").
  unfold typed_parsers. cbn [In].
  do 32 right. left. reflexivity.
Defined.

(** ** The values of [+CTEC] *)

Lemma CTEC_values_nonempty (str : string) : CTEC_values str <> [].
Proof.
  destruct str as [|c r]; simpl; [discriminate|].
  destruct (Ascii.eqb c ","); [discriminate|].
  destruct (CTEC_values r); discriminate.
Qed.

Lemma CTEC_values_spec (str : string) :
  String.concat "," (CTEC_values str) = str /\
  Forall no_comma (CTEC_values str) /\
  List.length (CTEC_values str) = S (sv.count str ",").
Proof.
  induction str as [|c r (IH1 & IH2 & IH3)].
  - simpl. repeat split. repeat constructor.
  - cbn [CTEC_values sv.count].
    pose proof (CTEC_values_nonempty r) as Hne.
    destruct (Ascii.eqb_spec c ",") as [-> | N].
    + split; [|split].
      * cbn [String.concat]. destruct (CTEC_values r) as [|h tl] eqn:E;
          [now elim Hne|].
        rewrite IH1. reflexivity.
      * constructor; [reflexivity | exact IH2].
      * simpl. now rewrite IH3.
    + destruct (CTEC_values r) as [|h tl] eqn:E; [now elim Hne|].
      split; [|split].
      * rewrite <- IH1. destruct tl; reflexivity.
      * inversion IH2 as [|? ? Hh Htl]; subst. constructor; [|exact Htl].
        unfold no_comma in *. cbn [sv.count].
        destruct (Ascii.eqb_spec c ","); [now elim N | exact Hh].
      * exact IH3.
Qed.

(** X17.  [CTEC::parse] never fails and loses nothing: it returns a
    [CTEC] whose values are the pieces of the payload between its commas,
    one more than there are commas, none containing a comma, and joining
    them with commas gives the payload back. *)
Theorem CTEC_parse_splits_at_commas (str : string) :
  exists values,
    CTEC_parse str = Some (CTEC values) /\
    String.concat "," values = str /\
    Forall no_comma values /\
    List.length values = S (sv.count str ",").
Proof.
  exists (CTEC_values str). split; [reflexivity|]. apply CTEC_values_spec.
Qed.

Lemma first_set_from_spec (mtech : Z) (n : nat) :
  forall i k,
    first_set_from mtech i n = Some k <->
    (i <= k < i + Z.of_nat n /\ Z.testbit mtech k = true /\
     forall j, i <= j < k -> Z.testbit mtech j = false).
Proof.
  induction n as [|n IH]; intros i k; cbn [first_set_from].
  - split; [discriminate | lia].
  - destruct (Z.testbit mtech i) eqn:E.
    + split.
      * intros H. injection H as <-. repeat split; try lia. exact E.
      * intros (H1 & H2 & H3).
        destruct (Z.eq_dec i k) as [->|N]; [reflexivity|].
        rewrite H3 in E by lia. discriminate E.
    + rewrite IH. split.
      * intros (H1 & H2 & H3). repeat split; try lia; [exact H2|].
        intros j Hj. destruct (Z.eq_dec j i) as [->|N]; [exact E|].
        apply H3. lia.
      * intros (H1 & H2 & H3).
        assert (i <> k) by (intros ->; congruence).
        repeat split; try lia; [exact H2|].
        intros j Hj. apply H3. lia.
Qed.

(** X18.  [CTEC::getCurrentModemTechnology] reads the first value as a
    bit mask: it returns technology [i] exactly when there are one or two
    values, the first is a decimal [int] with nothing after it, and [i]
    is the lowest of the bits 0 to 6 that is set in it.  In every other
    case (no such bit, [DONE], more than two values, not a number) it
    returns nothing. *)
Theorem getCurrentModemTechnology_is_lowest_set_bit
    (values : list string) (i : Z) :
  CTEC_getCurrentModemTechnology values = Some i <->
  exists v0 rest,
    values = v0 :: rest /\ (List.length rest <= 1)%nat /\
    fc_ec (from_chars v0 10) = errc_ok /\
    fc_rest (from_chars v0 10) = EmptyString /\
    0 <= i <= 6 /\
    Z.testbit (fc_value (from_chars v0 10)) i = true /\
    (forall j, 0 <= j < i ->
       Z.testbit (fc_value (from_chars v0 10)) j = false).
Proof.
  unfold CTEC_getCurrentModemTechnology. split.
  - destruct values as [|v0 rest]; [discriminate|].
    destruct ((2 <? List.length (v0 :: rest))%nat || CTEC_isDONE (v0 :: rest))
      eqn:E; [discriminate|].
    apply orb_false_elim in E. destruct E as [E _].
    apply Nat.ltb_ge in E. cbn [List.length] in E.
    destruct (fc_ec (from_chars v0 10)) eqn:Eec; try discriminate.
    unfold sv.empty.
    destruct (fc_rest (from_chars v0 10)) eqn:Er; [|discriminate].
    intros H. apply first_set_from_spec in H.
    unfold ratUtils.ModemTechnology.GSM in H.
    destruct H as (H1 & H2 & H3).
    exists v0, rest. repeat split; try lia; assumption.
  - intros (v0 & rest & -> & Hl & Hec & Hr & Hi & Hb & Hlow).
    replace ((2 <? List.length (v0 :: rest))%nat) with false
      by (symmetry; apply Nat.ltb_ge; cbn [List.length]; lia).
    assert (Hd : CTEC_isDONE (v0 :: rest) = false).
    { unfold CTEC_isDONE. destruct rest; [|reflexivity].
      destruct (String.eqb_spec v0 "DONE") as [->|]; [|reflexivity].
      discriminate Hec. }
    rewrite Hd. cbn [orb]. rewrite Hec, Hr. cbn [sv.empty].
    apply first_set_from_spec. unfold ratUtils.ModemTechnology.GSM.
    repeat split; try lia; assumption.
Qed.

Lemma getCurrentModemTechnology_is_lowest_set_bit_witness :
  CTEC_getCurrentModemTechnology ["6"; "3f"] = Some 1 <->
  exists v0 rest,
    ["6"; "3f"] = v0 :: rest /\ (List.length rest <= 1)%nat /\
    fc_ec (from_chars v0 10) = errc_ok /\
    fc_rest (from_chars v0 10) = EmptyString /\
    0 <= 1 <= 6 /\
    Z.testbit (fc_value (from_chars v0 10)) 1 = true /\
    (forall j, 0 <= j < 1 ->
       Z.testbit (fc_value (from_chars v0 10)) j = false).
Proof.
  exact (getCurrentModemTechnology_is_lowest_set_bit ["6"; "3f"] 1).
Defined.

(** ** Radio technologies and modem technologies *)

Lemma hits_lor_l (a b k : Z) :
  ratUtils.hits (Z.lor a b) k = ratUtils.hits a k || ratUtils.hits b k.
Proof.
  unfold ratUtils.hits. rewrite Z.land_lor_distr_l.
  destruct (Z.land a k =? 0) eqn:Ea; destruct (Z.land b k =? 0) eqn:Eb;
    cbn [negb orb];
    rewrite ?Z.eqb_eq, ?Z.eqb_neq in *;
    [ rewrite Ea, Eb; reflexivity | | | ];
    apply negb_true_iff, Z.eqb_neq; rewrite Z.lor_eq_0_iff; tauto.
Qed.

Lemma hits_lor_r (b k1 k2 : Z) :
  ratUtils.hits b (Z.lor k1 k2) = ratUtils.hits b k1 || ratUtils.hits b k2.
Proof.
  unfold ratUtils.hits. rewrite Z.land_lor_distr_r.
  destruct (Z.land b k1 =? 0) eqn:Ea; destruct (Z.land b k2 =? 0) eqn:Eb;
    cbn [negb orb];
    rewrite ?Z.eqb_eq, ?Z.eqb_neq in *;
    [ rewrite Ea, Eb; reflexivity | | | ];
    apply negb_true_iff, Z.eqb_neq; rewrite Z.lor_eq_0_iff; tauto.
Qed.

Lemma RadioTechnology_eqb_spec (a b : ratUtils.RadioTechnology.t) :
  ratUtils.RadioTechnology.eqb a b = true <-> a = b.
Proof. destruct a, b; split; intros H; solve [reflexivity | discriminate H]. Qed.

Lemma hits_ratbit (value : ratUtils.RadioTechnology.t -> Z)
    (a b : ratUtils.RadioTechnology.t) :
  value_ok value ->
  ratUtils.hits (ratUtils.ratbit value a) (ratUtils.ratbit value b)
  = ratUtils.RadioTechnology.eqb a b.
Proof.
  intros [Hr Hinj]. unfold ratUtils.hits, ratUtils.ratbit.
  pose proof (Hr a) as Ha. pose proof (Hr b) as Hb.
  rewrite !Z.shiftl_1_l.
  destruct (ratUtils.RadioTechnology.eqb a b) eqn:E.
  - apply RadioTechnology_eqb_spec in E. subst b.
    rewrite Z.land_diag. apply negb_true_iff, Z.eqb_neq.
    apply Z.pow_nonzero; lia.
  - apply negb_false_iff, Z.eqb_eq. apply Z.bits_inj'. intros n Hn.
    rewrite Z.land_spec, !Z.pow2_bits_eqb, Z.bits_0 by lia.
    destruct (Z.eqb_spec (value a) n) as [<-|]; [|reflexivity].
    destruct (Z.eqb_spec (value b) (value a)) as [Hv|]; [|reflexivity].
    apply Hinj in Hv. subst b.
    assert (ratUtils.RadioTechnology.eqb a a = true)
      by now apply RadioTechnology_eqb_spec.
    congruence.
Qed.

Ltac mask_hits H :=
  unfold ratUtils.kGSM, ratUtils.kWCDMA, ratUtils.kCDMA, ratUtils.kEVDO,
    ratUtils.kTDSCDMA, ratUtils.kLTE, ratUtils.kNR;
  rewrite ?hits_lor_l, ?hits_lor_r;
  rewrite ?(hits_ratbit _ _ _ H);
  cbn [ratUtils.RadioTechnology.eqb orb andb negb].

Ltac decode_masks H :=
  unfold ratUtils.modemTechnologyFromRadioTechnologyBitmask,
    ratUtils.modemTechnologyBitmaskFromRadioTechnologyBitmask;
  cbv zeta; mask_hits H; repeat split; reflexivity.

(** X19.  The tables of ratUtils agree with each other.  When the
    enumerators of [RadioTechnology] stand for distinct bits of a
    [uint32_t], then for each of the seven modem technologies: the mask
    of radio technologies it supports decodes back to it, both as the
    single technology and as the one-bit mask of modem technologies, and
    the radio technology reported as current for it is one of those it
    supports. *)
Theorem modem_technology_round_trip
    (value : ratUtils.RadioTechnology.t -> Z) (mtech : Z) :
  value_ok value -> 0 <= mtech <= 6 ->
  let mask := ratUtils.supportedRadioTechBitmask value mtech in
  ratUtils.modemTechnologyFromRadioTechnologyBitmask value mask = mtech /\
  ratUtils.modemTechnologyBitmaskFromRadioTechnologyBitmask value mask
    = ratUtils.mtechBit mtech /\
  ratUtils.hits mask
    (ratUtils.ratbit value (ratUtils.currentRadioTechnology mtech)) = true.
Proof.
  intros Hv Hm.
  assert (Hc : mtech = 0 \/ mtech = 1 \/ mtech = 2 \/ mtech = 3 \/
               mtech = 4 \/ mtech = 5 \/ mtech = 6) by lia.
  destruct Hc as [-> | [-> | [-> | [-> | [-> | [-> | ->]]]]]]; cbv zeta.
  - change (ratUtils.supportedRadioTechBitmask value 0)
      with (ratUtils.kGSM value).
    change (ratUtils.currentRadioTechnology 0)
      with ratUtils.RadioTechnology.EDGE.
    decode_masks Hv.
  - change (ratUtils.supportedRadioTechBitmask value 1)
      with (ratUtils.kWCDMA value).
    change (ratUtils.currentRadioTechnology 1)
      with ratUtils.RadioTechnology.HSPA.
    decode_masks Hv.
  - change (ratUtils.supportedRadioTechBitmask value 2)
      with (ratUtils.kCDMA value).
    change (ratUtils.currentRadioTechnology 2)
      with ratUtils.RadioTechnology.IS95B.
    decode_masks Hv.
  - change (ratUtils.supportedRadioTechBitmask value 3)
      with (ratUtils.kEVDO value).
    change (ratUtils.currentRadioTechnology 3)
      with ratUtils.RadioTechnology.EVDO_B.
    decode_masks Hv.
  - change (ratUtils.supportedRadioTechBitmask value 4)
      with (ratUtils.kTDSCDMA value).
    change (ratUtils.currentRadioTechnology 4)
      with ratUtils.RadioTechnology.TD_SCDMA.
    decode_masks Hv.
  - change (ratUtils.supportedRadioTechBitmask value 5)
      with (ratUtils.kLTE value).
    change (ratUtils.currentRadioTechnology 5)
      with ratUtils.RadioTechnology.LTE.
    decode_masks Hv.
  - change (ratUtils.supportedRadioTechBitmask value 6)
      with (ratUtils.kNR value).
    change (ratUtils.currentRadioTechnology 6)
      with ratUtils.RadioTechnology.NR.
    decode_masks Hv.
Qed.

Lemma sample_value_ok : value_ok sample_value.
Proof.
  split.
  - intros r. destruct r; simpl; lia.
  - intros a b. destruct a, b; simpl; intros H;
      solve [reflexivity | discriminate H].
Qed.

Lemma modem_technology_round_trip_witness :
  let mask := ratUtils.supportedRadioTechBitmask sample_value 1 in
  ratUtils.modemTechnologyFromRadioTechnologyBitmask sample_value mask = 1 /\
  ratUtils.modemTechnologyBitmaskFromRadioTechnologyBitmask sample_value mask
    = ratUtils.mtechBit 1 /\
  ratUtils.hits mask
    (ratUtils.ratbit sample_value (ratUtils.currentRadioTechnology 1)) = true.
Proof.
  apply (modem_technology_round_trip sample_value 1);
    [exact sample_value_ok | lia].
Defined.

(** X20.  The two decoders of a radio technology mask agree, whatever
    the numbers behind the enumerators are: the modem technology that
    [modemTechnologyFromRadioTechnologyBitmask] picks is the highest one
    set in the mask that
    [modemTechnologyBitmaskFromRadioTechnologyBitmask] builds, and is
    [GSM] when that mask is empty; the mask built has no bit outside the
    seven modem technologies. *)
Theorem mask_decoders_agree
    (value : ratUtils.RadioTechnology.t -> Z) (radioTechnologyBitmask : Z) :
  let mtech :=
    ratUtils.modemTechnologyFromRadioTechnologyBitmask
      value radioTechnologyBitmask in
  let mask :=
    ratUtils.modemTechnologyBitmaskFromRadioTechnologyBitmask
      value radioTechnologyBitmask in
  0 <= mtech <= 6 /\ 0 <= mask < 128 /\
  (mask = 0 -> mtech = ratUtils.ModemTechnology.GSM) /\
  (mask <> 0 ->
     Z.testbit mask mtech = true /\
     forall j, mtech < j -> Z.testbit mask j = false).
Proof.
  cbv zeta.
  unfold ratUtils.modemTechnologyFromRadioTechnologyBitmask,
    ratUtils.modemTechnologyBitmaskFromRadioTechnologyBitmask.
  cbv zeta.
  destruct (ratUtils.hits radioTechnologyBitmask (ratUtils.kNR value));
  destruct (ratUtils.hits radioTechnologyBitmask (ratUtils.kLTE value));
  destruct (ratUtils.hits radioTechnologyBitmask (ratUtils.kTDSCDMA value));
  destruct (ratUtils.hits radioTechnologyBitmask (ratUtils.kEVDO value));
  destruct (ratUtils.hits radioTechnologyBitmask (ratUtils.kCDMA value));
  destruct (ratUtils.hits radioTechnologyBitmask (ratUtils.kWCDMA value));
  destruct (ratUtils.hits radioTechnologyBitmask (ratUtils.kGSM value));
    unfold ratUtils.mtechBit, ratUtils.ModemTechnology.NR,
      ratUtils.ModemTechnology.LTE, ratUtils.ModemTechnology.TDSCDMA,
      ratUtils.ModemTechnology.EVDO, ratUtils.ModemTechnology.CDMA,
      ratUtils.ModemTechnology.WCDMA, ratUtils.ModemTechnology.GSM;
    cbn -[Z.testbit Z.lt Z.le];
    (split; [lia|]); (split; [lia|]);
    (split; [intros H; solve [reflexivity | discriminate H]|]);
    intros H; try (now elim H);
    (split; [reflexivity|]);
    intros j Hj;
    match goal with
    | |- Z.testbit ?c j = false =>
        apply Z.bits_above_log2;
        [ lia
        | let l := eval vm_compute in (Z.log2 c) in
          change (Z.log2 c) with l; lia ]
    end.
Qed.

Lemma mask_decoders_agree_witness :
  let mtech :=
    ratUtils.modemTechnologyFromRadioTechnologyBitmask sample_value 81924 in
  let mask :=
    ratUtils.modemTechnologyBitmaskFromRadioTechnologyBitmask
      sample_value 81924 in
  0 <= mtech <= 6 /\ 0 <= mask < 128 /\
  (mask = 0 -> mtech = ratUtils.ModemTechnology.GSM) /\
  (mask <> 0 ->
     Z.testbit mask mtech = true /\
     forall j, mtech < j -> Z.testbit mask j = false).
Proof.
  exact (mask_decoders_agree sample_value 81924).
Defined.

(** ** The reader's loop *)

Lemma broadcastResponse_total (ch : AtChannel.t) (r : AtResponse.t) :
  conv_ok (AtChannel.mConversation ch) ->
  exists ch' calls,
    AtChannel.broadcastResponse ch r = Some (ch', calls) /\
    conv_ok (AtChannel.mConversation ch').
Proof.
  intros Hok. unfold AtChannel.broadcastResponse.
  destruct (send_spec _ r Hok) as (claimed & c' & -> & _ & _ & _ & Hok').
  eexists _, _. split; [reflexivity | exact Hok'].
Qed.

Lemma receiveResponsesImpl_from_spec (fuel : nat) :
  forall ch buf,
    (String.length buf < fuel)%nat ->
    conv_ok (AtChannel.mConversation ch) ->
    Z.of_nat (String.length buf) <= INT32_MAX ->
    exists ok rest ch' calls,
      AtChannel.receiveResponsesImpl_from fuel ch buf
        = Some (ok, rest, ch', calls) /\
      conv_ok (AtChannel.mConversation ch') /\
      (ok = true ->
         exists done tail,
           rest = Some tail /\ buf = (done ++ tail)%string /\
           (tail <> EmptyString -> parse tail = (0, None))) /\
      (ok = false ->
         rest = None /\
         exists done tail,
           buf = (done ++ tail)%string /\ parse tail = (-1, None)).
Proof.
  induction fuel as [|fuel IH]; intros ch buf Hf Hok Hlen; [lia|].
  cbn [AtChannel.receiveResponsesImpl_from].
  destruct buf as [|c b].
  { exists true, (Some EmptyString), ch, []. split; [reflexivity|].
    split; [exact Hok|]. split; [|discriminate].
    intros _. exists EmptyString, EmptyString.
    split; [reflexivity|]. split; [reflexivity|]. intros H. now elim H. }
  assert (Hrec : forall n ch1 calls1,
             (0 < n <= String.length (String c b))%nat ->
             conv_ok (AtChannel.mConversation ch1) ->
             exists ok rest ch' calls,
               match AtChannel.receiveResponsesImpl_from fuel ch1
                       (sv.substr_from (String c b) n) with
               | Some (ok, rest, ch'', calls') =>
                   Some (ok, rest, ch'', (calls1 ++ calls')%list)
               | None => None
               end = Some (ok, rest, ch', calls) /\
               conv_ok (AtChannel.mConversation ch') /\
               (ok = true ->
                  exists done tail,
                    rest = Some tail /\ String c b = (done ++ tail)%string /\
                    (tail <> EmptyString -> parse tail = (0, None))) /\
               (ok = false ->
                  rest = None /\
                  exists done tail,
                    String c b = (done ++ tail)%string /\
                    parse tail = (-1, None))).
  { intros n ch1 calls1 Hn Hok1.
    pose proof (length_substr_from_exact (String c b) n (proj2 Hn)) as L.
    destruct (IH ch1 (sv.substr_from (String c b) n))
      as (ok & rest & ch' & calls & -> & Hok' & Ht & Hfls);
      [cbn [String.length] in *; lia | exact Hok1 | lia |].
    exists ok, rest, ch', (calls1 ++ calls)%list.
    split; [reflexivity|]. split; [exact Hok'|].
    pose proof (substr_split (String c b) n (proj2 Hn)) as Hs.
    split.
    - intros H. destruct (Ht H) as (done & tail & -> & Hd & Hp).
      exists (sv.substr (String c b) 0 n ++ done)%string, tail.
      split; [reflexivity|]. split; [|exact Hp].
      rewrite append_assoc, <- Hd. now symmetry.
    - intros H. destruct (Hfls H) as (-> & done & tail & Hd & Hp).
      split; [reflexivity|].
      exists (sv.substr (String c b) 0 n ++ done)%string, tail.
      split; [|exact Hp].
      rewrite append_assoc, <- Hd. now symmetry. }
  unfold AtChannel.receiveOneResponse.
  destruct (Ascii.eqb c kCR || Ascii.eqb c kLF).
  { apply (Hrec 1%nat ch []); [cbn [String.length]; lia | exact Hok]. }
  destruct (parse_result_shape (String c b) Hlen)
    as [E | [E | (n & r & E & Hn)]]; rewrite E.
  - cbn [Z.geb Z.compare Z.to_nat].
    exists true, (Some (String c b)), ch, []. split; [reflexivity|].
    split; [exact Hok|]. split; [|discriminate].
    intros _. exists EmptyString, (String c b).
    split; [reflexivity|]. split; [reflexivity|]. intros _. exact E.
  - cbn [Z.geb Z.compare].
    exists false, None, ch, []. split; [reflexivity|].
    split; [exact Hok|]. split; [discriminate|].
    intros _. split; [reflexivity|].
    exists EmptyString, (String c b). split; [reflexivity | exact E].
  - replace (Z.of_nat n >=? 0) with true by (symmetry; apply Z.geb_le; lia).
    rewrite Nat2Z.id.
    destruct (broadcastResponse_total ch r Hok) as (ch1 & calls1 & -> & Hok1).
    destruct n as [|n]; [lia|].
    apply (Hrec (S n) ch1 calls1 Hn Hok1).
Qed.

(** X21.  On the bytes of one read, with the conversation in a state the
    source can be in, [receiveResponsesImpl] always comes to an end, and
    without an exception.  When it returns [true], what it leaves in
    [unconsumed] is a tail of the bytes, empty or one that [parse] reports
    as incomplete; when it returns [false], [unconsumed] is left as it
    was and [parse] has reported [-1] on a tail of the bytes. *)
Theorem reader_keeps_the_incomplete_tail (ch : AtChannel.t) (buf : string) :
  conv_ok (AtChannel.mConversation ch) ->
  Z.of_nat (String.length buf) <= INT32_MAX ->
  exists ok rest ch' calls,
    AtChannel.receiveResponsesImpl ch buf = Some (ok, rest, ch', calls) /\
    conv_ok (AtChannel.mConversation ch') /\
    (ok = true ->
       exists done tail,
         rest = Some tail /\ buf = (done ++ tail)%string /\
         (tail <> EmptyString -> parse tail = (0, None))) /\
    (ok = false ->
       rest = None /\
       exists done tail,
         buf = (done ++ tail)%string /\ parse tail = (-1, None)).
Proof.
  intros Hok Hlen. apply receiveResponsesImpl_from_spec; [lia | | ]; assumption.
Qed.

Lemma reader_keeps_the_incomplete_tail_witness :
  exists ok rest ch' calls,
    AtChannel.receiveResponsesImpl demo_channel
      ("OK" ++ CR ++ "+CSQ: 1")
      = Some (ok, rest, ch', calls) /\
    conv_ok (AtChannel.mConversation ch') /\
    (ok = true ->
       exists done tail,
         rest = Some tail /\
         ("OK" ++ CR ++ "+CSQ: 1")%string = (done ++ tail)%string /\
         (tail <> EmptyString -> parse tail = (0, None))) /\
    (ok = false ->
       rest = None /\
       exists done tail,
         ("OK" ++ CR ++ "+CSQ: 1")%string = (done ++ tail)%string /\
         parse tail = (-1, None)).
Proof.
  apply (reader_keeps_the_incomplete_tail demo_channel
           ("OK" ++ CR ++ "+CSQ: 1")).
  - intros _. reflexivity.
  - vm_compute. discriminate.
Defined.

(** ** The id lists of [+CSCB] *)

Lemma take_digits_then (base : Z) (c : ascii) (s : string) (body : string) :
  digit_value c = None ->
  forall acc cnt v cnt',
    take_digits base body acc cnt = (v, cnt', EmptyString) ->
    take_digits base (body ++ String c s) acc cnt = (v, cnt', String c s).
Proof.
  intros Hc. induction body as [|b r IH]; intros acc cnt v cnt' H.
  - cbn [take_digits] in H. injection H as <- <-.
    cbn [append take_digits]. now rewrite Hc.
  - cbn [append take_digits] in *.
    destruct (digit_value b) as [d|]; [|discriminate H].
    destruct (d <? base); [now apply IH | discriminate H].
Qed.

Lemma from_chars_digits_then (c : ascii) (s d body : string) (neg : bool)
    (signlen : nat) :
  digit_value c = None ->
  fc_ec (from_chars_digits d body neg signlen 10) = errc_ok ->
  fc_rest (from_chars_digits d body neg signlen 10) = EmptyString ->
  from_chars_digits (d ++ String c s) (body ++ String c s) neg signlen 10 =
    {| fc_ec := errc_ok;
       fc_value := fc_value (from_chars_digits d body neg signlen 10);
       fc_rest := String c s;
       fc_len := fc_len (from_chars_digits d body neg signlen 10) |}.
Proof.
  intros Hc. unfold from_chars_digits.
  destruct (take_digits 10 body 0 0) as [[v cnt] rest] eqn:E.
  destruct cnt as [|cnt]; [intros H; discriminate H|].
  destruct ((INT32_MIN <=? (if neg then - v else v))
            && ((if neg then - v else v) <=? INT32_MAX)) eqn:Er;
    [|intros H; discriminate H].
  cbn [fc_ec fc_rest fc_value fc_len]. intros _ ->.
  rewrite (take_digits_then 10 c s body Hc _ _ _ _ E), Er. reflexivity.
Qed.

Lemma from_chars_then (c : ascii) (s d : string) :
  digit_value c = None -> c <> "-"%char -> decimal_int d ->
  from_chars (d ++ String c s) 10 =
    {| fc_ec := errc_ok;
       fc_value := fc_value (from_chars d 10);
       fc_rest := String c s;
       fc_len := fc_len (from_chars d 10) |}.
Proof.
  intros Hc Hm [Hec Hrest].
  destruct (from_chars_cases d 10) as [E | (r & -> & E)]; rewrite E in *.
  - destruct (from_chars_cases (d ++ String c s) 10)
      as [E' | (r' & Hd & E')]; rewrite E'.
    + now apply from_chars_digits_then.
    + destruct d as [|b d'].
      * cbn [append] in Hd. injection Hd as -> _. now elim Hm.
      * cbn [append] in Hd. injection Hd as -> <-.
        exfalso. unfold from_chars_digits in Hec.
        cbn [take_digits] in Hec.
        change (digit_value "-") with (@None Z) in Hec.
        discriminate Hec.
  - change (String "-" r ++ String c s)%string
      with (String "-" (r ++ String c s)).
    change (from_chars (String "-" (r ++ String c s)) 10)
      with (from_chars_digits (String "-" (r ++ String c s))
              (r ++ String c s) true 1 10).
    now apply (from_chars_digits_then c s (String "-" r) r true 1).
Qed.

(** The loop of [parseIds] looks at the text a parser has left, not at
    how far into its input the parser is. *)
Lemma CSCB_parseIds_loop_text_only (fuel : nat) :
  forall text o o' ids,
    CSCB_parseIds_loop fuel (Parser.mk text o) ids
    = CSCB_parseIds_loop fuel (Parser.mk text o') ids.
Proof.
  induction fuel as [|fuel IH]; intros text o o' ids; [reflexivity|].
  cbn [CSCB_parseIds_loop].
  unfold Parser.hasMore, Parser.int, Parser.int_base.
  cbn [Parser.mBegin Parser.mOffset].
  destruct text as [[|c s]|]; try reflexivity.
  destruct (fc_ec (from_chars (String c s) 10)); try reflexivity.
  unfold Parser.matchSoFar, Parser.fullMatch, Parser.front.
  cbn [Parser.mBegin Parser.mOffset negb].
  destruct (fc_rest (from_chars (String c s) 10)) as [|c2 r2];
    [reflexivity|].
  destruct (Ascii.eqb c2 "-").
  - unfold Parser.skip. cbn [Parser.mBegin Parser.mOffset].
    change (Ascii.eqb "-" " ") with false. cbv iota.
    destruct (Ascii.eqb c2 "-"); [|reflexivity].
    cbn [Parser.mBegin Parser.mOffset].
    destruct r2 as [|c3 r3]; [reflexivity|].
    destruct (fc_ec (from_chars (String c3 r3) 10)); try reflexivity.
    cbn [Parser.mBegin Parser.mOffset negb].
    destruct (fc_rest (from_chars (String c3 r3) 10)) as [|c4 r4];
      [apply IH|].
    destruct (Ascii.eqb c4 ","); [|reflexivity].
    change (Ascii.eqb "," " ") with false. cbv iota.
    cbn [Parser.mBegin Parser.mOffset].
    apply IH.
  - destruct (Ascii.eqb c2 ",") eqn:E; [|reflexivity].
    unfold Parser.skip. cbn [Parser.mBegin Parser.mOffset].
    change (Ascii.eqb "," " ") with false. cbv iota. rewrite E.
    apply IH.
Qed.

Lemma decimal_int_nonempty (d : string) : decimal_int d -> d <> EmptyString.
Proof. intros [H _] ->. discriminate H. Qed.

(** X22.  [CSCB::parseIds] keeps a lone id only at the end of the list.
    For every text [d] of a decimal [int]: [parseIds(d)] is the single
    association from that number to itself, but [d] followed by a comma
    and more text [s] gives what [s] alone gives, the id is dropped:
    the [case ','] of the loop skips the comma without pushing [a]. *)
Theorem parseIds_drops_lone_id_before_comma (d s : string) :
  decimal_int d ->
  CSCB_parseIds d =
    Some [ {| assoc_from := fc_value (from_chars d 10);
              assoc_to := fc_value (from_chars d 10) |} ] /\
  CSCB_parseIds (d ++ "," ++ s) = CSCB_parseIds s.
Proof.
  intros Hd. pose proof (decimal_int_nonempty d Hd) as Hne. split.
  - destruct Hd as [Hec Hrest]. unfold CSCB_parseIds.
    cbn [CSCB_parseIds_loop].
    unfold Parser.hasMore, Parser.int, Parser.int_base, Parser.make.
    cbn [Parser.mBegin Parser.mOffset].
    destruct d as [|c d']; [now elim Hne|].
    rewrite Hec. unfold Parser.matchSoFar, Parser.fullMatch.
    cbn [Parser.mBegin negb]. rewrite Hrest. reflexivity.
  - assert (E := from_chars_then "," s d eq_refl ltac:(discriminate) Hd).
    unfold CSCB_parseIds at 1.
    cbn [CSCB_parseIds_loop].
    unfold Parser.hasMore, Parser.int, Parser.int_base, Parser.make.
    cbn [Parser.mBegin Parser.mOffset].
    change (d ++ "," ++ s)%string with (d ++ String "," s)%string.
    destruct d as [|c d']; [now elim Hne|].
    cbn [append]. cbn [append] in E. rewrite E.
    cbn [fc_ec fc_rest fc_value fc_len].
    unfold Parser.matchSoFar, Parser.fullMatch, Parser.front, Parser.skip.
    cbn [Parser.mBegin Parser.mOffset negb].
    change (Ascii.eqb "," "-") with false.
    change (Ascii.eqb "," ",") with true.
    change (Ascii.eqb "," " ") with false. cbv iota.
    rewrite (CSCB_parseIds_loop_text_only _ (Some s) _ 0%nat).
    unfold CSCB_parseIds, Parser.make.
    apply CSCB_parseIds_loop_fuel; unfold plen;
      cbn [Parser.mBegin String.length]; rewrite ?length_append;
      cbn [String.length]; lia.
Qed.

Lemma parseIds_drops_lone_id_before_comma_witness :
  CSCB_parseIds "4370" =
    Some [ {| assoc_from := fc_value (from_chars "4370" 10);
              assoc_to := fc_value (from_chars "4370" 10) |} ] /\
  CSCB_parseIds ("4370" ++ "," ++ "4380-4382") = CSCB_parseIds "4380-4382".
Proof.
  apply (parseIds_drops_lone_id_before_comma "4370" "4380-4382").
  split; reflexivity.
Defined.

(** ** [ltrim] *)

Lemma is_blank_bytes (c : ascii) :
  is_blank c = true <->
  char_code c <= 32 \/ (plain_char_is_signed = true /\ 128 <= char_code c).
Proof.
  unfold is_blank, char_value. cbv zeta.
  assert (R : 0 <= char_code c < 256).
  { unfold char_code. pose proof (nat_ascii_bounded c). lia. }
  destruct plain_char_is_signed; cbn [andb].
  - destruct (Z.leb_spec 128 (char_code c)) as [L | L]; rewrite Z.leb_le;
      split.
    + intros _. right. split; [reflexivity | lia].
    + intros _. lia.
    + intros H'. left. lia.
    + intros [H' | [_ H']]; lia.
  - rewrite Z.leb_le. split.
    + intros H'. left. lia.
    + intros [H' | [H' _]]; [lia | discriminate H'].
Qed.

(** X23.  [ltrim] removes exactly the leading characters that compare, as
    plain [char]s, as at most [0x20]: the text is those characters
    followed by the result, the result does not start with such a
    character, and trimming twice changes nothing.  Where plain [char] is
    signed, as here, these are the bytes up to the space and the bytes
    from [0x80] on. *)
Theorem ltrim_removes_leading_blanks (s : string) :
  (exists blanks,
     s = (blanks ++ ltrim s)%string /\ all_chars is_blank blanks = true) /\
  match ltrim s with
  | String c _ => is_blank c = false
  | EmptyString => True
  end /\
  ltrim (ltrim s) = ltrim s /\
  (forall c, is_blank c = true <-> char_code c <= 32 \/ 128 <= char_code c).
Proof.
  split; [|split; [|split]].
  4:{ intros c. rewrite is_blank_bytes. split.
      - intros [H | [_ H]]; auto.
      - intros [H | H]; auto. }
  all: induction s as [|c s IH]; cbn [ltrim]; try reflexivity;
    try (now exists EmptyString); try exact I.
  - destruct IH as (blanks & Hs & Hb).
    destruct (char_value c <=? 32) eqn:E.
    + exists (String c blanks). split.
      * cbn [append]. now rewrite <- Hs.
      * cbn [all_chars]. rewrite Hb. unfold is_blank. now rewrite E.
    + now exists EmptyString.
  - destruct (char_value c <=? 32) eqn:E; [exact IH | exact E].
  - destruct (char_value c <=? 32) eqn:E; [exact IH|].
    cbn [ltrim]. now rewrite E.
Qed.

(** ** How many values [+CSQ] takes *)









(** ** Reading up to an end character *)

Lemma split_at_absent (e : ascii) (s : string) :
  sv.count s e = 0%nat -> Parser.split_at e s = None.
Proof.
  induction s as [|c s IH]; cbn [sv.count Parser.split_at]; [reflexivity|].
  destruct (Ascii.eqb c e); [discriminate|].
  intros H. now rewrite IH.
Qed.

Lemma split_at_first (e : ascii) (a b : string) :
  sv.count a e = 0%nat ->
  Parser.split_at e (a ++ String e b) = Some (a, b).
Proof.
  induction a as [|c a IH]; cbn [sv.count append Parser.split_at].
  - now rewrite Ascii.eqb_refl.
  - destruct (Ascii.eqb c e); [discriminate|].
    intros H. now rewrite IH.
Qed.

(** X25.  The two [operator()]s that read up to an end character take
    the text before its first occurrence and step over that occurrence:
    when the text left is [a], the end character and [b], with no end
    character in [a], the result is [a], the text left is [b] and the
    parser has moved by the length of [a] plus one.  When the end
    character does not occur in the text left, the parser fails and the
    result variable keeps its value. *)
Theorem view_takes_text_before_first_end
    (e : ascii) (old s : string) (o : nat) :
  let p := Parser.mk (Some s) o in
  (sv.count s e = 0%nat ->
     Parser.view e old p = (Parser.fail p, old) /\
     Parser.str e old p = (Parser.fail p, old)) /\
  (forall a b,
     s = (a ++ String e b)%string -> sv.count a e = 0%nat ->
     Parser.view e old p
       = (Parser.mk (Some b) (o + String.length a + 1), a) /\
     Parser.str e old p
       = (Parser.mk (Some b) (o + String.length a + 1), a)).
Proof.
  cbv zeta. split.
  - intros H. unfold Parser.str, Parser.view.
    cbn [Parser.mBegin Parser.mOffset].
    rewrite (split_at_absent e s H). split; reflexivity.
  - intros a b -> H. unfold Parser.str, Parser.view.
    cbn [Parser.mBegin Parser.mOffset].
    rewrite (split_at_first e a b H). split; reflexivity.
Qed.

Lemma view_takes_text_before_first_end_witness :
  let p := Parser.mk (Some "0891,145") 3 in
  (sv.count "0891,145" "," = 0%nat ->
     Parser.view "," "x" p = (Parser.fail p, "x"%string) /\
     Parser.str "," "x" p = (Parser.fail p, "x"%string)) /\
  (forall a b,
     "0891,145"%string = (a ++ String "," b)%string ->
     sv.count a "," = 0%nat ->
     Parser.view "," "x" p
       = (Parser.mk (Some b) (3 + String.length a + 1), a) /\
     Parser.str "," "x" p
       = (Parser.mk (Some b) (3 + String.length a + 1), a)).
Proof.
  exact (view_takes_text_before_first_end "," "x" "0891,145" 3).
Defined.
